(** * plantr: dependency resolution and the seeder execution engine

    A shallow embedding of [src/dependency-resolver.ts], [src/run-seeders.ts],
    [src/seeding-state.ts], [src/step.ts], [src/define-seeder.ts], the
    summary line of [src/formatting.ts] and the [runSeeders] and
    [runSeedersCli] closures of [src/create-seeder-instance.ts], followed by
    the properties of the resolver (Kahn ordering, validation, cycle
    reporting), of the engine (ledger shape, failure policy, run-active
    flag, dependency injection), of the step runner (cache keys, replay
    from the cache) and of the command line (exit code, dry run). *)

From Stdlib Require Import String Ascii ZArith Lia Bool Arith List Permutation ListDec.
From Stdlib Require Import Relations.Relation_Operators Sorted DecimalString.
Import ListNotations.

Local Open Scope string_scope.
Local Open Scope list_scope.

(* ================================================================== *)
(** ** Insertion-ordered maps

    A JavaScript [Map<string, V>] iterates its keys in insertion order and
    [set] on a key that is already present keeps the key's position.  The
    resolver seeds its ready-queue by iterating such a map, so the order is
    part of the model. *)

Module OMap.

Definition t (V : Type) : Type := list (string * V).

Section Ops.
Context {V : Type}.

Definition empty : t V := [].

Fixpoint get (m : t V) (k : string) : option V :=
  match m with
  | [] => None
  | (k', v) :: r => if String.eqb k' k then Some v else get r k
  end.

Definition has (m : t V) (k : string) : bool :=
  match get m k with Some _ => true | None => false end.

Fixpoint set (m : t V) (k : string) (v : V) : t V :=
  match m with
  | [] => [(k, v)]
  | (k', v') :: r =>
      if String.eqb k' k then (k', v) :: r else (k', v') :: set r k v
  end.

Definition keys (m : t V) : list string := map fst m.
End Ops.

End OMap.

(** [Array.prototype.includes] / [Set.prototype.has] on names. *)
Fixpoint includes (l : list string) (x : string) : bool :=
  match l with
  | [] => false
  | y :: r => if String.eqb y x then true else includes r x
  end.

(** [Array.prototype.indexOf], [None] standing for [-1]. *)
Fixpoint indexOf (l : list string) (x : string) : option nat :=
  match l with
  | [] => None
  | y :: r =>
      if String.eqb y x then Some 0
      else match indexOf r x with Some i => Some (S i) | None => None end
  end.

(** [Set.prototype.add] on a set kept as a duplicate-free list. *)
Definition set_add (s : list string) (x : string) : list string :=
  if includes s x then s else s ++ [x].

(* ================================================================== *)
(** ** Data model ([types.ts], [seeding-state.ts]) *)

(** What a rejected [run] promise carries: an [Error] object with its
    message, or any other thrown value, kept by its [String(...)] rendering. *)
Inductive Thrown : Type :=
| ThrownError (message : string)
| ThrownValue (rendered : string).

(** [error instanceof Error ? error : new Error(String(error))];
    an [Error] is kept by its message. *)
Definition Error : Type := string.

Definition as_Error (t : Thrown) : Error :=
  match t with
  | ThrownError m => m
  | ThrownValue r => r
  end.

Inductive SeederStatus : Type :=
| pending | running | completed | failed | skipped.

Definition SeederStatus_eqb (a b : SeederStatus) : bool :=
  match a, b with
  | pending, pending | running, running | completed, completed
  | failed, failed | skipped, skipped => true
  | _, _ => false
  end.

Section Plantr.

(** The context object, the outputs of units and the host application's
    own mutable state are opaque to the core. *)
Context {Ctx Output App : Type}.

(** The mutable world a run executes in: the module-level [isSeeding]
    variable of [seeding-state.ts], the clock read by [Date.now()], the
    [currentSeederName] variable of the step runner ([step.ts]) and
    whatever state the host application owns. *)
Record World : Type := mkWorld {
  isSeeding : bool;
  clock : Z;
  currentSeederName : string;
  app : App
}.

Definition isSeedingActive (w : World) : bool := isSeeding w.

Definition setSeedingActive (active : bool) (w : World) : World :=
  {| isSeeding := active; clock := clock w;
     currentSeederName := currentSeederName w; app := app w |}.

Definition Date_now (w : World) : Z := clock w.

(** The settled state of the promise returned by [run]. *)
Inductive Settled : Type :=
| Fulfilled (output : Output)
| Rejected (reason : Thrown).

(** [Seeder<TContext, TName, TOutput>]: [run] receives the context and the
    dependency outputs ([deps[depName] = outputs[depName]], possibly
    [undefined]) and may read and change the world. *)
Record Seeder : Type := mkSeeder {
  name : string;
  description : option string;
  dependsOn : list string;
  run : Ctx -> OMap.t (option Output) -> World -> Settled * World
}.

Record SeederResult : Type := mkResult {
  r_name : string;
  status : SeederStatus;
  durationMs : option Z;
  output : option Output;
  error : option Error
}.

(** Every option may be left out. *)
Record RunSeedersOptions : Type := mkOptions {
  printResults : option bool;
  verbose : option bool;
  continueOnFailure : option bool
}.

(* ================================================================ *)
(** ** The dependency resolver ([dependency-resolver.ts]) *)

Inductive ResolveError : Type :=
| MissingDependencyError (seeder missingDep : string)
| CircularDependencyError (cycle : list string).

Inductive Resolution : Type :=
| Returned (order : list string)
| Raised (e : ResolveError).

(** Lines 34-37: the name-keyed lookup map. *)
Definition build_seederMap (seeders : list Seeder) : OMap.t Seeder :=
  fold_left (fun m s => OMap.set m (name s) s) seeders OMap.empty.

(** Lines 40-46: the first dependency name the map does not have. *)
Fixpoint first_absent (seederMap : OMap.t Seeder) (deps : list string)
  : option string :=
  match deps with
  | [] => None
  | dep :: r =>
      if OMap.has seederMap dep then first_absent seederMap r else Some dep
  end.

Fixpoint validate (seederMap : OMap.t Seeder) (seeders : list Seeder)
  : option (string * string) :=
  match seeders with
  | [] => None
  | s :: r =>
      match first_absent seederMap (dependsOn s) with
      | Some dep => Some (name s, dep)
      | None => validate seederMap r
      end
  end.

(** Lines 53-56. *)
Definition init_inDegree (seeders : list Seeder) : OMap.t Z :=
  fold_left (fun m s => OMap.set m (name s) 0%Z) seeders OMap.empty.

Definition init_dependents (seeders : list Seeder) : OMap.t (list string) :=
  fold_left (fun m s => OMap.set m (name s) []) seeders OMap.empty.

(** Lines 62-65: [dependents.get(dep)?.push(seeder.name)]. *)
Definition register_dependent (who : string)
  (dependents : OMap.t (list string)) (dep : string) : OMap.t (list string) :=
  match OMap.get dependents dep with
  | Some deps => OMap.set dependents dep (deps ++ [who])
  | None => dependents
  end.

(** Lines 59-67, one seeder. *)
Definition add_to_graph (g : OMap.t Z * OMap.t (list string)) (s : Seeder)
  : OMap.t Z * OMap.t (list string) :=
  (OMap.set (fst g) (name s) (Z.of_nat (length (dependsOn s))),
   fold_left (register_dependent (name s)) (dependsOn s) (snd g)).

Definition build_graph (seeders : list Seeder)
  : OMap.t Z * OMap.t (list string) :=
  fold_left add_to_graph seeders (init_inDegree seeders, init_dependents seeders).

(** Lines 70-75: names of in-degree zero, in the map's iteration order. *)
Definition initial_queue (inDegree : OMap.t Z) : list string :=
  map fst (filter (fun kv => Z.eqb (snd kv) 0) inDegree).

(** Lines 85-91, one dependent of the current name. *)
Definition relax (st : OMap.t Z * list string) (dependent : string)
  : OMap.t Z * list string :=
  let newDegree :=
    (match OMap.get (fst st) dependent with Some d => d | None => 0 end - 1)%Z in
  (OMap.set (fst st) dependent newDegree,
   if Z.eqb newDegree 0 then snd st ++ [dependent] else snd st).

(** Lines 79-92: the [while (queue.length > 0)] loop; [None] when the
    iteration budget is used up before the queue is empty. *)
Fixpoint process_queue (fuel : nat) (dependents : OMap.t (list string))
  (inDegree : OMap.t Z) (queue result : list string) : option (list string) :=
  match queue with
  | [] => Some result
  | current :: rest =>
      match fuel with
      | O => None
      | S fuel' =>
          let deps :=
            match OMap.get dependents current with Some d => d | None => [] end in
          let st := fold_left relax deps (inDegree, rest) in
          process_queue fuel' dependents (fst st) (snd st) (result ++ [current])
      end
  end.

(** The closure state of [findCycle]. *)
Record DfsState : Type := mkDfs {
  visited : list string;
  path : list string;
  cycleStart : Z
}.

(** Lines 130-134: [for (const dep of seeder.dependsOn) if (dfs(dep)) return true]. *)
Fixpoint dfs_each (rec : string -> DfsState -> option (bool * DfsState))
  (deps : list string) (st : DfsState) : option (bool * DfsState) :=
  match deps with
  | [] => Some (false, st)
  | dep :: r =>
      match rec dep st with
      | Some (true, st') => Some (true, st')
      | Some (false, st') => dfs_each rec r st'
      | None => None
      end
  end.

Definition pop_path (st : DfsState) : DfsState :=
  {| visited := visited st; path := removelast (path st);
     cycleStart := cycleStart st |}.

(** Lines 114-139; [fuel] bounds the recursion depth. *)
Fixpoint dfs (fuel : nat) (seederMap : OMap.t Seeder) (nm : string)
  (st : DfsState) : option (bool * DfsState) :=
  match fuel with
  | O => None
  | S fuel' =>
      match indexOf (path st) nm with
      | Some existingIndex =>
          Some (true, {| visited := visited st; path := path st;
                         cycleStart := Z.of_nat existingIndex |})
      | None =>
          if includes (visited st) nm then Some (false, st)
          else
            let st1 := {| visited := set_add (visited st) nm;
                          path := path st ++ [nm];
                          cycleStart := cycleStart st |} in
            match OMap.get seederMap nm with
            | Some seeder =>
                match dfs_each (dfs fuel' seederMap) (dependsOn seeder) st1 with
                | Some (true, st2) => Some (true, st2)
                | Some (false, st2) => Some (false, pop_path st2)
                | None => None
                end
            | None => Some (false, pop_path st1)
            end
      end
  end.

(** Lines 141-148: the loop over the unresolved seeders; [visited] is
    shared by all iterations, [path] and [cycleStart] are reset. *)
Fixpoint find_from (fuel : nat) (seederMap : OMap.t Seeder)
  (todo : list Seeder) (seen : list string) : option (option (list string)) :=
  match todo with
  | [] => Some None
  | s :: r =>
      match dfs fuel seederMap (name s)
              {| visited := seen; path := []; cycleStart := (-1)%Z |} with
      | Some (true, st) =>
          Some (Some (if (0 <=? cycleStart st)%Z
                      then skipn (Z.to_nat (cycleStart st)) (path st)
                      else path st))
      | Some (false, st) => find_from fuel seederMap r (visited st)
      | None => None
      end
  end.

Definition findCycle (remaining : list Seeder) (seederMap : OMap.t Seeder)
  : option (list string) :=
  match find_from (S (length seederMap)) seederMap remaining [] with
  | Some (Some cycle) => Some cycle
  | Some None => Some (map name remaining)
  | None => None
  end.

(** Lines 49-92: the result array of the ordering phase. *)
Definition kahn_order (seeders : list Seeder) : option (list string) :=
  let g := build_graph seeders in
  process_queue (S (length seeders)) (snd g) (fst g) (initial_queue (fst g)) [].

(** [resolveDependencyOrder]; [None] only if one of the two loops above
    runs out of its budget (see [resolveDependencyOrder_terminates]). *)
Definition resolveDependencyOrder (seeders : list Seeder) : option Resolution :=
  let seederMap := build_seederMap seeders in
  match validate seederMap seeders with
  | Some (s, dep) => Some (Raised (MissingDependencyError s dep))
  | None =>
      match kahn_order seeders with
      | None => None
      | Some result =>
          if Nat.eqb (length result) (length seeders) then Some (Returned result)
          else
            let remaining :=
              filter (fun s => negb (includes result (name s))) seeders in
            match findCycle remaining seederMap with
            | Some cycle => Some (Raised (CircularDependencyError cycle))
            | None => None
            end
      end
  end.

(* ================================================================ *)
(** ** The execution engine ([run-seeders.ts]) *)

(** What the engine itself does to the outside, in the order it does it:
    calls of the rendering functions of [formatting.ts], lines written
    with [console.error], and each awaited call of a unit's [run]: the
    position of the unit in the order, its name, the value
    [isSeedingActive()] has when [run] is entered, and whether the promise
    was fulfilled (otherwise it was rejected). *)
Inductive Event : Type :=
| EvStartBanner
| EvConsoleError (line : string)
| EvSeederHeader (nm : string) (index total : nat) (descr : option string)
| EvSeederSkipped (failedDeps : list string)
| EvRun (index : nat) (nm : string) (active fulfilled : bool)
| EvSeederComplete (duration : Z) (ok : bool)
| EvResults (ledger : list SeederResult).

Record InternalSeederConfig : Type := mkConfig {
  context : World -> Ctx * World;
  setSeederName : option (string -> World -> World);
  onBeforeAll : option (World -> World);
  onAfterAll : option (World -> World)
}.

Definition call_hook (h : option (World -> World)) (w : World) : World :=
  match h with Some f => f w | None => w end.

Definition quote : string := String (ascii_of_nat 34) EmptyString.

(** [cycle.join(' -> ')]. *)
Definition join_arrow (cycle : list string) : string :=
  String.concat " -> " cycle.

(** The [message] the two error classes build (lines 8 and 18). *)
Definition error_message (e : ResolveError) : string :=
  match e with
  | MissingDependencyError s dep =>
      ("Seeder " ++ quote ++ s ++ quote ++ " depends on " ++ quote ++ dep
         ++ quote ++ " which does not exist")%string
  | CircularDependencyError cycle =>
      ("Circular dependency detected in seeders: " ++ join_arrow cycle
         ++ " -> " ++ match cycle with c :: _ => c | [] => "undefined" end)%string
  end.

Record LoopState : Type := mkLoop {
  st_results : list SeederResult;
  st_outputs : OMap.t Output;
  st_failedSeeders : list string;
  st_world : World;
  st_trace : list Event
}.

(** Assignment to [results[i]]'s fields: the array cell is replaced. *)
Fixpoint store (i : nat) (r : SeederResult) (l : list SeederResult)
  : list SeederResult :=
  match l, i with
  | [], _ => []
  | _ :: t, O => r :: t
  | x :: t, S i' => x :: store i' r t
  end.

Definition with_status (r : SeederResult) (s : SeederStatus) : SeederResult :=
  {| r_name := r_name r; status := s; durationMs := durationMs r;
     output := output r; error := error r |}.

(** Lines 128-131: [deps[depName] = outputs[depName]]; a dependency
    without a stored output reads as [undefined]. *)
Definition build_deps (outputs : OMap.t Output) (dependsOn : list string)
  : OMap.t (option Output) :=
  fold_left (fun deps depName => OMap.set deps depName (OMap.get outputs depName))
    dependsOn OMap.empty.

Inductive Flow : Type := Next | Break.

(** Lines 91-165: the body of the [for] loop at index [i].  The status
    ['running'] is held only while [run] is awaited and is overwritten in
    both branches before anything reads the ledger. *)
Definition run_one (config : InternalSeederConfig) (verbose continueOnFailure : bool)
  (seederMap : OMap.t Seeder) (ctx : Ctx) (total i : nat) (nm : string)
  (st : LoopState) : Flow * LoopState :=
  match nth_error (st_results st) i with
  | None => (Next, st)
  | Some result =>
  if String.eqb nm EmptyString then (Next, st)       (* [!name] *)
  else
  match OMap.get seederMap nm with
  | None => (Next, st)
  | Some seeder =>
  if continueOnFailure
     && existsb (includes (st_failedSeeders st)) (dependsOn seeder)
  then
    let failedSeeders := set_add (st_failedSeeders st) nm in
    (Next,
     {| st_results := store i (with_status result skipped) (st_results st);
        st_outputs := st_outputs st;
        st_failedSeeders := failedSeeders;
        st_world := st_world st;
        st_trace :=
          st_trace st ++
          (if verbose
           then [EvSeederHeader nm i total (description seeder);
                 EvSeederSkipped (filter (includes failedSeeders) (dependsOn seeder))]
           else []) |})
  else
    let tr1 :=
      st_trace st ++
      (if verbose then [EvSeederHeader nm i total (description seeder)] else []) in
    let w1 :=
      match setSeederName config with
      | Some f => f nm (st_world st)
      | None => st_world st
      end in
    let deps := build_deps (st_outputs st) (dependsOn seeder) in
    let startTime := Date_now w1 in
    let active := isSeedingActive w1 in
    match run seeder ctx deps w1 with
    | (Fulfilled out, w2) =>
        let d := (Date_now w2 - startTime)%Z in
        (Next,
         {| st_results :=
              store i {| r_name := r_name result; status := completed;
                         durationMs := Some d; output := Some out;
                         error := error result |} (st_results st);
            st_outputs := OMap.set (st_outputs st) nm out;
            st_failedSeeders := st_failedSeeders st;
            st_world := w2;
            st_trace := tr1 ++ [EvRun i nm active true]
                          ++ (if verbose then [EvSeederComplete d true] else []) |})
    | (Rejected reason, w2) =>
        let d := (Date_now w2 - startTime)%Z in
        (if continueOnFailure then Next else Break,
         {| st_results :=
              store i {| r_name := r_name result; status := failed;
                         durationMs := Some d; output := output result;
                         error := Some (as_Error reason) |} (st_results st);
            st_outputs := st_outputs st;
            st_failedSeeders := set_add (st_failedSeeders st) nm;
            st_world := w2;
            st_trace := tr1 ++ [EvRun i nm active false]
                          ++ (if verbose then [EvSeederComplete d false] else []) |})
    end
  end
  end.

(** Line 90: [for (let i = 0; i < orderedNames.length; i++)], entered at
    index [i] with [names] the part of [orderedNames] from [i] on. *)
Fixpoint run_loop (config : InternalSeederConfig) (verbose continueOnFailure : bool)
  (seederMap : OMap.t Seeder) (ctx : Ctx) (total i : nat) (names : list string)
  (st : LoopState) : LoopState :=
  match names with
  | [] => st
  | nm :: rest =>
      match run_one config verbose continueOnFailure seederMap ctx total i nm st with
      | (Next, st') =>
          run_loop config verbose continueOnFailure seederMap ctx total (S i) rest st'
      | (Break, st') => st'
      end
  end.

Record RunResult : Type := mkRun {
  results : list SeederResult;
  success : bool
}.

Definition option_default (d : bool) (o : option bool) : bool :=
  match o with Some b => b | None => d end.

Definition pending_result (nm : string) : SeederResult :=
  {| r_name := nm; status := pending; durationMs := None;
     output := None; error := None |}.

(** [runSeedersCore]: the value the promise resolves to, the world it
    leaves and what the engine did; [None] only if resolution runs out of
    its budget. *)
Definition runSeedersCore (seeders : list Seeder) (config : InternalSeederConfig)
  (options : RunSeedersOptions) (w : World)
  : option (RunResult * World * list Event) :=
  let printResults := option_default true (printResults options) in
  let verbose := option_default true (verbose options) in
  let continueOnFailure := option_default false (continueOnFailure options) in
  let w0 := call_hook (onBeforeAll config) w in
  let tr0 := if verbose then [EvStartBanner] else [] in
  match resolveDependencyOrder seeders with
  | None => None
  | Some (Raised e) =>
      Some ({| results := []; success := false |},
            call_hook (onAfterAll config) w0,
            tr0 ++ [EvConsoleError "Failed to resolve seeder dependencies:";
                    EvConsoleError ("   " ++ error_message e)%string])
  | Some (Returned orderedNames) =>
      let seederMap := build_seederMap seeders in
      let results0 := map pending_result orderedNames in
      let (ctx, w1) := context config w0 in
      let st :=
        run_loop config verbose continueOnFailure seederMap ctx
          (length orderedNames) 0 orderedNames
          {| st_results := results0; st_outputs := OMap.empty;
             st_failedSeeders := []; st_world := w1; st_trace := tr0 |} in
      let tr := st_trace st ++
                (if printResults then [EvResults (st_results st)] else []) in
      let nfailed :=
        length (filter (fun r => SeederStatus_eqb (status r) failed) (st_results st)) in
      Some ({| results := st_results st; success := Nat.eqb nfailed 0 |},
            call_hook (onAfterAll config) (st_world st),
            tr)
  end.

(* ================================================================ *)
(** ** [runSeeders] of [createSeederInstance] ([create-seeder-instance.ts]) *)

(** The base context (faker, step, expect) is fixed and opaque, so the
    user's context factory is a function of the world alone. *)
Record SeederInstanceConfig : Type := mkInstance {
  i_context : World -> Ctx * World;
  i_onBeforeAll : option (World -> World);
  i_onAfterAll : option (World -> World)
}.

(** [createStepRunner(...).setSeederName]. *)
Definition step_setSeederName (nm : string) (w : World) : World :=
  {| isSeeding := isSeeding w; clock := clock w;
     currentSeederName := nm; app := app w |}.

(** Lines 203-236. *)
Definition runSeeders (config : SeederInstanceConfig) (seeders : list Seeder)
  (options : RunSeedersOptions) (w : World)
  : option (RunResult * World * list Event) :=
  let w0 := step_setSeederName EmptyString w in       (* createStepRunner *)
  let (ctx, w1) := i_context config w0 in
  let internalConfig :=
    {| context := fun w => (ctx, w);
       setSeederName := Some step_setSeederName;
       onBeforeAll :=
         Some (fun w => call_hook (i_onBeforeAll config) (setSeedingActive true w));
       onAfterAll :=
         Some (fun w => call_hook (i_onAfterAll config) (setSeedingActive false w)) |} in
  runSeedersCore seeders internalConfig options w1.

(* ================================================================ *)
(** ** Notions the properties are stated with *)

(** [u] declares [d]: some definition named [u] lists [d]. *)
Definition depends_on (seeders : list Seeder) (u d : string) : Prop :=
  exists s, In s seeders /\ name s = u /\ In d (dependsOn s).

Definition has_cycle (seeders : list Seeder) : Prop :=
  exists n, clos_trans string (depends_on seeders) n n.

Definition acyclic (seeders : list Seeder) : Prop :=
  forall n, ~ clos_trans string (depends_on seeders) n n.

Definition unique_names (seeders : list Seeder) : Prop :=
  NoDup (map name seeders).

Definition deps_present (seeders : list Seeder) : Prop :=
  forall s d, In s seeders -> In d (dependsOn s) -> In d (map name seeders).

(** [index(d) < index(u)] in [order]. *)
Definition strictly_before (order : list string) (d u : string) : Prop :=
  exists j i, indexOf order d = Some j /\ indexOf order u = Some i /\ j < i.

(** A list of names that closes into a cycle of declared dependencies:
    each member declares the next one and the last declares the first. *)
Fixpoint chain (seeders : list Seeder) (l : list string) : Prop :=
  match l with
  | [] => True
  | a :: r =>
      match r with
      | [] => True
      | b :: _ => depends_on seeders a b /\ chain seeders r
      end
  end.

Definition is_cycle (seeders : list Seeder) (l : list string) : Prop :=
  match l with
  | [] => False
  | first :: _ =>
      chain seeders l /\ depends_on seeders (last l first) first /\ NoDup l
  end.

(** What [seederMap.get(k)] holds: the last definition named [k]. *)
Definition seeder_named (seeders : list Seeder) (k : string) : option Seeder :=
  find (fun s => String.eqb (name s) k) (rev seeders).

Definition deps_of (seeders : list Seeder) (k : string) : list string :=
  match seeder_named seeders k with
  | Some s => dependsOn s
  | None => []
  end.

(* ---------------------------------------------------------------- *)
(** *** Kahn's algorithm as the specification words it

    In-degree of a unit is the length of its own dependency list; a unit
    is a dependent of [d] once for every edge to [d]; the ready-queue is
    seeded from the registry in its order; the head is removed, appended
    to the result, and every dependent whose count reaches zero is
    appended to the queue. *)

Definition spec_in_degree (seeders : list Seeder) (u : string) : Z :=
  match find (fun s => String.eqb (name s) u) seeders with
  | Some s => Z.of_nat (length (dependsOn s))
  | None => 0%Z
  end.

Definition spec_dependents (seeders : list Seeder) (d : string) : list string :=
  flat_map
    (fun s => flat_map (fun d' => if String.eqb d' d then [name s] else [])
                (dependsOn s))
    seeders.

Definition spec_ready (seeders : list Seeder) : list string :=
  map name (filter (fun s => Nat.eqb (length (dependsOn s)) 0) seeders).

Definition spec_decrement (st : (string -> Z) * list string) (u : string)
  : (string -> Z) * list string :=
  let n := (fst st u - 1)%Z in
  (fun x => if String.eqb x u then n else fst st x,
   if Z.eqb n 0 then snd st ++ [u] else snd st).

Fixpoint spec_loop (fuel : nat) (seeders : list Seeder) (deg : string -> Z)
  (queue result : list string) : option (list string) :=
  match queue with
  | [] => Some result
  | head :: rest =>
      match fuel with
      | O => None
      | S fuel' =>
          let st := fold_left spec_decrement (spec_dependents seeders head)
                      (deg, rest) in
          spec_loop fuel' seeders (fst st) (snd st) (result ++ [head])
      end
  end.

Definition spec_kahn (seeders : list Seeder) : option (list string) :=
  spec_loop (S (length seeders)) seeders (spec_in_degree seeders)
    (spec_ready seeders) [].

End Plantr.

Arguments World : clear implicits.
Arguments Seeder : clear implicits.
Arguments SeederResult : clear implicits.
Arguments Settled : clear implicits.
Arguments Event : clear implicits.
Arguments LoopState : clear implicits.
Arguments RunResult : clear implicits.
Arguments InternalSeederConfig : clear implicits.
Arguments SeederInstanceConfig : clear implicits.

(* ================================================================== *)
(** ** Notions the proofs about the resolver are stated with *)

Section ResolverNotions.
Context {Ctx Output App : Type}.

Definition set_inDegree (m : OMap.t Z) (s : Seeder Ctx Output App) : OMap.t Z :=
  OMap.set m (name s) (Z.of_nat (length (dependsOn s))).

Definition set_dependents (m : OMap.t (list string))
  (s : Seeder Ctx Output App) : OMap.t (list string) :=
  fold_left (register_dependent (name s)) (dependsOn s) m.

(** The in-degree map read with the default of line 86. *)
Definition degree_in (m : OMap.t Z) (u : string) : Z :=
  match OMap.get m u with Some z => z | None => 0%Z end.

Definition same_degrees (m : OMap.t Z) (f : string -> Z) : Prop :=
  forall u, degree_in m u = f u.

Definition count (c : string) (l : list string) : Z :=
  Z.of_nat (count_occ string_dec l c).

(** The definition named [x] within a part [l] of the registry. *)
Definition local_deps (l : list (Seeder Ctx Output App)) (x : string) : list string :=
  match find (fun s => String.eqb (name s) x) l with
  | Some s => dependsOn s
  | None => []
  end.

(** A unit is appended to the queue by the pass over the dependents of
    [c] when its count is positive and [c] accounts for all of it. *)
Definition becomes_ready (c : string) (f : string -> Z)
  (s : Seeder Ctx Output App) : bool :=
  (0 <? f (name s))%Z && (f (name s) <=? count c (dependsOn s))%Z.

(** The dependencies of [u] that are not yet in the result. *)
Definition waiting (seeders : list (Seeder Ctx Output App))
  (result : list string) (u : string) : list string :=
  filter (fun d => negb (includes result d)) (deps_of seeders u).

Definition pending_count (seeders : list (Seeder Ctx Output App))
  (result : list string) (u : string) : Z :=
  Z.of_nat (length (waiting seeders result u)).

(** The loop invariant, at each test of [queue.length > 0]. *)
Record kahn_inv (seeders : list (Seeder Ctx Output App)) (f : string -> Z) (queue result : list string) : Prop := {
  inv_count : forall u, In u (map name seeders) -> f u = pending_count seeders result u;
  inv_nodup : NoDup (result ++ queue);
  inv_ready : forall u, In u (result ++ queue) <->
                      In u (map name seeders) /\ f u = 0%Z;
  inv_order : forall u d, In u result -> In d (deps_of seeders u) ->
                          strictly_before result d u
}.

(** Names already queued or emitted are never queued again: their count
    is at most zero and only decreases. *)
Record queue_inv (seeders : list (Seeder Ctx Output App)) (m : OMap.t Z) (queue result : list string) : Prop := {
  qi_nodup : NoDup (result ++ queue);
  qi_spent : forall u, In u (result ++ queue) -> (degree_in m u <= 0)%Z;
  qi_names : forall u, In u (result ++ queue) -> In u (map name seeders)
}.

(** Map keys the search has not entered yet. *)
Definition unvisited (seeders : list (Seeder Ctx Output App))
  (seen : list string) : nat :=
  length (filter (fun k => negb (includes seen k)) (OMap.keys (build_seederMap seeders))).

(** The new name continues the current path. *)
Definition link (seeders : list (Seeder Ctx Output App)) (p : list string) (nm : string) : Prop :=
  p = [] \/ depends_on seeders (last p nm) nm.

(** What the search keeps true between calls: the names of [B] it has
    seen are on its path, and the path is a duplicate-free chain. *)
Record dfs_inv (seeders : list (Seeder Ctx Output App)) (B : string -> Prop)
  (st : DfsState) : Prop := {
  di_onpath : forall x, In x (visited st) -> B x -> In x (path st);
  di_seen : forall x, In x (path st) -> In x (visited st);
  di_chain : chain seeders (path st);
  di_nodup : NoDup (path st)
}.

(** The search has met a name that is on its path. *)
Definition found (seeders : list (Seeder Ctx Output App)) (st : DfsState) : Prop :=
  exists i x,
    cycleStart st = Z.of_nat i /\ nth_error (path st) i = Some x /\
    depends_on seeders (last (path st) x) x /\
    chain seeders (path st) /\ NoDup (path st).

(** What a call of [dfs] on [nm] leaves. *)
Definition dfs_post (seeders : list (Seeder Ctx Output App)) (B : string -> Prop)
  (nm : string) (st : DfsState) (r : bool * DfsState) : Prop :=
  incl (visited st) (visited (snd r)) /\
  if fst r then found seeders (snd r)
  else path (snd r) = path st /\ dfs_inv seeders B (snd r) /\ ~ B nm.

(** [rec] behaves as [dfs] should on every state within the budget. *)
Definition rec_ok (seeders : list (Seeder Ctx Output App)) (B : string -> Prop)
  (fuel : nat)
  (rec : string -> DfsState -> option (bool * DfsState)) : Prop :=
  forall nm st,
    unvisited seeders (visited st) < fuel -> dfs_inv seeders B st ->
    link seeders (path st) nm ->
    exists r, rec nm st = Some r /\ dfs_post seeders B nm st r.

Fixpoint nodupb (l : list string) : bool :=
  match l with
  | [] => true
  | x :: r => negb (includes r x) && nodupb r
  end.

Definition deps_presentb (seeders : list (Seeder Ctx Output App)) : bool :=
  forallb (fun s => forallb (includes (map name seeders)) (dependsOn s)) seeders.

(** Every declared dependency stands strictly before its dependent in [order]. *)
Definition respects (order : list string)
  (seeders : list (Seeder Ctx Output App)) : bool :=
  forallb
    (fun s =>
       forallb
         (fun d =>
            match indexOf order d, indexOf order (name s) with
            | Some j, Some i => Nat.ltb j i
            | _, _ => false
            end)
         (dependsOn s))
    seeders.

End ResolverNotions.

(* ================================================================== *)
(** ** Notions the proofs about the engine are stated with *)

Section EngineNotions.
Context {Ctx Output App : Type}.

(** The calls of [run] recorded in a trace: position, name, the value of
    the run-active flag at entry, and whether the promise was fulfilled. *)
Definition runs_of (tr : list (Event Output)) : list (nat * string * bool * bool) :=
  flat_map
    (fun ev => match ev with
               | EvRun i nm active ok => [(i, nm, active, ok)]
               | _ => []
               end)
    tr.

(** The world [run] is entered in. *)
Definition entered (config : InternalSeederConfig Ctx App) (nm : string) (st : LoopState Output App) : World App :=
  match setSeederName config with
  | Some f => f nm (st_world st)
  | None => st_world st
  end.

Definition skipped_entry (nm : string) : SeederResult Output :=
  {| r_name := nm; status := skipped; durationMs := None;
     output := None; error := None |}.

Definition completed_entry (nm : string) (d : Z) (out : Output) : SeederResult Output :=
  {| r_name := nm; status := completed; durationMs := Some d;
     output := Some out; error := None |}.

Definition failed_entry (nm : string) (d : Z) (reason : Thrown) : SeederResult Output :=
  {| r_name := nm; status := failed; durationMs := Some d;
     output := None; error := Some (as_Error reason) |}.

(** The four ways an iteration can go when the entry at its index is
    still the initial one: the unit is passed over, skipped, or run to
    fulfilment or rejection. *)
Inductive step_shape (config : InternalSeederConfig Ctx App)
  (continueOnFailure : bool) (seederMap : OMap.t (Seeder Ctx Output App)) (ctx : Ctx)
  (i : nat) (nm : string) (st : LoopState Output App)
  (done : list (SeederResult Output)) (rest : list string)
  : Flow * LoopState Output App -> Prop :=
| shape_passed_over :
    nm = EmptyString \/ OMap.get seederMap nm = None ->
    step_shape config continueOnFailure seederMap ctx i nm st done rest (Next, st)
| shape_skipped seeder evs :
    nm <> EmptyString -> OMap.get seederMap nm = Some seeder ->
    continueOnFailure = true ->
    existsb (includes (st_failedSeeders st)) (dependsOn seeder) = true ->
    runs_of evs = [] ->
    step_shape config continueOnFailure seederMap ctx i nm st done rest
      (Next,
       {| st_results := done ++ skipped_entry nm :: map pending_result rest;
          st_outputs := st_outputs st;
          st_failedSeeders := set_add (st_failedSeeders st) nm;
          st_world := st_world st;
          st_trace := st_trace st ++ evs |})
| shape_completed seeder evs out w2 :
    nm <> EmptyString -> OMap.get seederMap nm = Some seeder ->
    continueOnFailure
      && existsb (includes (st_failedSeeders st)) (dependsOn seeder) = false ->
    run seeder ctx (build_deps (st_outputs st) (dependsOn seeder)) (entered config nm st)
      = (Fulfilled out, w2) ->
    runs_of evs = [(i, nm, isSeeding (entered config nm st), true)] ->
    step_shape config continueOnFailure seederMap ctx i nm st done rest
      (Next,
       {| st_results :=
            done ++ completed_entry nm (Date_now w2 - Date_now (entered config nm st)) out
                 :: map pending_result rest;
          st_outputs := OMap.set (st_outputs st) nm out;
          st_failedSeeders := st_failedSeeders st;
          st_world := w2;
          st_trace := st_trace st ++ evs |})
| shape_failed seeder evs reason w2 :
    nm <> EmptyString -> OMap.get seederMap nm = Some seeder ->
    continueOnFailure
      && existsb (includes (st_failedSeeders st)) (dependsOn seeder) = false ->
    run seeder ctx (build_deps (st_outputs st) (dependsOn seeder)) (entered config nm st)
      = (Rejected reason, w2) ->
    runs_of evs = [(i, nm, isSeeding (entered config nm st), false)] ->
    step_shape config continueOnFailure seederMap ctx i nm st done rest
      (if continueOnFailure then Next else Break,
       {| st_results :=
            done ++ failed_entry nm (Date_now w2 - Date_now (entered config nm st)) reason
                 :: map pending_result rest;
          st_outputs := st_outputs st;
          st_failedSeeders := set_add (st_failedSeeders st) nm;
          st_world := w2;
          st_trace := st_trace st ++ evs |}).

(** The state the loop is entered in. *)
Definition loop_start (config : InternalSeederConfig Ctx App)
  (options : RunSeedersOptions) (w : World App) (order : list string)
  : LoopState Output App :=
  {| st_results := map pending_result order;
     st_outputs := OMap.empty;
     st_failedSeeders := [];
     st_world := snd (context config (call_hook (onBeforeAll config) w));
     st_trace := if option_default true (verbose options)
                 then [EvStartBanner] else [] |}.

(** The state the loop is left in. *)
Definition loop_end (seeders : list (Seeder Ctx Output App))
  (config : InternalSeederConfig Ctx App) (options : RunSeedersOptions)
  (w : World App) (order : list string)
  : LoopState Output App :=
  run_loop config (option_default true (verbose options))
    (option_default false (continueOnFailure options))
    (build_seederMap seeders)
    (fst (context config (call_hook (onBeforeAll config) w)))
    (length order) 0 order (loop_start config options w order).

Definition count_failed (ledger : list (SeederResult Output)) : nat :=
  length (filter (fun r => SeederStatus_eqb (status r) failed) ledger).

(** What every ledger entry satisfies. *)
Definition ledger_entry_ok (r : SeederResult Output) : Prop :=
  (output r <> None <-> status r = completed) /\
  (error r <> None <-> status r = failed) /\
  (durationMs r <> None <-> status r = completed \/ status r = failed) /\
  status r <> running.



(** An entry that stops its dependents. *)
Definition stops_dependents (e : SeederResult Output) : Prop :=
  status e = failed \/ status e = skipped.

(** Some declared dependency of [s] has an entry among [entries] that
    stops its dependents. *)
Definition blocked_by (entries : list (SeederResult Output))
  (s : Seeder Ctx Output App) : Prop :=
  exists d e, In d (dependsOn s) /\ In e entries /\ r_name e = d /\ stops_dependents e.

(** What the ledger says about the unit at position [j]: skipped without
    a call of its work when it is blocked by [before], run and recorded by
    the outcome of the call otherwise. *)
Definition follows_policy (before : list (SeederResult Output))
  (runs : list (nat * string * bool * bool)) (j : nat) (e : SeederResult Output)
  (s : Seeder Ctx Output App) : Prop :=
  (blocked_by before s ->
   status e = skipped /\ forall a ok, ~ In (j, r_name e, a, ok) runs) /\
  (~ blocked_by before s ->
   exists a ok, In (j, r_name e, a, ok) runs /\
                status e = if ok then completed else failed).

(** The loop invariant of the skip policy. *)
Record policy_inv (seeders : list (Seeder Ctx Output App))
  (done : list (SeederResult Output))
  (st : LoopState Output App) : Prop := {
  pi_failed : forall x, In x (st_failedSeeders st) <->
                        exists e, In e done /\ r_name e = x /\ stops_dependents e;
  pi_runs : forall j n a ok, In (j, n, a, ok) (runs_of (st_trace st)) ->
                             j < length done;
  pi_entries : forall j e s,
      nth_error done j = Some e -> r_name e <> EmptyString ->
      OMap.get (build_seederMap seeders) (r_name e) = Some s ->
      follows_policy (firstn j done) (runs_of (st_trace st)) j e s
}.

End EngineNotions.

(* ================================================================== *)
(** ** Registries and runs used as concrete instances *)

Module Demo.

(** A definition whose work returns at once. *)
Definition unit_seeder (n : string) (deps : list string) : Seeder unit unit unit :=
  mkSeeder n None deps (fun _ _ w => (Fulfilled tt, w)).

(** The "complex dependency graph" of [dependency-resolver.test.ts]. *)
Definition complex : list (Seeder unit unit unit) :=
  [unit_seeder "seederF" [];
   unit_seeder "seederE" ["seederD"];
   unit_seeder "seederD" ["seederB"; "seederC"];
   unit_seeder "seederC" ["seederA"];
   unit_seeder "seederB" ["seederA"];
   unit_seeder "seederA" []].

(** Units that are ready together, registered against alphabetical order. *)
Definition ties : list (Seeder unit unit unit) :=
  [unit_seeder "b" []; unit_seeder "a" [];
   unit_seeder "d" ["b"]; unit_seeder "c" ["b"]].

(** A two-member cycle with a unit that merely depends on it. *)
Definition downstream_of_cycle : list (Seeder unit unit unit) :=
  [unit_seeder "C" ["A"]; unit_seeder "A" ["B"]; unit_seeder "B" ["A"]].

(** A cycle together with a dependency nobody bears. *)
Definition cycle_and_ghost : list (Seeder unit unit unit) :=
  [unit_seeder "A" ["B"]; unit_seeder "B" ["A"; "ghost"]].

(** Two different definitions under the name ["a"]. *)
Definition first_a : Seeder unit unit unit := unit_seeder "a" ["base"].
Definition second_a : Seeder unit unit unit := unit_seeder "a" [].
Definition duplicated : list (Seeder unit unit unit) :=
  [unit_seeder "base" []; first_a; second_a].

End Demo.

Module DemoRun.

(** A definition whose work throws [new Error('Failed!')]. *)
Definition throwing (n : string) (deps : list string) : Seeder unit unit unit :=
  mkSeeder n None deps (fun _ _ w => (Rejected (ThrownError "Failed!"), w)).

Definition world0 : World unit :=
  {| isSeeding := false; clock := 0%Z; currentSeederName := EmptyString; app := tt |}.

Definition bare_config : InternalSeederConfig unit unit :=
  {| context := fun w => (tt, w); setSeederName := None;
     onBeforeAll := None; onAfterAll := None |}.

Definition instance_config : SeederInstanceConfig unit unit :=
  {| i_context := fun w => (tt, w); i_onBeforeAll := None; i_onAfterAll := None |}.

Definition quiet (continue : option bool) : RunSeedersOptions :=
  {| printResults := Some false; verbose := Some false;
     continueOnFailure := continue |}.

(** "should stop on failure by default" of [integration.test.ts]. *)
Definition stop_registry : list (Seeder unit unit unit) :=
  [throwing "seederA" []; Demo.unit_seeder "seederB" []].

(** "should skip dependents of failed seeders" of [integration.test.ts]. *)
Definition skip_registry : list (Seeder unit unit unit) :=
  [throwing "seederA" []; Demo.unit_seeder "seederB" ["seederA"];
   Demo.unit_seeder "seederC" []].

(** A failing unit, a unit with the empty name that depends on it, and a
    unit that depends on the latter. *)
Definition empty_name_registry : list (Seeder unit unit unit) :=
  [throwing "A" []; Demo.unit_seeder EmptyString ["A"];
   Demo.unit_seeder "Z" [EmptyString]].

(** The same shape with a name that is not empty. *)
Definition named_registry : list (Seeder unit unit unit) :=
  [throwing "A" []; Demo.unit_seeder "B" ["A"]; Demo.unit_seeder "Z" ["B"]].

Definition stop_ledger : list (SeederResult unit) :=
  [failed_entry "seederA" 0 (ThrownError "Failed!"); pending_result "seederB"].

Definition stop_trace : list (Event unit) := [EvRun 0 "seederA" false false].

End DemoRun.

(* ================================================================== *)
(** ** Notions for the calls of [run] and the dependency object *)

Section CallNotions.
Context {Ctx Output App : Type}.

(** The output the ledger holds for the name [nm]: [undefined] when no
    entry bears the name or the entry has no output. *)
Definition recorded_output (ledger : list (SeederResult Output)) (nm : string)
  : option Output :=
  match find (fun e => String.eqb (r_name e) nm) ledger with
  | Some e => output e
  | None => None
  end.

(** The entry [e] records a call of [run] that was entered in [w_in] and
    settled as [r]. *)
Definition records_outcome (e : SeederResult Output) (w_in : World App)
  (r : Settled Output * World App) : Prop :=
  durationMs e = Some (Date_now (snd r) - Date_now w_in)%Z /\
  match fst r with
  | Fulfilled out => status e = completed /\ output e = Some out
  | Rejected reason => status e = failed /\ error e = Some (as_Error reason)
  end.

(** [deps] is the dependency object of the unit [s] read off the ledger:
    every declared dependency has an entry and is a key, bound to the
    output recorded for it; no other key is bound; and every declared
    dependency whose name is not empty has an output on record, that is,
    its unit has completed. *)
Definition deps_object_for (ledger : list (SeederResult Output))
  (s : Seeder Ctx Output App) (deps : OMap.t (option Output)) : Prop :=
  (forall d, In d (dependsOn s) ->
             In d (map r_name ledger) /\
             OMap.get deps d = Some (recorded_output ledger d)) /\
  (forall d, ~ In d (dependsOn s) -> OMap.get deps d = None) /\
  (forall d, In d (dependsOn s) -> d <> EmptyString ->
             recorded_output ledger d <> None).

(** The entry [e] bears a name that is not empty and is the record of a
    call of the work of the registry's unit of that name, with the context
    [ctx] and the dependency object read off [ledger], in a world prepared
    by [setSeederName]. *)
Definition called_with (seeders : list (Seeder Ctx Output App))
  (config : InternalSeederConfig Ctx App) (ctx : Ctx)
  (ledger : list (SeederResult Output)) (e : SeederResult Output) : Prop :=
  exists s deps (st0 : LoopState Output App),
    In s seeders /\ name s = r_name e /\ r_name e <> EmptyString /\
    deps_object_for ledger s deps /\
    records_outcome e (entered config (r_name e) st0)
      (run s ctx deps (entered config (r_name e) st0)).

(** The loop invariant of dependency injection. *)
Record route_inv (seeders : list (Seeder Ctx Output App))
  (config : InternalSeederConfig Ctx App) (continueOnFailure : bool) (ctx : Ctx)
  (order : list string) (done : list (SeederResult Output))
  (st : LoopState Output App) : Prop := {
  ri_names : map r_name (st_results st) = order;
  ri_outputs : forall nm, OMap.get (st_outputs st) nm = recorded_output done nm;
  ri_called : forall j e,
      nth_error done j = Some e -> status e = completed \/ status e = failed ->
      called_with seeders config ctx (firstn j done) e;
  ri_ran : forall e, In e done -> r_name e <> EmptyString ->
                     output e <> None \/ In (r_name e) (st_failedSeeders st);
  ri_stop : continueOnFailure = false -> st_failedSeeders st = []
}.

(** The position recorded for a call of [run]. *)
Definition position (r : nat * string * bool * bool) : nat := fst (fst (fst r)).

(** The status a call leaves in the ledger. *)
Definition status_of_call (fulfilled : bool) : SeederStatus :=
  if fulfilled then completed else failed.

(** Calls and ledger entries correspond: the calls were made at
    increasing positions below the current one, each left its status in
    the entry at its position, and every completed or failed entry stems
    from a call. *)
Record calls_inv (done : list (SeederResult Output))
  (st : LoopState Output App) : Prop := {
  ci_sorted : StronglySorted lt (map position (runs_of (st_trace st)));
  ci_below : forall r, In r (runs_of (st_trace st)) -> position r < length done;
  ci_entry : forall i nm a ok,
      In (i, nm, a, ok) (runs_of (st_trace st)) ->
      exists e, nth_error done i = Some e /\ r_name e = nm /\
                status e = status_of_call ok;
  ci_call : forall i e ok,
      nth_error done i = Some e -> status e = status_of_call ok ->
      exists a, In (i, r_name e, a, ok) (runs_of (st_trace st))
}.

(** Two loop states that differ in the console output at most. *)
Definition same_outcome (st1 st2 : LoopState Output App) : Prop :=
  st_results st1 = st_results st2 /\ st_outputs st1 = st_outputs st2 /\
  st_failedSeeders st1 = st_failedSeeders st2 /\ st_world st1 = st_world st2 /\
  runs_of (st_trace st1) = runs_of (st_trace st2).

End CallNotions.

(* ================================================================== *)
(** ** Registries of the same shape *)

Section ShapeNotions.
Context {Ctx Output App Ctx' Output' App' : Type}.

(** The definitions agree one by one on name and dependency list. *)
Definition same_shape (l : list (Seeder Ctx Output App))
  (l' : list (Seeder Ctx' Output' App')) : Prop :=
  map (fun s => (name s, dependsOn s)) l = map (fun s => (name s, dependsOn s)) l'.

(** The maps have the same keys in the same order, bound to definitions
    with the same dependency list. *)
Definition same_entries (m : OMap.t (Seeder Ctx Output App))
  (m' : OMap.t (Seeder Ctx' Output' App')) : Prop :=
  map (fun kv => (fst kv, dependsOn (snd kv))) m
  = map (fun kv => (fst kv, dependsOn (snd kv))) m'.

End ShapeNotions.

(* ================================================================== *)
(** ** Console rendering ([formatting.ts]) *)

(** [ColorName]; the style names are [bold] and, written [dimmed] here to
    keep it apart from the colour of the same name, ['dim']. *)
Inductive ColorName : Type :=
| red | green | yellow | cyan | white | gray | dim.

Inductive StyleName : Type :=
| bold | dimmed.

(** The escape character [\x1b]. *)
Definition esc : string := String (ascii_of_nat 27) EmptyString.

(** The table [colors] (lines 6-16). *)
Definition color_code (c : ColorName) : string :=
  match c with
  | red => (esc ++ "[31m")%string
  | green => (esc ++ "[32m")%string
  | yellow => (esc ++ "[33m")%string
  | cyan => (esc ++ "[36m")%string
  | white => (esc ++ "[37m")%string
  | gray => (esc ++ "[90m")%string
  | dim => (esc ++ "[2m")%string
  end.

Definition color_reset : string := (esc ++ "[0m")%string.

(** Lines 24-30. *)
Definition colorize (text : string) (color : ColorName)
  (style : option StyleName) : string :=
  let result := EmptyString in
  let result :=
    match style with Some bold => (result ++ esc ++ "[1m")%string | _ => result end in
  let result :=
    match style with Some dimmed => (result ++ esc ++ "[2m")%string | _ => result end in
  (result ++ color_code color ++ text ++ color_reset)%string.

(** A count written into a template string. *)
Definition show_nat (n : nat) : string := NilZero.string_of_uint (Nat.to_uint n).

Definition newline : string := String (ascii_of_nat 10) EmptyString.

Section Summary.
Context {Output : Type}.

(** [results.filter((r) => r.status === s).length]. *)
Definition count_status (s : SeederStatus) (results : list (SeederResult Output))
  : nat :=
  length (filter (fun r => SeederStatus_eqb (status r) s) results).

(** Lines 192-195: the parts of the failure line. *)
Definition summary_parts (results : list (SeederResult Output)) : list string :=
  let parts := [(show_nat (count_status completed results) ++ " completed")%string] in
  let parts :=
    if Nat.ltb 0 (count_status failed results)
    then parts ++ [(show_nat (count_status failed results) ++ " failed")%string]
    else parts in
  let parts :=
    if Nat.ltb 0 (count_status skipped results)
    then parts ++ [(show_nat (count_status skipped results) ++ " skipped")%string]
    else parts in
  if Nat.ltb 0 (count_status pending results)
  then parts ++ [(show_nat (count_status pending results) ++ " pending")%string]
  else parts.

(** [printSummary] (lines 185-202), as the line it writes with
    [console.log]. *)
Definition printSummary (results : list (SeederResult Output)) : string :=
  if Nat.ltb 0 (count_status failed results)
     || Nat.ltb 0 (count_status skipped results)
  then colorize ("Seeding failed: " ++ String.concat ", " (summary_parts results))%string
         red None
  else (colorize "✓ Seeding complete:" green None ++ " "
        ++ show_nat (count_status completed results)
        ++ " seeders executed successfully" ++ newline)%string.

End Summary.

(* ================================================================== *)
(** ** The step runner ([step.ts]) *)

(** A character the first pattern [/[^a-z0-9]+/g] leaves in place. *)
Definition is_slug_char (c : ascii) : bool :=
  let n := nat_of_ascii c in
  (Nat.leb 97 n && Nat.leb n 122) || (Nat.leb 48 n && Nat.leb n 57).

Definition hyphen : ascii := ascii_of_nat 45.
Definition colon : ascii := ascii_of_nat 58.

(** [.replace(/[^a-z0-9]+/g, '-')]: every maximal run of other
    characters becomes one hyphen; [in_run] tells that the run the
    current character continues has been replaced already. *)
Fixpoint replace_runs (s : string) (in_run : bool) : string :=
  match s with
  | EmptyString => EmptyString
  | String c r =>
      if is_slug_char c then String c (replace_runs r false)
      else if in_run then replace_runs r true
      else String hyphen (replace_runs r true)
  end.

(** [.replace(/^-|-$/g, '')]: a hyphen at the start is removed, and then
    a hyphen at the end of what is left. *)
Definition strip_leading (s : string) : string :=
  match s with
  | String c r => if Ascii.eqb c hyphen then r else s
  | EmptyString => EmptyString
  end.

Fixpoint strip_trailing (s : string) : string :=
  match s with
  | EmptyString => EmptyString
  | String c EmptyString => if Ascii.eqb c hyphen then EmptyString else s
  | String c r => String c (strip_trailing r)
  end.

(** Every character of [s] satisfies [p]. *)
Fixpoint all_chars (p : ascii -> bool) (s : string) : bool :=
  match s with
  | EmptyString => true
  | String c r => p c && all_chars p r
  end.

Definition starts_with_hyphen (s : string) : bool :=
  match s with
  | String c _ => Ascii.eqb c hyphen
  | EmptyString => false
  end.

Fixpoint ends_with_hyphen (s : string) : bool :=
  match s with
  | EmptyString => false
  | String c EmptyString => Ascii.eqb c hyphen
  | String _ r => ends_with_hyphen r
  end.

Fixpoint has_double_hyphen (s : string) : bool :=
  match s with
  | EmptyString => false
  | String c r =>
      (Ascii.eqb c hyphen && starts_with_hyphen r) || has_double_hyphen r
  end.

(** [StepOptions]. *)
Record StepOptions : Type := mkStepOptions {
  useCache : option bool
}.

Section StepRunner.

(** The values steps compute other than [undefined] ([None] standing for
    [undefined]), and the host application's state, where a cache keeps
    its entries. *)
Context {T App : Type}.

(** [String.prototype.toLowerCase] is the runtime's; nothing is assumed
    of it. *)
Variable toLowerCase : string -> string.

(** Lines 55-58. *)
Definition slugify (description : string) : string :=
  strip_trailing (strip_leading (replace_runs (toLowerCase description) false)).

(** Lines 59-61; an empty [currentSeederName] is falsy. *)
Definition cacheKey (currentSeederName description : string) : string :=
  match currentSeederName with
  | EmptyString => slugify description
  | _ => (currentSeederName ++ ":" ++ slugify description)%string
  end.

(** [SeederCache]: both functions are the user's, return promises and
    may do anything to the world. *)
Record SeederCache : Type := mkCache {
  cache_get : string -> World App -> Settled (option T) * World App;
  cache_set : string -> option T -> World App -> Settled unit * World App
}.

(** What [step] does to the outside, in the order it does it. *)
Inductive StepEvent : Type :=
| StepCacheGet (key : string)
| StepCall
| StepCacheSet (key : string) (value : option T)
| StepLog (line : string).

Definition cache_warning : string :=
  colorize "    ⚠ Cache not configured, running without cache" yellow None.

(** Lines 86-87. *)
Definition done_line (description : string) (wasCached : bool) : string :=
  ("    " ++ colorize "✓" green None ++ " " ++ description
   ++ (if wasCached then " " ++ colorize "(cached)" cyan None else EmptyString))%string.

(** Lines 90-93. *)
Definition failure_lines (description : string) (error : Thrown) : list StepEvent :=
  StepLog ("    " ++ colorize "✗" red None ++ " " ++ description)%string
  :: match error with
     | ThrownError message => [StepLog ("        " ++ colorize message dim None)%string]
     | ThrownValue _ => []
     end.

(** Lines 64-84: the body of the [try] block up to the log line, with
    [wasCached]. *)
Definition attempt (cache : option SeederCache) (useCache : bool) (key : string)
  (fn : World App -> Settled (option T) * World App) (w : World App)
  : Settled (option T) * World App * bool * list StepEvent :=
  match useCache, cache with
  | true, Some c =>
      match cache_get c key w with
      | (Rejected error, w1) => (Rejected error, w1, false, [StepCacheGet key])
      | (Fulfilled (Some cached), w1) =>
          (Fulfilled (Some cached), w1, true, [StepCacheGet key])
      | (Fulfilled None, w1) =>
          match fn w1 with
          | (Rejected error, w2) =>
              (Rejected error, w2, false, [StepCacheGet key; StepCall])
          | (Fulfilled result, w2) =>
              match cache_set c key result w2 with
              | (Rejected error, w3) =>
                  (Rejected error, w3, false,
                   [StepCacheGet key; StepCall; StepCacheSet key result])
              | (Fulfilled _, w3) =>
                  (Fulfilled result, w3, false,
                   [StepCacheGet key; StepCall; StepCacheSet key result])
              end
          end
      end
  | true, None =>
      let (r, w1) := fn w in (r, w1, false, [StepLog cache_warning; StepCall])
  | false, _ =>
      let (r, w1) := fn w in (r, w1, false, [StepCall])
  end.

(** [step] (lines 47-96): how the promise settles, the world it leaves
    and what it did. *)
Definition step (cache : option SeederCache) (description : string)
  (fn : World App -> Settled (option T) * World App)
  (options : option StepOptions) (w : World App)
  : Settled (option T) * World App * list StepEvent :=
  let useCache :=
    match options with
    | Some o => option_default false (useCache o)
    | None => false
    end in
  let key := cacheKey (currentSeederName w) description in
  match attempt cache useCache key fn w with
  | (Fulfilled result, w', wasCached, tr) =>
      (Fulfilled result, w', tr ++ [StepLog (done_line description wasCached)])
  | (Rejected error, w', _, tr) =>
      (Rejected error, w', tr ++ failure_lines description error)
  end.

(** The calls of [fn] and the cache writes in a trace. *)
Definition calls_in (tr : list StepEvent) : nat :=
  length (filter (fun ev => match ev with StepCall => true | _ => false end) tr).

Definition writes_in (tr : list StepEvent) : list (string * option T) :=
  flat_map (fun ev => match ev with StepCacheSet k v => [(k, v)] | _ => [] end) tr.

End StepRunner.

Arguments SeederCache : clear implicits.
Arguments StepEvent : clear implicits.

(* ================================================================== *)
(** ** [defineSeeder] ([define-seeder.ts]) *)

Section DefineSeeder.
Context {Ctx Output App : Type}.

(** [SeederConfig]: [dependsOn] holds seeder objects, not names, and may
    be left out. *)
Record SeederConfig : Type := mkSeederConfig {
  c_name : string;
  c_description : option string;
  c_dependsOn : option (list (Seeder Ctx Output App));
  c_run : Ctx -> OMap.t (option Output) -> World App -> Settled Output * World App
}.

(** [config.dependsOn ?? []]. *)
Definition config_deps (config : SeederConfig) : list (Seeder Ctx Output App) :=
  match c_dependsOn config with Some l => l | None => [] end.

(** Lines 30-45. *)
Definition defineSeeder (config : SeederConfig) : Seeder Ctx Output App :=
  let dependsOnNames := map name (config_deps config) in
  {| name := c_name config;
     description := c_description config;
     dependsOn := dependsOnNames;
     run := c_run config |}.

End DefineSeeder.

Arguments SeederConfig : clear implicits.

(* ================================================================== *)
(** ** [runSeedersCli] of [createSeederInstance] ([create-seeder-instance.ts]) *)

Section Cli.
Context {Ctx Output App : Type}.

(** What the command writes and what the engine does under it; a console
    line is kept by what it shows. *)
Inductive CliEvent : Type :=
| CliHelp (count : nat)                       (* lines 254-262 *)
| CliDryRunBanner (count : nat)               (* lines 268-270 *)
| CliOrderHeader                              (* line 280 *)
| CliOrderLine (number : nat) (seederName : string) (deps : list string)
                                              (* line 288 *)
| CliBlank                                    (* line 290 *)
| CliError (line : string)                    (* lines 293-294 *)
| CliRunBanner (label : string) (count : nat) (* lines 299-301 *)
| CliEngine (ev : Event Output).              (* line 302 *)

(** Lines 281-289: one line per name of the order, the empty name
    passed over. *)
Fixpoint dry_run_lines (seederMap : OMap.t (Seeder Ctx Output App))
  (i : nat) (order : list string) : list CliEvent :=
  match order with
  | [] => []
  | seederName :: rest =>
      if String.eqb seederName EmptyString
      then dry_run_lines seederMap (S i) rest
      else
        let deps :=
          match OMap.get seederMap seederName with
          | Some seeder => dependsOn seeder
          | None => []
          end in
        CliOrderLine (i + 1) seederName deps :: dry_run_lines seederMap (S i) rest
  end.

(** The options of line 302. *)
Definition cli_options : RunSeedersOptions :=
  {| printResults := Some true; verbose := Some true; continueOnFailure := None |}.

(** [runSeedersCli] (lines 245-307) with [args] for
    [process.argv.slice(2)]: the code the process exits with, the world
    it leaves and what was written; [None] only if resolution runs out of
    its budget. *)
Definition runSeedersCli (config : SeederInstanceConfig Ctx App)
  (args : list string) (seeders : list (Seeder Ctx Output App))
  (label : option string) (w : World App)
  : option (Z * World App * list CliEvent) :=
  let name := match label with Some n => n | None => "Seeders" end in
  if includes args "--help" || includes args "-h"
  then Some (0%Z, w, [CliHelp (length seeders)])
  else if includes args "--dry-run"
  then
    let seederMap := build_seederMap seeders in
    match resolveDependencyOrder seeders with
    | None => None
    | Some (Returned order) =>
        Some (0%Z, w,
              [CliDryRunBanner (length seeders); CliOrderHeader]
              ++ dry_run_lines seederMap 0 order ++ [CliBlank])
    | Some (Raised error) =>
        Some (1%Z, w,
              [CliDryRunBanner (length seeders);
               CliError (colorize "Failed to resolve dependencies:" red None);
               CliError ("  " ++ error_message error)%string])
    end
  else
    match runSeeders config seeders cli_options w with
    | None => None
    | Some (res, w', tr) =>
        Some (if success res then 0%Z else 1%Z, w',
              CliRunBanner name (length seeders) :: map CliEngine tr)
    end.

(** The units a dry run lists, and the calls of work under a command. *)
Definition listed (tr : list CliEvent) : list (nat * string * list string) :=
  flat_map (fun ev => match ev with
                      | CliOrderLine n nm deps => [(n, nm, deps)]
                      | _ => []
                      end) tr.

Definition engine_events (tr : list CliEvent) : list (Event Output) :=
  flat_map (fun ev => match ev with CliEngine e => [e] | _ => [] end) tr.

End Cli.

Arguments CliEvent : clear implicits.

(* ================================================================== *)
(** ** Registries with outputs, a cache and definitions used as instances *)

Module DemoRoute.

(** A unit whose work returns [v]. *)
Definition constant (n : string) (v : Z) : Seeder unit Z unit :=
  mkSeeder n None [] (fun _ _ w => (Fulfilled v, w)).

(** A unit whose work returns one more than the sum of the outputs it is
    handed. *)
Definition summing (n : string) (deps : list string) : Seeder unit Z unit :=
  mkSeeder n None deps
    (fun _ d w =>
       (Fulfilled
          (fold_left (fun acc kv => match snd kv with
                                    | Some v => (acc + v)%Z
                                    | None => acc
                                    end) d 1%Z), w)).

Definition registry : list (Seeder unit Z unit) :=
  [summing "total" ["left"; "right"]; constant "left" 20%Z; constant "right" 21%Z].

Definition ledger : list (SeederResult Z) :=
  [completed_entry "left" 0 20%Z; completed_entry "right" 0 21%Z;
   completed_entry "total" 0 42%Z].

Definition trace : list (Event Z) :=
  [EvRun 0 "left" false true; EvRun 1 "right" false true;
   EvRun 2 "total" false true].

End DemoRoute.

Module DemoSkip.

(** The ledger and the calls of the run of [DemoRun.skip_registry] with
    [continueOnFailure]. *)
Definition ledger : list (SeederResult unit) :=
  [failed_entry "seederA" 0 (ThrownError "Failed!");
   completed_entry "seederC" 0 tt; skipped_entry "seederB"].

Definition trace : list (Event unit) :=
  [EvRun 0 "seederA" false false; EvRun 1 "seederC" false true].

Definition loud : RunSeedersOptions :=
  {| printResults := None; verbose := None; continueOnFailure := Some true |}.

End DemoSkip.

Module DemoStep.

(** Lower-casing of the letters A-Z, which is what
    [String.prototype.toLowerCase] does to text without other letters. *)
Definition lower_char (c : ascii) : ascii :=
  let n := nat_of_ascii c in
  if Nat.leb 65 n && Nat.leb n 90 then ascii_of_nat (n + 32) else c.

Fixpoint ascii_lower (s : string) : string :=
  match s with
  | EmptyString => EmptyString
  | String c r => String (lower_char c) (ascii_lower r)
  end.

(** The cache of [step.test.ts]: a [Map] from keys to values, kept in the
    host application's state. *)
Definition store_world (store : OMap.t (option nat)) (nm : string)
  : World (OMap.t (option nat)) :=
  {| isSeeding := false; clock := 0%Z; currentSeederName := nm; app := store |}.

Definition map_cache : SeederCache nat (OMap.t (option nat)) :=
  {| cache_get := fun key w =>
       (Fulfilled (match OMap.get (app w) key with
                   | Some value => value
                   | None => None
                   end), w);
     cache_set := fun key value w =>
       (Fulfilled tt,
        {| isSeeding := isSeeding w; clock := clock w;
           currentSeederName := currentSeederName w;
           app := OMap.set (app w) key value |}) |}.

Definition cached : option StepOptions := Some {| useCache := Some true |}.

(** Work that computes [v], and work that throws. *)
Definition computes (v : option nat) (w : World (OMap.t (option nat)))
  : Settled (option nat) * World (OMap.t (option nat)) := (Fulfilled v, w).


End DemoStep.

Module DemoDefine.

(** An organisation seeder, and a user seeder defined from it, as in the
    example of [define-seeder.ts]. *)
Definition organization : SeederConfig unit unit unit :=
  {| c_name := "organizationSeeder"; c_description := None;
     c_dependsOn := None;
     c_run := fun _ _ w => (Fulfilled tt, w) |}.

Definition users : SeederConfig unit unit unit :=
  {| c_name := "createUsers"; c_description := Some "Seeds user data";
     c_dependsOn := Some [defineSeeder organization];
     c_run := fun _ _ w => (Fulfilled tt, w) |}.

(** The registry lists them against the order of definition. *)
Definition registry : list (Seeder unit unit unit) :=
  [defineSeeder users; defineSeeder organization].

End DemoDefine.

(* ================================================================== *)
(** ** Facts about lists of names and insertion-ordered maps *)

Section NameLists.

Lemma includes_In (l : list string) (x : string) :
  includes l x = true <-> In x l.
Proof.
  induction l as [|y r IH]; simpl.
  - split; [discriminate | tauto].
  - destruct (String.eqb_spec y x) as [->|Hne].
    + split; auto.
    + rewrite IH. split; [auto | intros [H|H]; [contradiction | exact H]].
Qed.

Lemma includes_false (l : list string) (x : string) :
  includes l x = false <-> ~ In x l.
Proof.
  rewrite <- includes_In. destruct (includes l x); split; congruence.
Qed.

Lemma includes_app (l1 l2 : list string) (x : string) :
  includes (l1 ++ l2) x = includes l1 x || includes l2 x.
Proof.
  induction l1 as [|y r IH]; simpl; auto.
  destruct (String.eqb y x); auto.
Qed.

Lemma indexOf_Some (l : list string) (x : string) (i : nat) :
  indexOf l x = Some i -> nth_error l i = Some x /\ i < length l.
Proof.
  revert i; induction l as [|y r IH]; simpl; intros i H; [discriminate|].
  destruct (String.eqb_spec y x) as [->|Hne].
  - inversion H; subst; simpl; split; [reflexivity | lia].
  - destruct (indexOf r x) as [j|]; [|discriminate].
    inversion H; subst; simpl. destruct (IH j eq_refl); split; [assumption | lia].
Qed.

Lemma indexOf_None (l : list string) (x : string) :
  indexOf l x = None <-> ~ In x l.
Proof.
  induction l as [|y r IH]; simpl.
  - tauto.
  - destruct (String.eqb_spec y x) as [->|Hne].
    + split; [discriminate | intros H; exfalso; apply H; auto].
    + destruct (indexOf r x) as [j|].
      * split; [discriminate|]. intros H; exfalso.
        assert (Hn : ~ In x r) by tauto. apply IH in Hn. discriminate.
      * split; [|reflexivity]. intros _ [H|H]; [contradiction|].
        destruct IH as [IH1 _]. exact (IH1 eq_refl H).
Qed.

Lemma indexOf_In (l : list string) (x : string) :
  In x l -> exists i, indexOf l x = Some i.
Proof.
  intros H. destruct (indexOf l x) as [i|] eqn:E; [eauto|].
  apply indexOf_None in E. contradiction.
Qed.

Lemma indexOf_app_l (l1 l2 : list string) (x : string) (i : nat) :
  indexOf l1 x = Some i -> indexOf (l1 ++ l2) x = Some i.
Proof.
  revert i; induction l1 as [|y r IH]; simpl; intros i H; [discriminate|].
  destruct (String.eqb y x); [assumption|].
  destruct (indexOf r x) as [j|]; [|discriminate].
  rewrite (IH j eq_refl). assumption.
Qed.

Lemma indexOf_app_r (l1 l2 : list string) (x : string) :
  ~ In x l1 ->
  indexOf (l1 ++ l2) x =
  match indexOf l2 x with Some i => Some (length l1 + i) | None => None end.
Proof.
  induction l1 as [|y r IH]; simpl; intros H.
  - destruct (indexOf l2 x); reflexivity.
  - destruct (String.eqb_spec y x) as [->|Hne]; [exfalso; auto|].
    rewrite IH by tauto. destruct (indexOf l2 x); reflexivity.
Qed.

Lemma set_add_In (s : list string) (x y : string) :
  In y (set_add s x) <-> y = x \/ In y s.
Proof.
  unfold set_add. destruct (includes s x) eqn:E.
  - apply includes_In in E. split; [auto | intros [->|H]; assumption].
  - rewrite in_app_iff; simpl. intuition.
Qed.

End NameLists.

Module OMapFacts.
Import OMap.

Section Facts.
Context {V : Type}.
Implicit Types (m : t V) (k : string) (v : V).

Lemma get_set_same m k v : get (set m k v) k = Some v.
Proof.
  induction m as [|[k' v'] r IH]; simpl.
  - rewrite String.eqb_refl. reflexivity.
  - destruct (String.eqb k' k) eqn:E; simpl; rewrite E; auto.
Qed.

Lemma get_set_other m k k' v : k <> k' -> get (set m k v) k' = get m k'.
Proof.
  intros Hne. induction m as [|[k0 v0] r IH]; simpl.
  - destruct (String.eqb_spec k k'); [contradiction | reflexivity].
  - destruct (String.eqb_spec k0 k) as [->|Hk]; simpl.
    + destruct (String.eqb_spec k k'); [contradiction | reflexivity].
    + destruct (String.eqb k0 k'); auto.
Qed.

Lemma get_None m k : get m k = None <-> ~ In k (keys m).
Proof.
  induction m as [|[k' v'] r IH]; simpl.
  - tauto.
  - destruct (String.eqb_spec k' k) as [->|Hne].
    + split; [discriminate | intros H; exfalso; auto].
    + rewrite IH. tauto.
Qed.

Lemma get_Some_In m k v : get m k = Some v -> In k (keys m).
Proof.
  intros H. destruct (in_dec string_dec k (keys m)) as [Hin|Hn]; auto.
  apply get_None in Hn. congruence.
Qed.

Lemma has_In m k : has m k = true <-> In k (keys m).
Proof.
  unfold has. destruct (get m k) eqn:E.
  - split; auto. intros _. eapply get_Some_In; eauto.
  - apply get_None in E. split; [discriminate | contradiction].
Qed.

Lemma keys_set_present m k v : In k (keys m) -> keys (set m k v) = keys m.
Proof.
  induction m as [|[k' v'] r IH]; simpl; [tauto|].
  destruct (String.eqb_spec k' k) as [->|Hne]; simpl; auto.
  intros [H|H]; [contradiction|]. rewrite IH; auto.
Qed.

Lemma keys_set_absent m k v : ~ In k (keys m) -> keys (set m k v) = keys m ++ [k].
Proof.
  induction m as [|[k' v'] r IH]; simpl; auto.
  destruct (String.eqb_spec k' k) as [->|Hne]; simpl.
  - intros H; exfalso; auto.
  - intros H. rewrite IH; auto.
Qed.

Lemma length_set m k v : length m <= length (set m k v).
Proof.
  induction m as [|[k' v'] r IH]; simpl; [lia|].
  destruct (String.eqb k' k); simpl; lia.
Qed.

End Facts.
End OMapFacts.

(* ================================================================== *)
(** ** The lookup map and the validation pass *)

Section Validation.
Context {Ctx Output App : Type}.
Implicit Types (seeders : list (Seeder Ctx Output App)) (s : Seeder Ctx Output App).
Import OMap OMapFacts.

(** A map filled by [set(seeder.name, val(seeder))] over the registry
    holds, under each name, the value of the last definition so named. *)
Lemma get_fold_set {V : Type} (val : Seeder Ctx Output App -> V) seeders
  (m0 : OMap.t V) (k : string) :
  get (fold_left (fun m s => set m (name s) (val s)) seeders m0) k =
  match find (fun s => String.eqb (name s) k) (rev seeders) with
  | Some s => Some (val s)
  | None => get m0 k
  end.
Proof.
  induction seeders as [|s l IH] using rev_ind; simpl; [reflexivity|].
  rewrite fold_left_app, rev_app_distr; simpl.
  destruct (String.eqb_spec (name s) k) as [->|Hne].
  - apply get_set_same.
  - rewrite get_set_other by assumption. exact IH.
Qed.

Lemma keys_fold_set {V : Type} (val : Seeder Ctx Output App -> V) seeders
  (m0 : OMap.t V) (k : string) :
  In k (keys (fold_left (fun m s => set m (name s) (val s)) seeders m0)) <->
  In k (keys m0) \/ In k (map name seeders).
Proof.
  revert m0; induction seeders as [|s l IH]; simpl; intros m0; [tauto|].
  rewrite IH.
  destruct (in_dec string_dec (name s) (keys m0)) as [Hin|Hn].
  - rewrite keys_set_present by assumption.
    split; [tauto|]. intros [H|[H|H]]; auto. subst; auto.
  - rewrite keys_set_absent, in_app_iff by assumption. simpl. tauto.
Qed.

Lemma get_build_seederMap seeders k :
  get (build_seederMap seeders) k = seeder_named seeders k.
Proof.
  unfold build_seederMap, seeder_named.
  rewrite (get_fold_set (fun s => s)). simpl.
  destruct (find _ (rev seeders)); reflexivity.
Qed.

Lemma seeder_named_Some seeders k s :
  seeder_named seeders k = Some s -> In s seeders /\ name s = k.
Proof.
  unfold seeder_named. intros H. apply find_some in H as [H1 H2].
  apply in_rev in H1. apply String.eqb_eq in H2. auto.
Qed.

Lemma seeder_named_None seeders k :
  seeder_named seeders k = None <-> ~ In k (map name seeders).
Proof.
  unfold seeder_named. split.
  - intros H Hin. apply in_map_iff in Hin as (s & Hs & Hin).
    apply in_rev in Hin. apply (find_none _ _ H) in Hin.
    simpl in Hin. rewrite Hs, String.eqb_refl in Hin. discriminate.
  - intros H. destruct (find _ (rev seeders)) as [s|] eqn:E; [|reflexivity].
    apply find_some in E as [E1 E2]. apply in_rev in E1.
    apply String.eqb_eq in E2. exfalso; apply H.
    apply in_map_iff; eauto.
Qed.

Lemma has_build_seederMap seeders k :
  has (build_seederMap seeders) k = true <-> In k (map name seeders).
Proof.
  unfold has. rewrite get_build_seederMap.
  destruct (seeder_named seeders k) eqn:E.
  - split; auto. intros _. apply seeder_named_Some in E as [E1 E2].
    apply in_map_iff; eauto.
  - apply seeder_named_None in E. split; [discriminate | contradiction].
Qed.

(** With unique names, the map holds the definition itself. *)
Lemma seeder_named_unique seeders s :
  unique_names seeders -> In s seeders -> seeder_named seeders (name s) = Some s.
Proof.
  unfold unique_names. intros Hnd Hin.
  destruct (seeder_named seeders (name s)) as [s'|] eqn:E.
  - apply seeder_named_Some in E as [E1 E2]. f_equal.
    clear - Hnd Hin E1 E2. induction seeders as [|a l IH]; simpl in *; [tauto|].
    inversion Hnd as [|? ? Hna Hnl]; subst.
    destruct Hin as [->|Hin], E1 as [->|E1]; auto.
    + exfalso; apply Hna. rewrite <- E2. now apply in_map.
    + exfalso; apply Hna. rewrite E2. now apply in_map.
  - apply seeder_named_None in E. exfalso; apply E. now apply in_map.
Qed.

Lemma deps_of_unique seeders s :
  unique_names seeders -> In s seeders -> deps_of seeders (name s) = dependsOn s.
Proof.
  intros Hu Hin. unfold deps_of. now rewrite seeder_named_unique.
Qed.

Lemma first_absent_None (m : OMap.t (Seeder Ctx Output App)) deps :
  first_absent m deps = None <-> forall d, In d deps -> has m d = true.
Proof.
  induction deps as [|d r IH]; simpl.
  - split; [intros _ d [] | reflexivity].
  - destruct (has m d) eqn:E.
    + rewrite IH. split; [intros H x [->|Hx]; auto | intros H x Hx; auto].
    + split; [discriminate|]. intros H. rewrite H in E by auto. discriminate.
Qed.

(** The name reported is the first one of the list that is absent. *)
Lemma first_absent_Some (m : OMap.t (Seeder Ctx Output App)) deps d :
  first_absent m deps = Some d ->
  exists pre post, deps = pre ++ d :: post /\ has m d = false /\
                   forall x, In x pre -> has m x = true.
Proof.
  induction deps as [|a r IH]; simpl; [discriminate|].
  destruct (has m a) eqn:E.
  - intros H. destruct (IH H) as (pre & post & -> & Hd & Hpre).
    exists (a :: pre), post. repeat split; auto.
    intros x [->|Hx]; auto.
  - intros H; inversion H; subst. exists [], r.
    repeat split; auto; intros x [].
Qed.

Lemma validate_None (m : OMap.t (Seeder Ctx Output App)) seeders :
  validate m seeders = None <->
  forall s d, In s seeders -> In d (dependsOn s) -> has m d = true.
Proof.
  induction seeders as [|a l IH]; simpl.
  - split; [intros _ s d [] | reflexivity].
  - destruct (first_absent m (dependsOn a)) as [d|] eqn:E.
    + split; [discriminate|]. intros H.
      apply first_absent_Some in E as (pre & post & E & Hd & _).
      assert (Ht : has m d = true)
        by (apply (H a); [auto | rewrite E; apply in_elt]).
      congruence.
    + rewrite IH. pose proof (proj1 (first_absent_None m _) E) as Ha.
      split; [intros H s d [->|Hs] Hd; eauto | intros H s d Hs Hd; eauto].
Qed.

(** The pair reported is the first absent name of the first definition
    that has one. *)
Lemma validate_Some (m : OMap.t (Seeder Ctx Output App)) seeders u d :
  validate m seeders = Some (u, d) ->
  exists before s after,
    seeders = before ++ s :: after /\ name s = u /\
    In d (dependsOn s) /\ has m d = false /\
    forall s' d', In s' before -> In d' (dependsOn s') -> has m d' = true.
Proof.
  induction seeders as [|a l IH]; simpl; [discriminate|].
  destruct (first_absent m (dependsOn a)) as [x|] eqn:E.
  - intros H; inversion H; subst.
    apply first_absent_Some in E as (pre & post & E & Hd & _).
    exists [], a, l. repeat split; auto. rewrite E; apply in_elt.
  - intros H. destruct (IH H) as (before & s & after & -> & Hn & Hd & Hh & Hb).
    exists (a :: before), s, after. repeat split; auto.
    intros s' d' [->|Hs] Hd'; eauto.
    eapply first_absent_None; eauto.
Qed.

Lemma validate_deps_present seeders :
  validate (build_seederMap seeders) seeders = None <-> deps_present seeders.
Proof.
  rewrite validate_None. unfold deps_present.
  split; intros H s d Hs Hd; apply has_build_seederMap; eauto.
Qed.

End Validation.

(* ================================================================== *)
(** ** The graph the resolver builds *)

Section Graph.
Context {Ctx Output App : Type}.
Implicit Types (seeders : list (Seeder Ctx Output App)) (s : Seeder Ctx Output App).
Import OMap OMapFacts.

Lemma fold_add_to_graph seeders (a : OMap.t Z) (b : OMap.t (list string)) :
  fold_left add_to_graph seeders (a, b) =
  (fold_left set_inDegree seeders a, fold_left set_dependents seeders b).
Proof.
  revert a b; induction seeders as [|s l IH]; simpl; intros a b; [reflexivity|].
  unfold add_to_graph at 2; simpl. apply IH.
Qed.

Lemma set_fresh {V : Type} (m : OMap.t V) k (v : V) :
  ~ In k (keys m) -> set m k v = m ++ [(k, v)].
Proof.
  induction m as [|[k' v'] r IH]; simpl; intros H; [reflexivity|].
  destruct (String.eqb_spec k' k) as [->|Hne]; [exfalso; auto|].
  rewrite IH; auto.
Qed.

Lemma set_in_place {V : Type} (A B : OMap.t V) k (v0 v : V) :
  ~ In k (keys A) -> set (A ++ (k, v0) :: B) k v = A ++ (k, v) :: B.
Proof.
  induction A as [|[k' v'] r IH]; simpl; intros H.
  - now rewrite String.eqb_refl.
  - destruct (String.eqb_spec k' k) as [->|Hne]; [exfalso; auto|].
    rewrite IH; auto.
Qed.

(** With unique names a map initialised over the registry lists the
    registry in its own order. *)
Lemma fold_set_fresh {V : Type} (val : Seeder Ctx Output App -> V) seeders
  (m0 : OMap.t V) :
  NoDup (keys m0 ++ map name seeders) ->
  fold_left (fun m s => set m (name s) (val s)) seeders m0 =
  m0 ++ map (fun s => (name s, val s)) seeders.
Proof.
  revert m0; induction seeders as [|s l IH]; simpl; intros m0 Hnd.
  - now rewrite app_nil_r.
  - assert (Hn : ~ In (name s) (keys m0)).
    { apply NoDup_remove_2 in Hnd. intros H; apply Hnd, in_or_app; auto. }
    rewrite set_fresh by assumption. rewrite IH.
    + now rewrite <- app_assoc.
    + unfold keys in *. rewrite map_app; simpl. now rewrite <- app_assoc.
Qed.

Lemma fold_set_in_place {V : Type} (val0 val : Seeder Ctx Output App -> V)
  seeders (A : OMap.t V) :
  NoDup (keys A ++ map name seeders) ->
  fold_left (fun m s => set m (name s) (val s)) seeders
    (A ++ map (fun s => (name s, val0 s)) seeders) =
  A ++ map (fun s => (name s, val s)) seeders.
Proof.
  revert A; induction seeders as [|s l IH]; simpl; intros A Hnd; [reflexivity|].
  assert (Hn : ~ In (name s) (keys A)).
  { apply NoDup_remove_2 in Hnd. intros H; apply Hnd, in_or_app; auto. }
  rewrite set_in_place by assumption.
  change (A ++ (name s, val s) :: map (fun s0 => (name s0, val0 s0)) l)
    with (A ++ [(name s, val s)] ++ map (fun s0 => (name s0, val0 s0)) l).
  rewrite app_assoc, IH.
  - now rewrite <- app_assoc.
  - unfold keys in *. rewrite map_app; simpl. now rewrite <- app_assoc.
Qed.

Lemma inDegree_unique seeders :
  unique_names seeders ->
  fst (build_graph seeders) =
  map (fun s => (name s, Z.of_nat (length (dependsOn s)))) seeders.
Proof.
  intros Hu. unfold build_graph. rewrite fold_add_to_graph; simpl.
  unfold init_inDegree.
  rewrite (fold_set_fresh (fun _ => 0%Z)) by exact Hu. simpl.
  exact (fold_set_in_place (fun _ => 0%Z)
           (fun s => Z.of_nat (length (dependsOn s))) seeders [] Hu).
Qed.

Lemma get_map_pairs {V : Type} (val : Seeder Ctx Output App -> V) seeders k :
  get (map (fun s => (name s, val s)) seeders) k =
  option_map val (find (fun s => String.eqb (name s) k) seeders).
Proof.
  induction seeders as [|s l IH]; simpl; [reflexivity|].
  destruct (String.eqb (name s) k); auto.
Qed.

Lemma get_register who (m : OMap.t (list string)) deps d :
  get (fold_left (register_dependent who) deps m) d =
  option_map
    (fun l => l ++ flat_map (fun d' => if String.eqb d' d then [who] else []) deps)
    (get m d).
Proof.
  revert m; induction deps as [|x r IH]; simpl; intros m.
  - destruct (get m d); simpl; [now rewrite app_nil_r | reflexivity].
  - rewrite IH. unfold register_dependent.
    destruct (String.eqb_spec x d) as [->|Hne].
    + destruct (get m d) as [l|] eqn:E; simpl.
      * rewrite get_set_same; simpl. now rewrite <- app_assoc.
      * now rewrite E.
    + destruct (get m x) as [l|] eqn:E.
      * rewrite get_set_other by assumption. reflexivity.
      * reflexivity.
Qed.

Lemma get_fold_dependents seeders (m : OMap.t (list string)) d :
  get (fold_left set_dependents seeders m) d =
  option_map (fun l => l ++ spec_dependents seeders d) (get m d).
Proof.
  revert m; induction seeders as [|s r IH]; simpl; intros m.
  - destruct (get m d); simpl; [now rewrite app_nil_r | reflexivity].
  - rewrite IH. unfold set_dependents. rewrite get_register.
    destruct (get m d); simpl; [now rewrite <- app_assoc | reflexivity].
Qed.

(** The reverse adjacency structure holds, under every registered name,
    one entry per edge into it, in registry order. *)
Lemma get_dependents seeders d :
  get (snd (build_graph seeders)) d =
  if in_dec string_dec d (map name seeders)
  then Some (spec_dependents seeders d) else None.
Proof.
  unfold build_graph. rewrite fold_add_to_graph; simpl.
  rewrite get_fold_dependents. unfold init_dependents.
  rewrite (get_fold_set (fun _ => @nil string)). simpl.
  fold (seeder_named seeders d).
  destruct (in_dec string_dec d (map name seeders)) as [Hin|Hn].
  - destruct (seeder_named seeders d) eqn:E; [reflexivity|].
    apply seeder_named_None in E. contradiction.
  - apply seeder_named_None in Hn. now rewrite Hn.
Qed.

Lemma spec_dependents_names seeders d u :
  In u (spec_dependents seeders d) -> In u (map name seeders).
Proof.
  unfold spec_dependents. rewrite in_flat_map. intros (s & Hs & Hu).
  apply in_flat_map in Hu as (d' & _ & Hu).
  destruct (String.eqb d' d); simpl in Hu; [|tauto].
  destruct Hu as [<-|[]]. now apply in_map.
Qed.

End Graph.

(* ================================================================== *)
(** ** The queue loop against Kahn's algorithm of the specification *)

Section Refinement.
Context {Ctx Output App : Type}.
Implicit Types (seeders : list (Seeder Ctx Output App)) (s : Seeder Ctx Output App).
Import OMap OMapFacts.

Lemma relax_decrement (m : OMap.t Z) (f : string -> Z) (q : list string) u :
  same_degrees m f ->
  snd (relax (m, q) u) = snd (spec_decrement (f, q) u) /\
  same_degrees (fst (relax (m, q) u)) (fst (spec_decrement (f, q) u)).
Proof.
  intros R. unfold relax, spec_decrement; simpl.
  pose proof (R u) as Ru. unfold degree_in in Ru. rewrite Ru.
  split; [reflexivity|].
  intros x. unfold degree_in.
  destruct (String.eqb_spec x u) as [->|Hne].
  - now rewrite get_set_same.
  - rewrite get_set_other by congruence. apply R.
Qed.

Lemma fold_relax_decrement (l : list string) (m : OMap.t Z) (f : string -> Z) q :
  same_degrees m f ->
  snd (fold_left relax l (m, q)) = snd (fold_left spec_decrement l (f, q)) /\
  same_degrees (fst (fold_left relax l (m, q)))
               (fst (fold_left spec_decrement l (f, q))).
Proof.
  revert m f q; induction l as [|u r IH]; simpl; intros m f q R; [auto|].
  destruct (relax_decrement m f q u R) as [Hq HR].
  destruct (relax (m, q) u) as [m1 q1], (spec_decrement (f, q) u) as [f1 q1'].
  simpl in *. subst q1'. apply IH, HR.
Qed.

Lemma fold_decrement_names (l : list string) (f : string -> Z) q (P : string -> Prop) :
  Forall P l -> Forall P q -> Forall P (snd (fold_left spec_decrement l (f, q))).
Proof.
  revert f q; induction l as [|u r IH]; simpl; intros f q Hl Hq; [assumption|].
  inversion Hl; subst. apply IH; [assumption|].
  destruct (_ =? 0)%Z; [|assumption].
  apply Forall_app; auto.
Qed.

Lemma process_queue_spec_loop seeders fuel (m : OMap.t Z) (f : string -> Z)
  (q result : list string) :
  same_degrees m f ->
  Forall (fun u => In u (map name seeders)) q ->
  process_queue fuel (snd (build_graph seeders)) m q result =
  spec_loop fuel seeders f q result.
Proof.
  revert m f q result; induction fuel as [|n IH]; intros m f q result R Hq.
  - destruct q; reflexivity.
  - destruct q as [|c rest]; [reflexivity|]. simpl.
    inversion Hq as [|? ? Hc Hrest]; subst.
    rewrite get_dependents.
    destruct (in_dec string_dec c (map name seeders)) as [_|Hn]; [|contradiction].
    destruct (fold_relax_decrement (spec_dependents seeders c) m f rest R)
      as [Hq' HR'].
    rewrite Hq'. apply IH; [exact HR'|].
    apply fold_decrement_names; [|assumption].
    apply Forall_forall. intros u Hu. eapply spec_dependents_names; eauto.
Qed.

Lemma kahn_order_refines seeders :
  unique_names seeders -> kahn_order seeders = spec_kahn seeders.
Proof.
  intros Hu. unfold kahn_order, spec_kahn.
  rewrite (inDegree_unique seeders Hu).
  assert (Hq : initial_queue
                 (map (fun s => (name s, Z.of_nat (length (dependsOn s)))) seeders)
               = spec_ready seeders).
  { unfold initial_queue, spec_ready. clear Hu.
    induction seeders as [|s l IH]; simpl; [reflexivity|].
    destruct (length (dependsOn s)) eqn:E; simpl; now rewrite IH. }
  rewrite Hq. apply process_queue_spec_loop.
  - intros u. unfold degree_in, spec_in_degree. rewrite get_map_pairs.
    destruct (find _ seeders); reflexivity.
  - unfold spec_ready. apply Forall_forall. intros u Hu'.
    apply in_map_iff in Hu' as (s & <- & Hs). apply filter_In in Hs as [Hs _].
    now apply in_map.
Qed.

End Refinement.

(* ================================================================== *)
(** ** Invariants of Kahn's loop on a well-formed registry *)

Section DecrementBlock.
Context {Ctx Output App : Type}.
Implicit Types (s : Seeder Ctx Output App).

Lemma count_cons c d l :
  count c (d :: l) = (count c l + (if String.eqb d c then 1 else 0))%Z.
Proof.
  unfold count; simpl.
  destruct (string_dec d c) as [->|Hne].
  - rewrite String.eqb_refl. lia.
  - destruct (String.eqb_spec d c); [contradiction | lia].
Qed.

Lemma NoDup_map_filter {A B : Type} (g : A -> B) (p : A -> bool) (l : list A) :
  NoDup (map g l) -> NoDup (map g (filter p l)).
Proof.
  induction l as [|a r IH]; simpl; intros H; [constructor|].
  inversion H as [|? ? Ha Hr]; subst.
  destruct (p a); simpl; [|auto]. constructor; [|auto].
  intros Hin. apply Ha. apply in_map_iff in Hin as (x & E & Hx).
  apply filter_In in Hx as [Hx _]. rewrite <- E. now apply in_map.
Qed.

Lemma count_nonneg c l : (0 <= count c l)%Z.
Proof. unfold count; lia. Qed.

Lemma count_pos_In c l : (0 < count c l)%Z -> In c l.
Proof.
  unfold count. intros H. apply (count_occ_In string_dec). lia.
Qed.

(** One unit [u], decremented once per occurrence of [c] in [ds]. *)
Lemma decrement_block (c u : string) (ds : list string) (f : string -> Z) q :
  let st := fold_left spec_decrement
              (flat_map (fun d' => if String.eqb d' c then [u] else []) ds) (f, q) in
  (forall x, fst st x = if String.eqb x u then (f u - count c ds)%Z else f x) /\
  snd st = q ++ (if (0 <? f u)%Z && (f u <=? count c ds)%Z then [u] else []).
Proof.
  revert f q; induction ds as [|d r IH]; intros f q; cbv zeta.
  - simpl. split.
    + intros x. destruct (String.eqb_spec x u) as [->|]; [|reflexivity].
      unfold count; simpl; lia.
    + unfold count; simpl.
      destruct (Z.ltb_spec 0 (f u)), (Z.leb_spec (f u) 0); simpl;
        try (now rewrite app_nil_r); lia.
  - rewrite count_cons. cbn [flat_map]. destruct (String.eqb d c); simpl.
    + specialize (IH (fun x => if String.eqb x u then (f u - 1)%Z else f x)
                     (if (f u - 1 =? 0)%Z then q ++ [u] else q)).
      simpl in IH. rewrite String.eqb_refl in IH.
      destruct IH as [IHf IHq].
      change (spec_decrement (f, q) u)
        with (fun x => if String.eqb x u then (f u - 1)%Z else f x,
              if (f u - 1 =? 0)%Z then q ++ [u] else q).
      split.
      * intros x. rewrite IHf. destruct (String.eqb x u); cbv iota; [lia | reflexivity].
      * rewrite IHq.
        pose proof (count_nonneg c r).
        destruct (Z.eqb_spec (f u - 1) 0);
        destruct (Z.ltb_spec 0 (f u - 1));
        destruct (Z.leb_spec (f u - 1) (count c r));
        destruct (Z.ltb_spec 0 (f u));
        destruct (Z.leb_spec (f u) (count c r + 1)); simpl;
        rewrite ?app_nil_r; try reflexivity; lia.
    + rewrite Z.add_0_r. apply IH.
Qed.

Lemma local_deps_cons_same s (l : list (Seeder Ctx Output App)) :
  ~ In (name s) (map name l) -> local_deps l (name s) = [].
Proof.
  intros H. unfold local_deps.
  destruct (find _ l) as [s'|] eqn:E; [|reflexivity].
  apply find_some in E as [E1 E2]. apply String.eqb_eq in E2.
  exfalso; apply H. rewrite <- E2. now apply in_map.
Qed.

(** The pass over all dependents of [c], on a registry part with unique
    names: every unit loses one count per occurrence of [c] in its own
    list, and the units that become ready are appended in registry order. *)
Lemma decrement_dependents (c : string) (l : list (Seeder Ctx Output App))
  (f : string -> Z) q :
  NoDup (map name l) ->
  let st := fold_left spec_decrement (spec_dependents l c) (f, q) in
  (forall x, fst st x = (f x - count c (local_deps l x))%Z) /\
  snd st = q ++ map name (filter (becomes_ready c f) l).
Proof.
  revert f q; induction l as [|s r IH]; intros f q Hnd; simpl.
  - split; [intros x; unfold local_deps, count; simpl; lia | now rewrite app_nil_r].
  - inversion Hnd as [|? ? Hs Hr]; subst.
    unfold spec_dependents; simpl. rewrite fold_left_app.
    destruct (decrement_block c (name s) (dependsOn s) f q) as [Bf Bq].
    destruct (fold_left spec_decrement
                (flat_map (fun d' => if String.eqb d' c then [name s] else [])
                   (dependsOn s)) (f, q)) as [f1 q1] eqn:E1.
    simpl in Bf, Bq.
    destruct (IH f1 q1 Hr) as [IHf IHq]. fold (spec_dependents r c).
    split.
    + intros x. rewrite IHf, Bf. unfold local_deps at 2; simpl.
      rewrite (String.eqb_sym x (name s)).
      destruct (String.eqb_spec (name s) x) as [<-|Hne].
      * rewrite local_deps_cons_same by assumption. unfold count at 2; simpl. lia.
      * reflexivity.
    + rewrite IHq, Bq.
      assert (Hext : filter (becomes_ready c f1) r = filter (becomes_ready c f) r).
      { apply filter_ext_in. intros s' Hs'. unfold becomes_ready.
        rewrite Bf. destruct (String.eqb_spec (name s') (name s)) as [E|]; [|reflexivity].
        exfalso; apply Hs. rewrite <- E. now apply in_map. }
      rewrite Hext.
      change ((0 <? f (name s))%Z && (f (name s) <=? count c (dependsOn s))%Z)
        with (becomes_ready c f s).
      destruct (becomes_ready c f s); simpl; rewrite <- app_assoc; reflexivity.
Qed.

End DecrementBlock.

Section KahnInvariant.
Context {Ctx Output App : Type}.
Variable seeders : list (Seeder Ctx Output App).
Hypothesis Hunique : unique_names seeders.
Hypothesis Hpresent : deps_present seeders.

Let names := map name seeders.

Lemma find_seeder_named k :
  find (fun s => String.eqb (name s) k) seeders = seeder_named seeders k.
Proof.
  destruct (find _ seeders) as [s|] eqn:E.
  - apply find_some in E as [E1 E2]. apply String.eqb_eq in E2. subst k.
    symmetry. now apply seeder_named_unique.
  - symmetry. apply seeder_named_None. intros Hin.
    apply in_map_iff in Hin as (s & Hs & Hin).
    apply (find_none _ _ E) in Hin. simpl in Hin.
    rewrite Hs, String.eqb_refl in Hin. discriminate.
Qed.

Lemma local_deps_deps_of k : local_deps seeders k = deps_of seeders k.
Proof. unfold local_deps, deps_of. now rewrite find_seeder_named. Qed.

Lemma depends_on_deps_of u d :
  depends_on seeders u d <-> In u names /\ In d (deps_of seeders u).
Proof.
  split.
  - intros (s & Hs & <- & Hd). split; [now apply in_map|].
    now rewrite deps_of_unique.
  - intros [Hu Hd]. apply in_map_iff in Hu as (s & <- & Hs).
    rewrite deps_of_unique in Hd by assumption. exists s; auto.
Qed.

Lemma deps_of_present u d : In d (deps_of seeders u) -> In d names.
Proof.
  unfold deps_of. destruct (seeder_named seeders u) as [s|] eqn:E; [|intros []].
  apply seeder_named_Some in E as [E _]. intros Hd. eapply Hpresent; eauto.
Qed.

Lemma waiting_nil result u :
  waiting seeders result u = [] <-> forall d, In d (deps_of seeders u) -> In d result.
Proof.
  unfold waiting. split.
  - intros H d Hd. destruct (includes result d) eqn:E; [now apply includes_In|].
    assert (Hin : In d (filter (fun d => negb (includes result d)) (deps_of seeders u)))
      by (apply filter_In; rewrite E; auto).
    rewrite H in Hin. destruct Hin.
  - intros H. destruct (filter _ _) as [|d r] eqn:E; [reflexivity|].
    assert (Hin : In d (filter (fun d => negb (includes result d)) (deps_of seeders u)))
      by (rewrite E; simpl; auto).
    apply filter_In in Hin as [Hd Hn]. apply H, includes_In in Hd.
    rewrite Hd in Hn. discriminate.
Qed.

Lemma pending_count_zero result u :
  pending_count seeders result u = 0%Z <-> forall d, In d (deps_of seeders u) -> In d result.
Proof.
  rewrite <- waiting_nil. unfold pending_count.
  destruct (waiting seeders result u); simpl; split; intros; try reflexivity;
    try discriminate; lia.
Qed.

Lemma waiting_append result c (l : list string) :
  ~ In c result ->
  length (filter (fun d => negb (includes (result ++ [c]) d)) l)
    + count_occ string_dec l c =
  length (filter (fun d => negb (includes result d)) l).
Proof.
  intros Hc. induction l as [|d r IH]; simpl; [reflexivity|].
  rewrite includes_app; simpl.
  destruct (string_dec d c) as [->|Hne].
  - rewrite String.eqb_refl, orb_true_r. simpl.
    apply includes_false in Hc. rewrite Hc. simpl. lia.
  - destruct (String.eqb_spec c d); [congruence|].
    rewrite orb_false_r. destruct (includes result d); simpl; lia.
Qed.

Lemma pending_count_append result c u :
  ~ In c result ->
  pending_count seeders (result ++ [c]) u =
  (pending_count seeders result u - count c (deps_of seeders u))%Z.
Proof.
  intros Hc. unfold pending_count, waiting, count.
  pose proof (waiting_append result c (deps_of seeders u) Hc). lia.
Qed.

Lemma strictly_before_app result c d u :
  strictly_before result d u -> strictly_before (result ++ [c]) d u.
Proof.
  intros (j & i & Hj & Hi & Hlt). exists j, i.
  repeat split; auto using indexOf_app_l.
Qed.

Lemma kahn_inv_init :
  kahn_inv seeders (spec_in_degree seeders) (spec_ready seeders) [].
Proof.
  assert (Hdeg : forall s, In s seeders ->
            spec_in_degree seeders (name s) = Z.of_nat (length (dependsOn s))).
  { intros s Hs. unfold spec_in_degree.
    now rewrite find_seeder_named, seeder_named_unique. }
  split; simpl.
  - intros u Hu. apply in_map_iff in Hu as (s & <- & Hs).
    rewrite (Hdeg s Hs). unfold pending_count, waiting.
    rewrite deps_of_unique by assumption.
    f_equal. induction (dependsOn s); simpl; auto.
  - unfold spec_ready. now apply NoDup_map_filter.
  - intros u. unfold spec_ready. rewrite in_map_iff. split.
    + intros (s & <- & Hs). apply filter_In in Hs as [Hs Hz].
      split; [now apply in_map|]. rewrite (Hdeg s Hs).
      apply Nat.eqb_eq in Hz. lia.
    + intros [Hu Hz]. apply in_map_iff in Hu as (s & <- & Hs).
      exists s; split; auto. apply filter_In; split; auto.
      rewrite (Hdeg s Hs) in Hz. apply Nat.eqb_eq. lia.
  - intros u d [].
Qed.

Lemma kahn_inv_step f c rest result :
  kahn_inv seeders f (c :: rest) result ->
  let st := fold_left spec_decrement (spec_dependents seeders c) (f, rest) in
  kahn_inv seeders (fst st) (snd st) (result ++ [c]).
Proof.
  intros [Hcount Hnd Hready Horder].
  destruct (decrement_dependents c seeders f rest Hunique) as [Hf Hq].
  simpl. revert Hf Hq.
  generalize (fold_left spec_decrement (spec_dependents seeders c) (f, rest)).
  intros [f' q'] Hf Hq; simpl in *.
  assert (Hc : In c names /\ f c = 0%Z)
    by (apply Hready, in_or_app; right; simpl; auto).
  destruct Hc as [Hcn Hc0].
  assert (Hcr : ~ In c result).
  { intros Hin. apply NoDup_remove_2 in Hnd. apply Hnd, in_or_app; auto. }
  assert (Hf' : forall u, In u names -> f' u = pending_count seeders (result ++ [c]) u).
  { intros u Hu. rewrite Hf, local_deps_deps_of, pending_count_append by assumption.
    now rewrite Hcount. }
  assert (Hge : forall u, In u names -> (count c (deps_of seeders u) <= f u)%Z).
  { intros u Hu. specialize (Hf' u Hu). rewrite Hf, local_deps_deps_of in Hf'.
    unfold pending_count in Hf'. lia. }
  assert (Hpushed : forall u, In u (map name (filter (becomes_ready c f) seeders)) <->
                              In u names /\ (0 < f u)%Z /\ f' u = 0%Z).
  { intros u. rewrite in_map_iff. split.
    - intros (s & <- & Hs). apply filter_In in Hs as [Hs Hb].
      unfold becomes_ready in Hb. apply andb_true_iff in Hb as [H1 H2].
      apply Z.ltb_lt in H1. apply Z.leb_le in H2.
      assert (Hn : In (name s) names) by now apply in_map.
      pose proof (Hge _ Hn) as Hg. rewrite deps_of_unique in Hg by assumption.
      repeat split; auto.
      rewrite Hf, local_deps_deps_of, deps_of_unique by assumption. lia.
    - intros (Hu & Hpos & Hz). apply in_map_iff in Hu as (s & <- & Hs).
      exists s; split; auto. apply filter_In; split; auto.
      unfold becomes_ready. rewrite Hf, local_deps_deps_of, deps_of_unique in Hz
        by assumption.
      apply andb_true_iff; split; [apply Z.ltb_lt | apply Z.leb_le]; lia. }
  split.
  - exact Hf'.
  - rewrite Hq, <- app_assoc. simpl.
    rewrite app_comm_cons, app_assoc.
    apply NoDup_app.
    + exact Hnd.
    + now apply NoDup_map_filter.
    + intros u Hin Hp. apply Hpushed in Hp as (_ & Hpos & _).
      apply Hready in Hin as [_ Hz]. lia.
  - intros u. rewrite Hq, <- app_assoc. simpl.
    rewrite app_comm_cons, app_assoc, in_app_iff.
    rewrite Hpushed, Hready. split.
    + intros [[Hu Hz]|(Hu & _ & Hz)]; auto. split; auto.
      pose proof (Hge u Hu). rewrite Hf, local_deps_deps_of.
      pose proof (count_nonneg c (deps_of seeders u)). lia.
    + intros [Hu Hz]. destruct (Z.eq_dec (f u) 0) as [E|E]; [left; auto|].
      right. repeat split; auto.
      rewrite (Hcount u Hu). rewrite (Hcount u Hu) in E.
      unfold pending_count in *. lia.
  - intros u d Hu Hd. apply in_app_iff in Hu as [Hu|[<-|[]]].
    + apply strictly_before_app. now apply Horder.
    + rewrite (Hcount c Hcn) in Hc0.
      pose proof (proj1 (pending_count_zero result c) Hc0 d Hd) as Hdr.
      destruct (indexOf_In _ _ Hdr) as [j Hj].
      exists j, (length result). repeat split.
      * now apply indexOf_app_l.
      * rewrite indexOf_app_r by assumption. simpl.
        rewrite String.eqb_refl. f_equal. lia.
      * now apply indexOf_Some in Hj.
Qed.

Lemma kahn_inv_length f queue result :
  kahn_inv seeders f queue result -> length result + length queue <= length seeders.
Proof.
  intros [_ Hnd Hready _]. rewrite <- length_app.
  rewrite <- (length_map name seeders).
  apply NoDup_incl_length; [exact Hnd|].
  intros u Hu. now apply Hready in Hu.
Qed.

(** The loop ends within its budget, with the invariant on an empty queue. *)
Lemma spec_loop_inv fuel f queue result :
  kahn_inv seeders f queue result ->
  length seeders < fuel + length result ->
  exists f' final,
    spec_loop fuel seeders f queue result = Some final /\ kahn_inv seeders f' [] final.
Proof.
  revert f queue result; induction fuel as [|n IH]; intros f queue result Hinv Hfuel.
  - pose proof (kahn_inv_length _ _ _ Hinv). simpl in Hfuel. lia.
  - destruct queue as [|c rest]; simpl; [eauto|].
    apply IH.
    + now apply kahn_inv_step.
    + rewrite length_app; simpl. lia.
Qed.

Lemma spec_kahn_inv :
  exists f final, spec_kahn seeders = Some final /\ kahn_inv seeders f [] final.
Proof.
  unfold spec_kahn.
  destruct (spec_loop_inv (S (length seeders)) _ _ _ kahn_inv_init) as (f & final & H);
    [simpl; lia | eauto].
Qed.

End KahnInvariant.

(* ================================================================== *)
(** ** The queue loop on any registry: budget, duplicates, membership *)

Section QueueLoop.
Context {Ctx Output App : Type}.
Variable seeders : list (Seeder Ctx Output App).
Import OMap OMapFacts.

Let names := map name seeders.

Lemma queue_inv_relax m q done u :
  In u names -> queue_inv seeders m q done ->
  queue_inv seeders (fst (relax (m, q) u)) (snd (relax (m, q) u)) done.
Proof.
  intros Hu [Hnd Hsp Hnm]. unfold relax; simpl.
  fold (degree_in m u).
  assert (Hdeg : forall x, degree_in (set m u (degree_in m u - 1)%Z) x =
                           if String.eqb x u then (degree_in m u - 1)%Z
                           else degree_in m x).
  { intros x. unfold degree_in at 1.
    destruct (String.eqb_spec x u) as [->|Hne].
    - now rewrite get_set_same.
    - rewrite get_set_other by congruence. reflexivity. }
  destruct (Z.eqb_spec (degree_in m u - 1)%Z 0%Z) as [E|E].
  - assert (Hfresh : ~ In u (done ++ q)) by (intros H; apply Hsp in H; lia).
    split.
    + rewrite app_assoc. apply NoDup_app; auto.
      * repeat constructor. intros [].
      * intros x Hx [<-|[]]. contradiction.
    + intros x Hx. rewrite Hdeg.
      destruct (String.eqb_spec x u); [lia|].
      apply Hsp. rewrite app_assoc, in_app_iff in Hx.
      destruct Hx as [Hx|[Hx|[]]]; [assumption | congruence].
    + intros x Hx. rewrite app_assoc, in_app_iff in Hx.
      destruct Hx as [Hx|[<-|[]]]; auto.
  - split; auto.
    intros x Hx. rewrite Hdeg. specialize (Hsp x Hx).
    destruct (String.eqb_spec x u) as [->|]; lia.
Qed.

Lemma queue_inv_fold l m q done :
  Forall (fun u => In u names) l -> queue_inv seeders m q done ->
  queue_inv seeders (fst (fold_left relax l (m, q))) (snd (fold_left relax l (m, q))) done.
Proof.
  revert m q; induction l as [|u r IH]; simpl; intros m q Hl Hinv; [assumption|].
  inversion Hl; subst.
  pose proof (queue_inv_relax m q done u ltac:(assumption) Hinv) as H.
  destruct (relax (m, q) u) as [m1 q1]. now apply IH.
Qed.

Lemma dependents_names c :
  Forall (fun u => In u names)
    (match get (snd (build_graph seeders)) c with Some d => d | None => [] end).
Proof.
  rewrite get_dependents. destruct (in_dec _ _ _); [|constructor].
  apply Forall_forall. intros u Hu. eapply spec_dependents_names; eauto.
Qed.

Lemma queue_inv_step m c rest result :
  queue_inv seeders m (c :: rest) result ->
  let st := fold_left relax
              (match get (snd (build_graph seeders)) c with
               | Some d => d | None => [] end) (m, rest) in
  queue_inv seeders (fst st) (snd st) (result ++ [c]).
Proof.
  intros [Hnd Hsp Hnm]. apply queue_inv_fold; [apply dependents_names|].
  split; rewrite <- app_assoc; simpl; auto.
Qed.

Lemma process_queue_inv fuel m queue result :
  queue_inv seeders m queue result ->
  length seeders < fuel + length result ->
  exists m' final,
    process_queue fuel (snd (build_graph seeders)) m queue result = Some final /\
    queue_inv seeders m' [] final.
Proof.
  revert m queue result; induction fuel as [|n IH]; intros m queue result Hinv Hfuel.
  - exfalso. destruct Hinv as [Hnd _ Hnm].
    apply NoDup_incl_length with (l' := names) in Hnd; [|exact Hnm].
    unfold names in Hnd. rewrite length_map, length_app in Hnd. simpl in Hfuel. lia.
  - destruct queue as [|c rest]; simpl; [eauto|].
    assert (Hlen : length (result ++ c :: rest) <= length seeders).
    { destruct Hinv as [Hnd _ Hnm].
      apply NoDup_incl_length with (l' := names) in Hnd; [|exact Hnm].
      unfold names in Hnd. now rewrite length_map in Hnd. }
    rewrite length_app in Hlen; simpl in Hlen.
    apply IH.
    + now apply queue_inv_step.
    + rewrite length_app; simpl. lia.
Qed.

Lemma NoDup_keys_set {V : Type} (m : OMap.t V) k (v : V) :
  NoDup (keys m) -> NoDup (keys (set m k v)).
Proof.
  intros H. destruct (in_dec string_dec k (keys m)) as [Hin|Hn].
  - now rewrite keys_set_present.
  - rewrite keys_set_absent by assumption.
    apply NoDup_app; auto.
    + repeat constructor. intros [].
    + intros x Hx [<-|[]]. contradiction.
Qed.

Lemma NoDup_keys_fold {V : Type} (val : Seeder Ctx Output App -> V)
  (l : list (Seeder Ctx Output App)) (m0 : OMap.t V) :
  NoDup (keys m0) ->
  NoDup (keys (fold_left (fun m s => set m (name s) (val s)) l m0)).
Proof.
  revert m0; induction l as [|s r IH]; simpl; intros m0 H; [assumption|].
  apply IH. now apply NoDup_keys_set.
Qed.

Lemma queue_inv_init :
  queue_inv seeders (fst (build_graph seeders)) (initial_queue (fst (build_graph seeders))) [].
Proof.
  set (m := fst (build_graph seeders)).
  assert (Hk : NoDup (keys m) /\ forall u, In u (keys m) -> In u names).
  { unfold m, build_graph. rewrite fold_add_to_graph; simpl. split.
    - apply (NoDup_keys_fold (fun s => Z.of_nat (length (dependsOn s)))).
      apply (NoDup_keys_fold (fun _ => 0%Z)). constructor.
    - intros u Hu.
      apply (keys_fold_set (fun s => Z.of_nat (length (dependsOn s)))) in Hu.
      destruct Hu as [Hu|Hu]; [|exact Hu].
      apply (keys_fold_set (fun _ => 0%Z)) in Hu. destruct Hu as [[]|Hu]; exact Hu. }
  destruct Hk as [Hnd Hin]. clearbody m.
  assert (Hq : forall u, In u (initial_queue m) ->
                         In u (keys m) /\ degree_in m u = 0%Z).
  { intros u Hu. unfold initial_queue in Hu.
    apply in_map_iff in Hu as ([k z] & <- & Hkz). apply filter_In in Hkz as [Hkz Hz].
    simpl in *. apply Z.eqb_eq in Hz. subst z. split.
    - unfold keys. apply in_map_iff. exists (k, 0%Z); auto.
    - unfold degree_in. clear Hin.
      induction m as [|[k' z'] r IH]; simpl in *; [tauto|].
      inversion Hnd as [|? ? Hk' Hr]; subst.
      destruct Hkz as [E|Hkz].
      + inversion E; subst. now rewrite String.eqb_refl.
      + destruct (String.eqb_spec k' k) as [->|Hne].
        * exfalso; apply Hk'. unfold keys. apply in_map_iff. exists (k, 0%Z); auto.
        * now apply IH. }
  split; simpl.
  - unfold initial_queue. clear Hq Hin.
    induction m as [|[k z] r IH]; simpl in *; [constructor|].
    inversion Hnd as [|? ? Hk Hr]; subst.
    destruct (z =? 0)%Z; simpl; [|auto]. constructor; [|auto].
    intros H. apply Hk. apply in_map_iff in H as ([k' z'] & E & H).
    apply filter_In in H as [H _]. simpl in E; subst k'.
    unfold keys. apply in_map_iff. exists (k, z'); auto.
  - intros u Hu. apply Hq in Hu as [_ Hz]. lia.
  - intros u Hu. apply Hq in Hu as [Hk _]. auto.
Qed.

(** The ordering phase always ends within its budget; its result has no
    name twice and only names of the registry. *)
Lemma kahn_order_general :
  exists result, kahn_order seeders = Some result /\
                 NoDup result /\ incl result names.
Proof.
  unfold kahn_order.
  destruct (process_queue_inv (S (length seeders)) _ _ _ queue_inv_init)
    as (m' & final & Hrun & [Hnd _ Hnm]); [simpl; lia|].
  exists final. rewrite app_nil_r in Hnd. repeat split; auto.
  intros u Hu. apply Hnm. now rewrite app_nil_r.
Qed.

Lemma kahn_order_complete_unique result :
  kahn_order seeders = Some result ->
  length result = length seeders ->
  unique_names seeders /\ Permutation result names.
Proof.
  intros Hrun Hlen.
  destruct kahn_order_general as (r & Hr & Hnd & Hincl).
  rewrite Hrun in Hr. inversion Hr; subst r.
  assert (Hu : NoDup names).
  { apply NoDup_incl_NoDup with (l := result); auto.
    unfold names. rewrite length_map. lia. }
  split; [exact Hu|].
  apply NoDup_Permutation; auto.
  intros x; split; [apply Hincl|].
  apply NoDup_length_incl; auto.
  unfold names. rewrite length_map. lia.
Qed.

End QueueLoop.

(** What a returned order tells about the registry. *)
Lemma resolve_Returned_inv {Ctx Output App : Type}
  (seeders : list (Seeder Ctx Output App)) (order : list string) :
  resolveDependencyOrder seeders = Some (Returned order) ->
  deps_present seeders /\ kahn_order seeders = Some order /\
  length order = length seeders /\ unique_names seeders /\
  Permutation order (map name seeders).
Proof.
  unfold resolveDependencyOrder.
  destruct (validate _ seeders) as [[u d]|] eqn:Ev; [discriminate|].
  destruct (kahn_order seeders) as [result|] eqn:Ek; [|discriminate].
  destruct (Nat.eqb_spec (length result) (length seeders)) as [Hlen|Hlen].
  - intros H; inversion H; subst result.
    destruct (kahn_order_complete_unique seeders order Ek Hlen).
    repeat split; auto. now apply validate_deps_present.
  - destruct (findCycle _ _); discriminate.
Qed.

(* ================================================================== *)
(** ** Chains of dependencies and cycles *)

Section Chains.
Context {Ctx Output App : Type}.
Variable seeders : list (Seeder Ctx Output App).

Let names := map name seeders.
Let edge := depends_on seeders.

Lemma chain_app_inv (l1 l2 : list string) :
  chain seeders (l1 ++ l2) -> chain seeders l1 /\ chain seeders l2.
Proof.
  induction l1 as [|a r IH]; simpl; [tauto|].
  destruct r as [|b r']; simpl in *.
  - destruct l2; tauto.
  - intros [H1 H2]. destruct (IH H2). tauto.
Qed.

Lemma chain_clos (a b : string) (l : list string) :
  chain seeders (a :: l ++ [b]) -> clos_trans string edge a b.
Proof.
  revert a; induction l as [|x r IH]; intros a; simpl.
  - intros [H _]. now apply t_step.
  - intros [H1 H2]. eapply t_trans; [apply t_step; exact H1 | apply IH, H2].
Qed.

Lemma chain_repeat (a : string) (l1 l2 l3 : list string) :
  chain seeders (l1 ++ a :: l2 ++ a :: l3) -> clos_trans string edge a a.
Proof.
  intros H. apply chain_app_inv in H as [_ H].
  change (a :: l2 ++ a :: l3) with ((a :: l2) ++ [a] ++ l3) in H.
  rewrite app_assoc in H. apply chain_app_inv in H as [H _].
  now apply chain_clos with (l := l2).
Qed.

Lemma clos_trans_first (a b : string) :
  clos_trans string edge a b -> exists x, edge a x.
Proof. induction 1; eauto. Qed.

(** A set of names each of which declares a member of the set contains
    a cycle, unless it is empty. *)
Lemma descent_path (B : string -> Prop) :
  (forall u, B u -> exists d, edge u d /\ B d) ->
  forall n u, B u ->
    exists p, length p = n /\ chain seeders (u :: p) /\ Forall B (u :: p).
Proof.
  intros Hstep n. induction n as [|n IH]; intros u Hu.
  - exists []. repeat split; auto.
  - destruct (Hstep u Hu) as (d & Hed & Hd).
    destruct (IH d Hd) as (p & Hlen & Hch & Hall).
    exists (d :: p). repeat split; simpl; auto.
Qed.

Lemma no_descent (B : string -> Prop) :
  acyclic seeders ->
  (forall u, B u -> In u names) ->
  (forall u, B u -> exists d, edge u d /\ B d) ->
  forall u, ~ B u.
Proof.
  intros Hacyc Hin Hstep u Hu.
  destruct (descent_path B Hstep (length names) u Hu) as (p & Hlen & Hch & Hall).
  assert (Hdup : ~ NoDup (u :: p)).
  { intros Hnd. apply NoDup_incl_length with (l' := names) in Hnd.
    - simpl in Hnd. lia.
    - intros x Hx. apply Hin. rewrite Forall_forall in Hall. auto. }
  apply not_NoDup in Hdup.
  - destruct Hdup as (a & l1 & l2 & l3 & E). rewrite E in Hch.
    apply chain_repeat in Hch. exact (Hacyc a Hch).
  - intros x y. destruct (string_dec x y); [left | right]; assumption.
Qed.

End Chains.

(* ================================================================== *)
(** ** The resolver on a well-formed registry *)

Section WellFormed.
Context {Ctx Output App : Type}.
Variable seeders : list (Seeder Ctx Output App).
Hypothesis Hunique : unique_names seeders.
Hypothesis Hpresent : deps_present seeders.

Let names := map name seeders.

(** What the ordering phase leaves when it stops. *)
Lemma kahn_order_final :
  exists f final,
    kahn_order seeders = Some final /\ kahn_inv seeders f [] final.
Proof.
  rewrite (kahn_order_refines seeders Hunique).
  exact (spec_kahn_inv seeders Hunique).
Qed.

(** A name the ordering phase left out declares another name it left out. *)
Lemma left_out_declares f final u :
  kahn_inv seeders f [] final -> In u names -> ~ In u final ->
  exists d, depends_on seeders u d /\ In d names /\ ~ In d final.
Proof.
  intros [Hcount _ Hready _] Hu Hnot.
  assert (Hz : f u <> 0%Z).
  { intros Hz. apply Hnot. specialize (Hready u). rewrite app_nil_r in Hready.
    apply Hready. auto. }
  rewrite (Hcount u Hu) in Hz. unfold pending_count in Hz.
  destruct (waiting seeders final u) as [|d r] eqn:E; [simpl in Hz; lia|].
  assert (Hd : In d (waiting seeders final u)) by (rewrite E; simpl; auto).
  unfold waiting in Hd. apply filter_In in Hd as [Hd Hn].
  apply negb_true_iff, includes_false in Hn.
  exists d. repeat split; auto.
  - apply depends_on_deps_of; auto.
  - eapply deps_of_present; eauto.
Qed.

Lemma kahn_order_acyclic_complete f final :
  acyclic seeders -> kahn_inv seeders f [] final ->
  forall u, In u names -> In u final.
Proof.
  intros Hacyc Hinv u Hu.
  destruct (in_dec string_dec u final) as [Hin|Hnot]; [assumption|].
  exfalso.
  apply (no_descent seeders (fun x => In x names /\ ~ In x final) Hacyc) with (u := u).
  - intros x [Hx _]; exact Hx.
  - intros x [Hx Hnx].
    destruct (left_out_declares f final x Hinv Hx Hnx) as (d & H1 & H2 & H3).
    eauto.
  - auto.
Qed.

Lemma strictly_before_trans (l : list string) (a b c : string) :
  strictly_before l a b -> strictly_before l b c -> strictly_before l a c.
Proof.
  intros (j1 & i1 & Ha & Hb & H1) (j2 & i2 & Hb' & Hc & H2).
  rewrite Hb in Hb'. inversion Hb'; subst.
  exists j1, i2. repeat split; auto. lia.
Qed.

Lemma strictly_before_In_l (l : list string) (a b : string) :
  strictly_before l a b -> In a l.
Proof.
  intros (j & i & Ha & _). apply indexOf_Some in Ha as [Ha _].
  eapply nth_error_In; eauto.
Qed.

(** Whatever a name of the result reaches through declared dependencies
    stands strictly before it. *)
Lemma reach_strictly_before f final u v :
  kahn_inv seeders f [] final ->
  clos_trans string (depends_on seeders) u v ->
  In u final -> strictly_before final v u.
Proof.
  intros Hinv Hreach. induction Hreach as [u v Hstep | u w v _ IH1 _ IH2]; intros Hu.
  - apply depends_on_deps_of in Hstep as [_ Hd]; auto.
    now apply (inv_order _ _ _ _ Hinv).
  - specialize (IH1 Hu).
    eapply strictly_before_trans; [apply IH2 | exact IH1].
    eapply strictly_before_In_l; eauto.
Qed.

Lemma cycle_left_out f final n :
  kahn_inv seeders f [] final ->
  clos_trans string (depends_on seeders) n n -> ~ In n final.
Proof.
  intros Hinv Hc Hin.
  destruct (reach_strictly_before f final n n Hinv Hc Hin) as (j & i & Hj & Hi & Hlt).
  rewrite Hj in Hi. inversion Hi. lia.
Qed.

Lemma kahn_order_cycle_short f final :
  has_cycle seeders -> kahn_order seeders = Some final ->
  kahn_inv seeders f [] final -> length final <> length seeders.
Proof.
  intros [n Hn] Hrun Hinv Hlen.
  destruct (kahn_order_complete_unique seeders final Hrun Hlen) as [_ Hperm].
  apply (cycle_left_out f final n Hinv Hn).
  apply Permutation_in with (l := map name seeders); [now apply Permutation_sym|].
  destruct (clos_trans_first seeders n n Hn) as (x & s & Hs & <- & _).
  now apply in_map.
Qed.

Lemma resolve_well_formed_acyclic :
  acyclic seeders ->
  exists order,
    resolveDependencyOrder seeders = Some (Returned order) /\
    NoDup order /\
    Permutation order (map name seeders) /\
    forall s d, In s seeders -> In d (dependsOn s) ->
                strictly_before order d (name s).
Proof.
  intros Hacyc. destruct kahn_order_final as (f & final & Hrun & Hinv).
  assert (Hall : forall u, In u names -> In u final)
    by (eapply kahn_order_acyclic_complete; eauto).
  assert (Hnd : NoDup final).
  { pose proof (inv_nodup _ _ _ _ Hinv) as H. now rewrite app_nil_r in H. }
  assert (Hsub : incl final names).
  { intros u Hu. apply (inv_ready _ _ _ _ Hinv). now rewrite app_nil_r. }
  assert (Hperm : Permutation final names)
    by (apply NoDup_Permutation; auto; intros x; split; auto).
  exists final. unfold resolveDependencyOrder.
  rewrite (proj2 (validate_deps_present seeders) Hpresent), Hrun.
  apply Permutation_length in Hperm as Hlen.
  unfold names in Hlen. rewrite length_map in Hlen.
  rewrite (proj2 (Nat.eqb_eq _ _) Hlen).
  repeat split; auto.
  intros s d Hs Hd. apply (inv_order _ _ _ _ Hinv).
  - apply Hall. now apply in_map.
  - now rewrite deps_of_unique.
Qed.

End WellFormed.

(* ================================================================== *)
(** ** The depth-first search of [findCycle] *)

Section FilterLength.
Context {A : Type}.

Lemma filter_length_mono (p q : A -> bool) (l : list A) :
  (forall x, In x l -> p x = true -> q x = true) ->
  length (filter p l) <= length (filter q l).
Proof.
  induction l as [|a r IH]; simpl; intros H; [lia|].
  assert (IH' : length (filter p r) <= length (filter q r)) by (apply IH; auto).
  destruct (p a) eqn:Ep.
  - rewrite (H a (or_introl eq_refl) Ep). simpl. lia.
  - destruct (q a); simpl; lia.
Qed.

Lemma filter_length_strict (p q : A -> bool) (l : list A) (a : A) :
  (forall x, In x l -> p x = true -> q x = true) ->
  In a l -> p a = false -> q a = true ->
  length (filter p l) < length (filter q l).
Proof.
  induction l as [|b r IH]; simpl; intros H Ha Hp Hq; [tauto|].
  assert (Hmono : length (filter p r) <= length (filter q r))
    by (apply filter_length_mono; auto).
  destruct Ha as [->|Ha].
  - rewrite Hp, Hq. simpl. lia.
  - assert (IH' : length (filter p r) < length (filter q r)) by (apply IH; auto).
    destruct (p b) eqn:Ep.
    + rewrite (H b (or_introl eq_refl) Ep). simpl. lia.
    + destruct (q b); simpl; lia.
Qed.
End FilterLength.

Section DepthFirst.
Context {Ctx Output App : Type}.
Variable seeders : list (Seeder Ctx Output App).
Import OMap OMapFacts.

Let sm := build_seederMap seeders.

(** A set of names closed under "declares a member of the set": the
    names the ordering phase could not emit form one. *)
Variable B : string -> Prop.
Hypothesis B_declares :
  forall u, B u -> exists d, In d (deps_of seeders u) /\ B d.

Lemma unvisited_mono (V V' : list string) :
  incl V V' -> unvisited seeders V' <= unvisited seeders V.
Proof.
  intros H. apply filter_length_mono. intros x _ Hx.
  apply negb_true_iff in Hx. apply negb_true_iff.
  apply includes_false. apply includes_false in Hx. auto.
Qed.

Lemma unvisited_enter (V : list string) (nm : string) :
  In nm (keys sm) -> ~ In nm V -> unvisited seeders (set_add V nm) < unvisited seeders V.
Proof.
  intros Hk Hn. apply filter_length_strict with (a := nm); auto.
  - intros x _ Hx. apply negb_true_iff in Hx. apply negb_true_iff.
    apply includes_false. apply includes_false in Hx.
    intros H; apply Hx, set_add_In; auto.
  - apply negb_false_iff, includes_In, set_add_In. auto.
  - apply negb_true_iff, includes_false. exact Hn.
Qed.

Lemma dfs_each_ok fuel rec :
  rec_ok seeders B fuel rec ->
  forall deps st,
    unvisited seeders (visited st) < fuel -> dfs_inv seeders B st ->
    (forall d, In d deps -> link seeders (path st) d) ->
    exists r, dfs_each rec deps st = Some r /\
      incl (visited st) (visited (snd r)) /\
      if fst r then found seeders (snd r)
      else path (snd r) = path st /\ dfs_inv seeders B (snd r) /\
           forall d, In d deps -> ~ B d.
Proof.
  intros Hrec deps. induction deps as [|d r IH]; intros st Hfuel Hinv Hlink; simpl.
  - exists (false, st). simpl.
    split; [reflexivity|]. split; [apply incl_refl|].
    split; [reflexivity|]. split; [assumption|]. intros d [].
  - destruct (Hrec d st Hfuel Hinv (Hlink d (or_introl eq_refl)))
      as ([b st1] & -> & Hincl & Hpost).
    simpl in Hincl, Hpost. destruct b.
    + exists (true, st1). simpl. auto.
    + destruct Hpost as (Hpath & Hinv1 & HnB).
      assert (Hf1 : unvisited seeders (visited st1) < fuel)
        by (pose proof (unvisited_mono _ _ Hincl); lia).
      assert (Hl1 : forall x, In x r -> link seeders (path st1) x)
        by (intros x Hx; rewrite Hpath; apply Hlink; right; exact Hx).
      destruct (IH st1 Hf1 Hinv1 Hl1) as ([b2 st2] & -> & Hincl2 & Hpost2).
      exists (b2, st2). simpl in *. split; [reflexivity|].
      split; [eapply incl_tran; eauto|].
      destruct b2; [assumption|].
      destruct Hpost2 as (Hp2 & Hi2 & Hn2).
      split; [congruence|]. split; [assumption|].
      intros x [<-|Hx]; auto.
Qed.

Lemma chain_snoc (p : list string) (nm : string) :
  chain seeders p -> link seeders p nm -> chain seeders (p ++ [nm]).
Proof.
  unfold link. induction p as [|a r IH]; simpl; [auto|].
  intros Hch [Hnil|Hlast]; [discriminate|].
  destruct r as [|b r']; simpl in *; [auto|].
  destruct Hch as [Hab Hr]. split; [assumption|].
  apply IH; auto.
Qed.

Lemma get_sm_deps nm seeder d :
  get sm nm = Some seeder -> In d (dependsOn seeder) -> depends_on seeders nm d.
Proof.
  unfold sm. rewrite get_build_seederMap. intros H Hd.
  apply seeder_named_Some in H as [H1 H2]. exists seeder; auto.
Qed.

Lemma dfs_ok fuel : rec_ok seeders B fuel (dfs fuel sm).
Proof.
  induction fuel as [|f IH]; intros nm st Hfuel Hinv Hlink; [lia|].
  simpl. destruct (indexOf (path st) nm) as [i|] eqn:Eidx.
  - (* the name is on the current path *)
    eexists; split; [reflexivity|]. split; simpl; [apply incl_refl|].
    apply indexOf_Some in Eidx as [Hnth Hlt].
    exists i, nm. simpl.
    split; [reflexivity|]. split; [assumption|].
    split; [|split; apply Hinv].
    destruct Hlink as [Hnil|Hl]; [|exact Hl].
    rewrite Hnil in Hlt. simpl in Hlt. lia.
  - apply indexOf_None in Eidx.
    destruct (includes (visited st) nm) eqn:Evis.
    + (* already explored *)
      apply includes_In in Evis.
      eexists; split; [reflexivity|]. split; simpl; [apply incl_refl|].
      split; [reflexivity|]. split; [assumption|].
      intros HB. apply Eidx. now apply (di_onpath _ _ st Hinv).
    + apply includes_false in Evis.
      set (st1 := {| visited := set_add (visited st) nm;
                     path := path st ++ [nm];
                     cycleStart := cycleStart st |}).
      assert (Hincl1 : incl (visited st) (visited st1))
        by (intros x Hx; apply set_add_In; auto).
      assert (Hinv1 : dfs_inv seeders B st1).
      { destruct Hinv as [H1 H2 H3 H4]. split; simpl.
        - intros x Hx HB. apply set_add_In in Hx as [->|Hx];
            apply in_or_app; [right; simpl; auto | left; auto].
        - intros x Hx. apply set_add_In. apply in_app_iff in Hx as [Hx|[<-|[]]]; auto.
        - now apply chain_snoc.
        - apply NoDup_app; auto.
          + repeat constructor. intros [].
          + intros x Hx [<-|[]]. contradiction. }
      destruct (get sm nm) as [seeder|] eqn:Eget.
      * assert (Hf : unvisited seeders (visited st1) < f).
        { pose proof (unvisited_enter (visited st) nm
                        (get_Some_In _ _ _ Eget) Evis). simpl. lia. }
        destruct (dfs_each_ok f (dfs f sm) IH (dependsOn seeder) st1 Hf Hinv1)
          as ([b st2] & -> & Hincl2 & Hpost2).
        { intros d Hd. right. simpl. rewrite last_last.
          eapply get_sm_deps; eauto. }
        simpl in Hincl2, Hpost2. destruct b.
        -- eexists; split; [reflexivity|]. split; simpl; [|assumption].
           eapply incl_tran; eauto.
        -- destruct Hpost2 as (Hp2 & Hi2 & Hn2).
           assert (HnB : ~ B nm).
           { intros HB. destruct (B_declares nm HB) as (d & Hd & HBd).
             unfold deps_of in Hd. unfold sm in Eget.
             rewrite get_build_seederMap in Eget. rewrite Eget in Hd.
             exact (Hn2 d Hd HBd). }
           eexists; split; [reflexivity|]. split; simpl;
             [eapply incl_tran; eauto|].
           rewrite Hp2. simpl. rewrite removelast_last.
           split; [reflexivity|]. split; [|assumption].
           split; simpl; rewrite ?Hp2; simpl; rewrite ?removelast_last.
           ++ intros x Hx HBx. pose proof (di_onpath _ _ st2 Hi2 x Hx HBx) as Hin.
              rewrite Hp2 in Hin. simpl in Hin.
              apply in_app_iff in Hin as [Hin|[<-|[]]]; [assumption | contradiction].
           ++ intros x Hx. apply Hincl2, Hincl1. now apply (di_seen _ _ st Hinv).
           ++ apply Hinv.
           ++ apply Hinv.
      * eexists; split; [reflexivity|]. split; simpl; [assumption|].
        rewrite removelast_last.
        assert (HnB : ~ B nm).
        { intros HB. destruct (B_declares nm HB) as (d & Hd & _).
          unfold deps_of in Hd. unfold sm in Eget.
          rewrite get_build_seederMap in Eget. rewrite Eget in Hd. exact Hd. }
        split; [reflexivity|]. split; [|assumption].
        split; simpl; rewrite ?removelast_last.
        -- intros x Hx HBx. apply set_add_In in Hx as [->|Hx]; [contradiction|].
           now apply (di_onpath _ _ st Hinv).
        -- intros x Hx. apply set_add_In. right. now apply (di_seen _ _ st Hinv).
        -- apply Hinv.
        -- apply Hinv.
Qed.

Lemma last_app_nonempty (l1 l2 : list string) (d : string) :
  l2 <> [] -> last (l1 ++ l2) d = last l2 d.
Proof.
  intros H. induction l1 as [|a r IH]; simpl; [reflexivity|].
  destruct (r ++ l2) eqn:E; [|exact IH].
  apply app_eq_nil in E as [_ E]. contradiction.
Qed.

(** The part of the path from the revisited name on is a cycle. *)
Lemma found_is_cycle (st : DfsState) :
  found seeders st ->
  (0 <= cycleStart st)%Z /\
  is_cycle seeders (skipn (Z.to_nat (cycleStart st)) (path st)).
Proof.
  intros (i & x & Hcs & Hnth & Hdep & Hch & Hnd).
  rewrite Hcs, Nat2Z.id. split; [lia|].
  pose proof (firstn_skipn i (path st)) as Hsplit.
  assert (Hskip : exists r, skipn i (path st) = x :: r).
  { clear - Hnth. revert i Hnth. induction (path st) as [|a l IH]; intros i Hnth.
    - destruct i; discriminate.
    - destruct i; simpl in *; [inversion Hnth; eauto | auto]. }
  destruct Hskip as (r & Hskip). rewrite Hskip. simpl.
  rewrite <- Hsplit, Hskip in Hch, Hnd, Hdep.
  apply chain_app_inv in Hch as [_ Hch]. apply NoDup_app_remove_l in Hnd.
  rewrite last_app_nonempty in Hdep by discriminate.
  repeat split; auto.
Qed.

(** Started from a name of the closed set, the search of [findCycle]
    stops at its first root with a cycle. *)
Lemma findCycle_from_closed (r : Seeder Ctx Output App)
  (rest : list (Seeder Ctx Output App)) :
  B (name r) ->
  exists cycle,
    findCycle (r :: rest) sm = Some cycle /\ is_cycle seeders cycle.
Proof.
  intros HB. unfold findCycle. cbn [find_from].
  set (st0 := {| visited := []; path := []; cycleStart := (-1)%Z |}).
  assert (Hf : unvisited seeders (visited st0) < S (length sm)).
  { unfold unvisited. apply Nat.lt_succ_r.
    eapply Nat.le_trans; [apply filter_length_le|].
    unfold OMap.keys. rewrite length_map. apply Nat.le_refl. }
  assert (Hinv : dfs_inv seeders B st0)
    by (split; simpl; [intros x [] | intros x [] | exact I | constructor]).
  destruct (dfs_ok (S (length sm)) (name r) st0 Hf Hinv (or_introl eq_refl))
    as ([b st] & Hrun & _ & Hpost).
  rewrite Hrun. simpl in Hpost. destruct b.
  - destruct (found_is_cycle st Hpost) as [Hge Hcyc].
    rewrite (proj2 (Z.leb_le _ _) Hge). eauto.
  - destruct Hpost as (_ & _ & HnB). contradiction.
Qed.

End DepthFirst.

(* ================================================================== *)
(** ** Cycles reported by the resolver *)

Section CycleReport.
Context {Ctx Output App : Type}.
Variable seeders : list (Seeder Ctx Output App).

Let edge := depends_on seeders.

Lemma rt_then_t (a b c : string) :
  clos_refl_trans string edge a b -> clos_trans string edge b c ->
  clos_trans string edge a c.
Proof.
  intros H. revert c. induction H as [a b H | a | a b b' _ IH1 _ IH2]; intros c Hc.
  - eapply t_trans; [apply t_step; exact H | exact Hc].
  - exact Hc.
  - apply IH1, IH2, Hc.
Qed.

Lemma t_then_rt (a b c : string) :
  clos_trans string edge a b -> clos_refl_trans string edge b c ->
  clos_trans string edge a c.
Proof.
  intros Hab H. revert a Hab.
  induction H as [b c H | b | b c c' _ IH1 _ IH2]; intros a Hab.
  - eapply t_trans; [exact Hab | apply t_step; exact H].
  - exact Hab.
  - apply IH2, IH1, Hab.
Qed.

Lemma t_rt (a b : string) :
  clos_trans string edge a b -> clos_refl_trans string edge a b.
Proof.
  induction 1 as [a b H | a b c _ IH1 _ IH2];
    [now apply rt_step | eapply rt_trans; eauto].
Qed.

Lemma chain_reach (a : string) (l : list string) (b : string) :
  chain seeders (a :: l) -> In b l -> clos_trans string edge a b.
Proof.
  revert a; induction l as [|x r IH]; intros a Hch Hb; [destruct Hb|].
  simpl in Hch. destruct Hch as [Hax Hr].
  destruct Hb as [<-|Hb]; [now apply t_step|].
  eapply t_trans; [apply t_step; exact Hax | now apply IH].
Qed.

Lemma last_In (l : list string) (d : string) : l <> [] -> In (last l d) l.
Proof.
  induction l as [|a r IH]; [congruence|]. intros _.
  destruct r as [|b r']; [simpl; auto|].
  right. apply IH. discriminate.
Qed.

(** Every member of a reported cycle depends, through declared
    dependencies, on itself. *)
Lemma is_cycle_member (l : list string) (m : string) :
  is_cycle seeders l -> In m l -> clos_trans string edge m m.
Proof.
  destruct l as [|first t]; [intros []|].
  intros (Hch & Hclose & _) Hm.
  assert (Hfm : clos_refl_trans string edge first m).
  { destruct Hm as [<-|Hm]; [apply rt_refl|].
    apply t_rt. now apply chain_reach with (l := t). }
  assert (Hml : clos_refl_trans string edge m (last (first :: t) first)).
  { apply in_split in Hm as (l1 & l2 & E).
    destruct l2 as [|y l2'].
    - rewrite E, last_last. apply rt_refl.
    - apply t_rt. rewrite E in Hch |- *.
      apply chain_app_inv in Hch as [_ Hch].
      apply chain_reach with (l := y :: l2'); [exact Hch|].
      rewrite last_app_nonempty by discriminate.
      change (last (m :: y :: l2') first) with (last (y :: l2') first).
      apply last_In. discriminate. }
  eapply rt_then_t; [exact Hml|].
  eapply t_then_rt; [apply t_step; exact Hclose | exact Hfm].
Qed.

End CycleReport.

(* ================================================================== *)
(** ** The resolver always answers *)

Section Termination.
Context {Ctx Output App : Type}.
Variable seeders : list (Seeder Ctx Output App).

Let sm := build_seederMap seeders.

Lemma find_from_total (todo : list (Seeder Ctx Output App)) (seen : list string) :
  exists r, find_from (S (length sm)) sm todo seen = Some r.
Proof.
  revert seen; induction todo as [|s rest IH]; intros seen; cbn [find_from]; [eauto|].
  set (st0 := {| visited := seen; path := []; cycleStart := (-1)%Z |}).
  assert (Hf : unvisited seeders (visited st0) < S (length sm)).
  { unfold unvisited. apply Nat.lt_succ_r.
    eapply Nat.le_trans; [apply filter_length_le|].
    unfold OMap.keys. rewrite length_map. apply Nat.le_refl. }
  assert (Hinv : dfs_inv seeders (fun _ => False) st0)
    by (split; simpl; [intros x _ [] | intros x [] | exact I | constructor]).
  destruct (dfs_ok seeders (fun _ => False) ltac:(intros u [])
              (S (length sm)) (name s) st0 Hf Hinv (or_introl eq_refl))
    as ([b st] & Hrun & _).
  fold sm in Hrun. rewrite Hrun. destruct b; [eauto | apply IH].
Qed.

Lemma findCycle_total (remaining : list (Seeder Ctx Output App)) :
  exists cycle, findCycle remaining sm = Some cycle.
Proof.
  unfold findCycle. destruct (find_from_total remaining []) as ([c|] & ->); eauto.
Qed.

Lemma resolveDependencyOrder_terminates :
  exists r, resolveDependencyOrder seeders = Some r.
Proof.
  unfold resolveDependencyOrder.
  destruct (validate _ seeders) as [[u d]|]; [eauto|].
  destruct (kahn_order_general seeders) as (result & -> & _).
  destruct (length result =? length seeders)%nat; [eauto|].
  destruct (findCycle_total
              (filter (fun s => negb (includes result (name s))) seeders))
    as (cycle & Hc).
  fold sm. rewrite Hc. eauto.
Qed.

End Termination.

(* ================================================================== *)
(** ** Checking a concrete registry *)

Section Checkers.
Context {Ctx Output App : Type}.
Implicit Types (seeders : list (Seeder Ctx Output App)).

Lemma nodupb_NoDup (l : list string) : nodupb l = true -> NoDup l.
Proof.
  induction l as [|x r IH]; simpl; intros H; [constructor|].
  apply andb_true_iff in H as [H1 H2]. constructor; auto.
  now apply includes_false, negb_true_iff.
Qed.

Lemma deps_presentb_ok seeders :
  deps_presentb seeders = true -> deps_present seeders.
Proof.
  unfold deps_presentb, deps_present. rewrite forallb_forall.
  intros H s d Hs Hd. specialize (H s Hs). rewrite forallb_forall in H.
  now apply includes_In, H.
Qed.

Lemma respects_acyclic (order : list string) seeders :
  respects order seeders = true -> acyclic seeders.
Proof.
  unfold respects. rewrite forallb_forall. intros H.
  assert (Hedge : forall u d, depends_on seeders u d -> strictly_before order d u).
  { intros u d (s & Hs & <- & Hd). specialize (H s Hs).
    rewrite forallb_forall in H. specialize (H d Hd).
    destruct (indexOf order d) as [j|] eqn:Ej; [|discriminate].
    destruct (indexOf order (name s)) as [i|] eqn:Ei; [|discriminate].
    exists j, i. split; [exact Ej|]. split; [exact Ei|].
    now apply Nat.ltb_lt. }
  assert (Hreach : forall u v, clos_trans string (depends_on seeders) u v ->
                               strictly_before order v u).
  { induction 1 as [u v Hs | u w v _ IH1 _ IH2]; [auto|].
    destruct IH1 as (j1 & i1 & Hw & Hu & H1), IH2 as (j2 & i2 & Hv & Hw' & H2).
    rewrite Hw in Hw'. inversion Hw'; subst.
    exists j2, i1. repeat split; auto. lia. }
  intros n Hn. destruct (Hreach n n Hn) as (j & i & Hj & Hi & Hlt).
  rewrite Hj in Hi. inversion Hi. lia.
Qed.

End Checkers.

(* ================================================================== *)
(** ** Properties of [resolveDependencyOrder] *)

(** C1. On a registry with unique names, all dependency names present and
    an acyclic dependency graph, [resolveDependencyOrder] returns an order
    that holds every unit's name exactly once and in which every unit
    stands strictly after each name of its dependency list. *)
Theorem C1_order_respects_dependencies {Ctx Output App : Type}
  (seeders : list (Seeder Ctx Output App)) :
  unique_names seeders -> deps_present seeders -> acyclic seeders ->
  exists order,
    resolveDependencyOrder seeders = Some (Returned order) /\
    Permutation order (map name seeders) /\
    (forall s, In s seeders -> count_occ string_dec order (name s) = 1) /\
    (forall s d, In s seeders -> In d (dependsOn s) ->
                 strictly_before order d (name s)).
Proof.
  intros Hu Hp Ha.
  destruct (resolve_well_formed_acyclic seeders Hu Hp Ha)
    as (order & Hres & Hnd & Hperm & Hprec).
  exists order. repeat split; auto.
  intros s Hs. apply NoDup_count_occ'; [exact Hnd|].
  apply Permutation_in with (l := map name seeders);
    [now apply Permutation_sym | now apply in_map].
Qed.

Lemma C1_witness :
  exists order,
    resolveDependencyOrder Demo.complex = Some (Returned order) /\
    Permutation order (map name Demo.complex) /\
    (forall s, In s Demo.complex -> count_occ string_dec order (name s) = 1) /\
    (forall s d, In s Demo.complex -> In d (dependsOn s) ->
                 strictly_before order d (name s)).
Proof.
  apply (C1_order_respects_dependencies Demo.complex).
  - apply nodupb_NoDup. vm_compute. reflexivity.
  - apply deps_presentb_ok. vm_compute. reflexivity.
  - apply (respects_acyclic
             ["seederF"; "seederA"; "seederC"; "seederB"; "seederD"; "seederE"]).
    vm_compute. reflexivity.
Defined.

(** C4. Whenever some unit lists a name that no unit of the registry
    bears, [resolveDependencyOrder] raises [MissingDependencyError] naming a
    dependent unit and a name absent from the registry.  Nothing is assumed
    about cycles: the validation pass decides before any ordering, and the
    pair reported is the first absent name of the first unit that has one. *)
Theorem C4_missing_dependency_reported {Ctx Output App : Type}
  (seeders : list (Seeder Ctx Output App)) :
  (exists s d, In s seeders /\ In d (dependsOn s) /\ ~ In d (map name seeders)) ->
  exists before s after d,
    resolveDependencyOrder seeders =
      Some (Raised (MissingDependencyError (name s) d)) /\
    seeders = before ++ s :: after /\
    In d (dependsOn s) /\ ~ In d (map name seeders) /\
    (forall s' d', In s' before -> In d' (dependsOn s') -> In d' (map name seeders)).
Proof.
  intros (s0 & d0 & Hs0 & Hd0 & Habs).
  unfold resolveDependencyOrder.
  destruct (validate (build_seederMap seeders) seeders) as [[u d]|] eqn:Ev.
  - apply validate_Some in Ev as (before & s & after & Hsplit & Hn & Hd & Hh & Hb).
    exists before, s, after, d. rewrite Hn. repeat split; auto.
    + intros Hin. apply has_build_seederMap in Hin. congruence.
    + intros s' d' Hs' Hd'. apply has_build_seederMap. eauto.
  - exfalso. apply Habs. apply has_build_seederMap.
    exact (proj1 (validate_None _ _) Ev s0 d0 Hs0 Hd0).
Qed.

Lemma C4_witness :
  has_cycle Demo.cycle_and_ghost /\
  exists before s after d,
    resolveDependencyOrder Demo.cycle_and_ghost =
      Some (Raised (MissingDependencyError (name s) d)) /\
    Demo.cycle_and_ghost = before ++ s :: after /\
    In d (dependsOn s) /\ ~ In d (map name Demo.cycle_and_ghost) /\
    (forall s' d', In s' before -> In d' (dependsOn s') ->
                   In d' (map name Demo.cycle_and_ghost)).
Proof.
  split.
  - exists "A". apply t_trans with (y := "B"); apply t_step.
    + exists (Demo.unit_seeder "A" ["B"]). simpl. auto.
    + exists (Demo.unit_seeder "B" ["A"; "ghost"]). simpl. auto.
  - apply (C4_missing_dependency_reported Demo.cycle_and_ghost).
    exists (Demo.unit_seeder "B" ["A"; "ghost"]), "ghost". simpl.
    repeat split; auto. intros [H|[H|[]]]; discriminate.
Defined.

(** C5. On a registry with unique names and all dependency names present
    whose dependency graph has a cycle (a unit that lists itself included),
    [resolveDependencyOrder] raises [CircularDependencyError], and the list
    it carries is a cycle of declared dependencies: each member declares
    the next, the last declares the first, no name occurs twice, and so
    every member depends on itself through the graph. *)
Theorem C5_cycle_reported {Ctx Output App : Type}
  (seeders : list (Seeder Ctx Output App)) :
  unique_names seeders -> deps_present seeders -> has_cycle seeders ->
  exists cycle,
    resolveDependencyOrder seeders = Some (Raised (CircularDependencyError cycle)) /\
    is_cycle seeders cycle /\
    (forall m, In m cycle -> clos_trans string (depends_on seeders) m m).
Proof.
  intros Hu Hp Hcyc.
  destruct (kahn_order_final seeders Hu) as (f & final & Hrun & Hinv).
  pose proof (kahn_order_cycle_short seeders Hu f final Hcyc Hrun Hinv) as Hshort.
  set (B := fun u => In u (map name seeders) /\ ~ In u final).
  assert (HB : forall u, B u -> exists d, In d (deps_of seeders u) /\ B d).
  { intros u [Hin Hnot].
    destruct (left_out_declares seeders Hu Hp f final u Hinv Hin Hnot)
      as (d & Hd & Hdn & Hdf).
    exists d. split; [|split; assumption].
    now apply (depends_on_deps_of seeders Hu) in Hd. }
  destruct Hcyc as [n Hn].
  assert (Hleft : B n).
  { split; [|now apply (cycle_left_out seeders Hu f final n Hinv)].
    destruct (clos_trans_first seeders n n Hn) as (x & s & Hs & <- & _).
    now apply in_map. }
  unfold resolveDependencyOrder.
  rewrite (proj2 (validate_deps_present seeders) Hp), Hrun.
  rewrite (proj2 (Nat.eqb_neq _ _) Hshort).
  destruct (filter (fun s => negb (includes final (name s))) seeders)
    as [|r rest] eqn:Erem.
  - exfalso. destruct Hleft as [Hin Hnot].
    apply in_map_iff in Hin as (s & Hsn & Hs).
    assert (Hf : In s (filter (fun s => negb (includes final (name s))) seeders)).
    { apply filter_In; split; [assumption|].
      apply negb_true_iff, includes_false. now rewrite Hsn. }
    rewrite Erem in Hf. destruct Hf.
  - assert (Hr : B (name r)).
    { assert (Hf : In r (filter (fun s => negb (includes final (name s))) seeders))
        by (rewrite Erem; simpl; auto).
      apply filter_In in Hf as [Hrs Hrn].
      apply negb_true_iff, includes_false in Hrn.
      split; [now apply in_map | assumption]. }
    destruct (findCycle_from_closed seeders B HB r rest Hr) as (cycle & Hfc & Hic).
    rewrite Hfc. exists cycle. repeat split; auto.
    intros m Hm. eapply is_cycle_member; eauto.
Qed.

Lemma C5_witness :
  exists cycle,
    resolveDependencyOrder Demo.downstream_of_cycle =
      Some (Raised (CircularDependencyError cycle)) /\
    is_cycle Demo.downstream_of_cycle cycle /\
    (forall m, In m cycle ->
               clos_trans string (depends_on Demo.downstream_of_cycle) m m).
Proof.
  apply (C5_cycle_reported Demo.downstream_of_cycle).
  - apply nodupb_NoDup. vm_compute. reflexivity.
  - apply deps_presentb_ok. vm_compute. reflexivity.
  - exists "A". apply t_trans with (y := "B"); apply t_step.
    + exists (Demo.unit_seeder "A" ["B"]). simpl. auto.
    + exists (Demo.unit_seeder "B" ["A"]). simpl. auto.
Defined.

(** The cycle reported for [downstream_of_cycle] leaves the downstream
    unit out, and a unit that lists itself is reported alone. *)
Example cycle_excludes_downstream :
  resolveDependencyOrder Demo.downstream_of_cycle =
    Some (Raised (CircularDependencyError ["A"; "B"])) /\
  resolveDependencyOrder [Demo.unit_seeder "seederA" ["seederA"]] =
    Some (Raised (CircularDependencyError ["seederA"])).
Proof. split; vm_compute; reflexivity. Qed.

(** C7. The order [resolveDependencyOrder] returns is the order of Kahn's
    algorithm as the specification words it: in-degree of a unit is the
    length of its own dependency list, the ready-queue is seeded with the
    zero-in-degree units in registry order, the head is removed and
    newly-ready dependents are appended.  On every registry with unique
    names the ordering phase of the code and that algorithm produce the
    same list, whether or not it is complete. *)
Theorem C7_kahn_fifo_registry_order {Ctx Output App : Type}
  (seeders : list (Seeder Ctx Output App)) :
  (unique_names seeders -> kahn_order seeders = spec_kahn seeders) /\
  (forall order, resolveDependencyOrder seeders = Some (Returned order) ->
                 spec_kahn seeders = Some order).
Proof.
  split; [apply kahn_order_refines|].
  intros order Hres.
  destruct (resolve_Returned_inv seeders order Hres) as (_ & Hk & _ & Hu & _).
  now rewrite <- (kahn_order_refines seeders Hu).
Qed.

Lemma C7_witness :
  kahn_order Demo.ties = spec_kahn Demo.ties /\
  spec_kahn Demo.ties = Some ["b"; "a"; "d"; "c"].
Proof.
  split.
  - apply (proj1 (C7_kahn_fifo_registry_order Demo.ties)).
    apply nodupb_NoDup. vm_compute. reflexivity.
  - apply (proj2 (C7_kahn_fifo_registry_order Demo.ties)).
    vm_compute. reflexivity.
Defined.

(** C10. There is a registry with two different definitions under one
    name and an acyclic dependency graph on which the lookup map has fewer
    entries than the registry, the ordering phase emits fewer names than
    there are definitions, no unresolved definition is left for the search,
    which therefore falls back to the (empty) list of unresolved names, and
    [resolveDependencyOrder] raises [CircularDependencyError]. *)
Theorem C10_duplicate_names_reported_as_cycle :
  exists (seeders : list (Seeder unit unit unit)) s1 s2 result,
    In s1 seeders /\ In s2 seeders /\ s1 <> s2 /\ name s1 = name s2 /\
    acyclic seeders /\
    length (build_seederMap seeders) < length seeders /\
    kahn_order seeders = Some result /\
    length result < length seeders /\
    filter (fun s => negb (includes result (name s))) seeders = [] /\
    find_from (S (length (build_seederMap seeders))) (build_seederMap seeders) [] []
      = Some None /\
    findCycle [] (build_seederMap seeders) = Some [] /\
    resolveDependencyOrder seeders = Some (Raised (CircularDependencyError [])).
Proof.
  exists Demo.duplicated, Demo.first_a, Demo.second_a, ["base"; "a"].
  split; [simpl; auto|]. split; [simpl; auto|].
  split; [discriminate|]. split; [reflexivity|].
  split; [apply (respects_acyclic ["base"; "a"]); vm_compute; reflexivity|].
  split; [vm_compute; lia|].
  split; [vm_compute; reflexivity|].
  split; [vm_compute; lia|].
  repeat split; vm_compute; reflexivity.
Qed.

(* ================================================================== *)
(** ** One iteration of the engine's loop *)

Section EngineStep.
Context {Ctx Output App : Type}.
Variable config : InternalSeederConfig Ctx App.
Variables verbose continueOnFailure : bool.
Variable seederMap : OMap.t (Seeder Ctx Output App).
Variable ctx : Ctx.
Variable total : nat.

Lemma runs_of_app (a b : list (Event Output)) : runs_of (a ++ b) = runs_of a ++ runs_of b.
Proof. unfold runs_of. apply flat_map_app. Qed.

Lemma nth_error_middle {A : Type} (l : list A) (x : A) (r : list A) :
  nth_error (l ++ x :: r) (length l) = Some x.
Proof. induction l; simpl; auto. Qed.

Lemma store_middle (l : list (SeederResult Output)) (x y : SeederResult Output)
  (r : list (SeederResult Output)) :
  store (length l) y (l ++ x :: r) = l ++ y :: r.
Proof. induction l; simpl; congruence. Qed.

Lemma run_one_shape (nm : string) (st : LoopState Output App)
  (done : list (SeederResult Output)) (rest : list string) :
  st_results st = done ++ map pending_result (nm :: rest) ->
  step_shape config continueOnFailure seederMap ctx (length done) nm st done rest
    (run_one config verbose continueOnFailure seederMap ctx total (length done) nm st).
Proof.
  intros Hframe. unfold run_one. simpl in Hframe.
  rewrite Hframe, nth_error_middle.
  destruct (String.eqb_spec nm EmptyString) as [->|Hnm].
  { apply shape_passed_over. auto. }
  destruct (OMap.get seederMap nm) as [seeder|] eqn:Eget.
  2: { apply shape_passed_over. auto. }
  destruct (continueOnFailure
            && existsb (includes (st_failedSeeders st)) (dependsOn seeder)) eqn:Eskip.
  - apply andb_true_iff in Eskip as [Ec Ed].
    rewrite store_middle.
    apply shape_skipped with (seeder := seeder); auto.
    destruct verbose; reflexivity.
  - fold (entered config nm st).
    destruct (run seeder ctx (build_deps (st_outputs st) (dependsOn seeder))
                (entered config nm st)) as [[out|reason] w2] eqn:Erun.
    + rewrite store_middle. rewrite <- app_assoc.
      apply shape_completed with (seeder := seeder); auto.
      rewrite !runs_of_app. destruct verbose; reflexivity.
    + rewrite store_middle. rewrite <- app_assoc.
      apply shape_failed with (seeder := seeder); auto.
      rewrite !runs_of_app. destruct verbose; reflexivity.
Qed.

(** A rule for the loop: [P] holds of the processed entries while the
    loop goes on, [Q] when it stops, by exhaustion or by [break]. *)
Lemma run_loop_rule
  (P : list (SeederResult Output) -> LoopState Output App -> Prop)
  (Q : list (SeederResult Output) -> list string -> LoopState Output App -> Prop) :
  (forall done nm rest st fl st',
      P done st ->
      st_results st = done ++ map pending_result (nm :: rest) ->
      step_shape config continueOnFailure seederMap ctx (length done) nm st done rest (fl, st') ->
      exists e, st_results st' = done ++ e :: map pending_result rest /\
                r_name e = nm /\
                match fl with
                | Next => P (done ++ [e]) st'
                | Break => Q (done ++ [e]) rest st'
                end) ->
  (forall done st, P done st -> st_results st = done -> Q done [] st) ->
  forall names done st,
    P done st ->
    st_results st = done ++ map pending_result names ->
    exists done' rest',
      let st' := run_loop config verbose continueOnFailure seederMap ctx total
                   (length done) names st in
      Q done' rest' st' /\
      st_results st' = done' ++ map pending_result rest' /\
      map r_name done' ++ rest' = map r_name done ++ names.
Proof.
  intros Hstep Hend names. induction names as [|nm rest IH]; intros done st HP Hframe.
  - simpl in *. rewrite app_nil_r in Hframe.
    exists done, []. simpl. rewrite app_nil_r. auto.
  - simpl.
    pose proof (run_one_shape nm st done rest Hframe) as Hshape.
    destruct (run_one config verbose continueOnFailure seederMap ctx total
                (length done) nm st) as [fl st'] eqn:Eone.
    destruct (Hstep done nm rest st fl st' HP Hframe Hshape) as (e & Hres & Hname & Hfl).
    destruct fl.
    + assert (Hframe' : st_results st' = (done ++ [e]) ++ map pending_result rest)
        by (rewrite Hres, <- app_assoc; reflexivity).
      destruct (IH (done ++ [e]) st' Hfl Hframe') as (done' & rest' & HQ & Hr & Hn).
      rewrite length_app in HQ, Hr; simpl in HQ, Hr.
      rewrite Nat.add_1_r in HQ, Hr.
      exists done', rest'. repeat split; auto.
      rewrite Hn, map_app, <- app_assoc. simpl. now rewrite Hname.
    + exists (done ++ [e]), rest. repeat split; auto.
      * rewrite Hres, <- app_assoc. reflexivity.
      * rewrite map_app, <- app_assoc. simpl. now rewrite Hname.
Qed.

End EngineStep.

(* ================================================================== *)
(** ** The engine as a whole *)

Section EngineRun.
Context {Ctx Output App : Type}.
Implicit Types (seeders : list (Seeder Ctx Output App))
               (config : InternalSeederConfig Ctx App)
               (options : RunSeedersOptions) (w : World App).

Lemma runSeedersCore_returned seeders config options w order :
  resolveDependencyOrder seeders = Some (Returned order) ->
  let st := loop_end seeders config options w order in
  runSeedersCore seeders config options w =
  Some ({| results := st_results st;
           success := Nat.eqb (count_failed (st_results st)) 0 |},
        call_hook (onAfterAll config) (st_world st),
        st_trace st ++ (if option_default true (printResults options)
                        then [EvResults (st_results st)] else [])).
Proof.
  intros Hres. unfold runSeedersCore, loop_end, loop_start. rewrite Hres.
  destruct (context config (call_hook (onBeforeAll config) w)) as [ctx w1].
  reflexivity.
Qed.

Lemma runSeedersCore_raised seeders config options w e :
  resolveDependencyOrder seeders = Some (Raised e) ->
  runSeedersCore seeders config options w =
  Some ({| results := []; success := false |},
        call_hook (onAfterAll config) (call_hook (onBeforeAll config) w),
        (if option_default true (verbose options) then [EvStartBanner] else [])
        ++ [EvConsoleError "Failed to resolve seeder dependencies:";
            EvConsoleError ("   " ++ error_message e)%string]).
Proof. intros Hres. unfold runSeedersCore. rewrite Hres. reflexivity. Qed.

(** The engine always hands a result back. *)
Lemma runSeedersCore_total seeders config options w :
  exists res w' tr, runSeedersCore seeders config options w = Some (res, w', tr).
Proof.
  destruct (resolveDependencyOrder_terminates seeders) as ([order|e] & Hres).
  - rewrite (runSeedersCore_returned _ _ _ _ _ Hres). eauto.
  - rewrite (runSeedersCore_raised _ _ _ _ _ Hres). eauto.
Qed.

Lemma count_failed_zero (ledger : list (SeederResult Output)) :
  count_failed ledger = 0 <-> forall r, In r ledger -> status r <> failed.
Proof.
  unfold count_failed. induction ledger as [|a l IH]; simpl.
  - split; [intros _ r [] | reflexivity].
  - destruct (status a) eqn:E; simpl;
      try (rewrite IH; split;
           [intros H r [<-|Hr]; [congruence | auto] | intros H r Hr; auto]).
    split; [discriminate|]. intros H. exfalso. apply (H a); auto.
Qed.

Lemma pending_entry_ok nm :
  ledger_entry_ok (pending_result (Output := Output) nm).
Proof.
  unfold ledger_entry_ok; simpl.
  repeat split; try congruence; try discriminate; intros [H|H]; discriminate.
Qed.

Lemma loop_entries_ok seeders config options w order :
  Forall ledger_entry_ok (st_results (loop_end seeders config options w order)).
Proof.
  unfold loop_end.
  destruct (run_loop_rule config (option_default true (verbose options))
              (option_default false (continueOnFailure options))
              (build_seederMap seeders)
              (fst (context config (call_hook (onBeforeAll config) w)))
              (length order)
              (fun done _ => Forall ledger_entry_ok done)
              (fun done _ _ => Forall ledger_entry_ok done))
    with (names := order) (done := @nil (SeederResult Output))
         (st := loop_start (Output := Output) config options w order)
    as (done' & rest' & HQ & Hr & _).
  - intros done nm rest st fl st' HP Hframe Hshape.
    assert (Hadd : forall e, ledger_entry_ok e -> Forall ledger_entry_ok (done ++ [e]))
      by (intros e He; apply Forall_app; auto).
    inversion Hshape; subst.
    + exists (pending_result nm).
      split; [assumption|]; split; [reflexivity|]. apply Hadd, pending_entry_ok.
    + eexists; split; [reflexivity|]; split; [reflexivity|]. apply Hadd.
      unfold ledger_entry_ok; simpl.
      repeat split; try congruence; try discriminate; intros [H|H]; discriminate.
    + eexists; split; [reflexivity|]; split; [reflexivity|]. apply Hadd.
      unfold ledger_entry_ok; simpl.
      repeat split; try congruence; try discriminate; auto.
    + eexists; split; [reflexivity|]; split; [reflexivity|].
      assert (He : ledger_entry_ok
                     (failed_entry (Output := Output) nm
                        (Date_now w2 - Date_now (entered config nm st)) reason)).
      { unfold ledger_entry_ok; simpl.
        repeat split; try congruence; try discriminate; auto. }
      destruct (option_default false (continueOnFailure options)); apply Hadd, He.
  - auto.
  - constructor.
  - reflexivity.
  - simpl in *. rewrite Hr. apply Forall_app. split; [exact HQ|].
    apply Forall_forall. intros r Hin. apply in_map_iff in Hin as (nm & <- & _).
    apply pending_entry_ok.
Qed.

End EngineRun.

(* ================================================================== *)
(** ** Stop on the first failure *)

Section StopOnFailure.
Context {Ctx Output App : Type}.
Variable seeders : list (Seeder Ctx Output App).
Variable config : InternalSeederConfig Ctx App.
Variable options : RunSeedersOptions.
Variable w : World App.
Variable order : list string.
Hypothesis Hstop : option_default false (continueOnFailure options) = false.


End StopOnFailure.

(* ================================================================== *)
(** ** The run-active flag inside the loop *)

Section FlagInLoop.
Context {Ctx Output App : Type}.
Variable seeders : list (Seeder Ctx Output App).
Variable config : InternalSeederConfig Ctx App.
Variable options : RunSeedersOptions.
Variable w : World App.
Variable order : list string.

Hypothesis Hwork :
  forall s, In s seeders ->
    forall c d w0, isSeeding (snd (run s c d w0)) = isSeeding w0.
Hypothesis Hname :
  forall f, setSeederName config = Some f ->
    forall nm w0, isSeeding (f nm w0) = isSeeding w0.
Hypothesis Hstart :
  isSeeding (st_world (loop_start (Output := Output) config options w order)) = true.


End FlagInLoop.

(* ================================================================== *)
(** ** Properties of the engine *)

Lemma runs_of_results_event {Output : Type} (tr : list (Event Output))
  (b : bool) (ledger : list (SeederResult Output)) :
  runs_of (tr ++ (if b then [EvResults ledger] else [])) = runs_of tr.
Proof. rewrite runs_of_app. destruct b; simpl; now rewrite app_nil_r. Qed.

Lemma map_name_pending (l : list string) {Output : Type} :
  map r_name (map (pending_result (Output := Output)) l) = l.
Proof. induction l; simpl; congruence. Qed.



(** The run of "should stop on failure by default": the first unit fails,
    the second keeps its [pending] entry and is never run. *)
Example stop_on_failure_run :
  runSeedersCore DemoRun.stop_registry DemoRun.bare_config (DemoRun.quiet None)
    DemoRun.world0 =
  Some ({| results := DemoRun.stop_ledger; success := false |},
        DemoRun.world0, DemoRun.stop_trace).
Proof. vm_compute. reflexivity. Qed.



(** C8. Every run hands a ledger back in which an entry carries an
    output exactly when it is [completed], an error exactly when it is
    [failed], a duration exactly when it is [completed] or [failed], and is
    never left [running]; so [pending] and [skipped] entries carry none of
    the three. *)
Theorem C8_ledger_entry_fields {Ctx Output App : Type}
  (seeders : list (Seeder Ctx Output App)) (config : InternalSeederConfig Ctx App)
  (options : RunSeedersOptions) (w : World App) :
  exists (res : RunResult Output) w' tr,
    runSeedersCore seeders config options w = Some (res, w', tr) /\
    forall r, In r (results res) ->
      (output r <> None <-> status r = completed) /\
      (error r <> None <-> status r = failed) /\
      (durationMs r <> None <-> status r = completed \/ status r = failed) /\
      status r <> running /\
      (status r = pending \/ status r = skipped ->
       output r = None /\ error r = None /\ durationMs r = None).
Proof.
  assert (Hfields : forall r : SeederResult Output, ledger_entry_ok r ->
            (output r <> None <-> status r = completed) /\
            (error r <> None <-> status r = failed) /\
            (durationMs r <> None <-> status r = completed \/ status r = failed) /\
            status r <> running /\
            (status r = pending \/ status r = skipped ->
             output r = None /\ error r = None /\ durationMs r = None)).
  { intros r (Ho & He & Hd & Hrn).
    repeat split; try apply Ho; try apply He; try apply Hd; auto.
    - destruct (output r) eqn:E; [|reflexivity].
      assert (Hc : status r = completed) by (apply Ho; discriminate).
      destruct H; congruence.
    - destruct (error r) eqn:E; [|reflexivity].
      assert (Hc : status r = failed) by (apply He; discriminate).
      destruct H; congruence.
    - destruct (durationMs r) eqn:E; [|reflexivity].
      assert (Hc : status r = completed \/ status r = failed)
        by (apply Hd; discriminate).
      destruct H, Hc; congruence. }
  destruct (resolveDependencyOrder_terminates seeders) as ([order|err] & Hres).
  - rewrite (runSeedersCore_returned _ _ _ _ _ Hres).
    do 3 eexists. split; [reflexivity|]. simpl. intros r Hr. apply Hfields.
    pose proof (loop_entries_ok seeders config options w order) as Hall.
    rewrite Forall_forall in Hall. now apply Hall.
  - rewrite (runSeedersCore_raised _ _ _ _ _ Hres).
    do 3 eexists. split; [reflexivity|]. intros r [].
Qed.

Lemma C8_witness :
  exists (res : RunResult unit) w' tr,
    runSeedersCore DemoRun.skip_registry DemoRun.bare_config
      (DemoRun.quiet (Some true)) DemoRun.world0 = Some (res, w', tr) /\
    forall r, In r (results res) ->
      (output r <> None <-> status r = completed) /\
      (error r <> None <-> status r = failed) /\
      (durationMs r <> None <-> status r = completed \/ status r = failed) /\
      status r <> running /\
      (status r = pending \/ status r = skipped ->
       output r = None /\ error r = None /\ durationMs r = None).
Proof.
  apply (C8_ledger_entry_fields DemoRun.skip_registry DemoRun.bare_config
           (DemoRun.quiet (Some true)) DemoRun.world0).
Defined.



(** The run of the "stop on failure" registry through a seeder instance:
    the failing unit's work is entered with the flag set, the run stops
    early, and the flag is cleared when the ledger comes back. *)
Example flag_in_stopped_run :
  runSeeders DemoRun.instance_config DemoRun.stop_registry (DemoRun.quiet None)
    DemoRun.world0 =
  Some ({| results := DemoRun.stop_ledger; success := false |},
        {| isSeeding := false; clock := 0%Z; currentSeederName := "seederA"; app := tt |},
        [EvRun 0 "seederA" true false]).
Proof. vm_compute. reflexivity. Qed.

(** C3, at a unit whose name is the empty string.  With
    [continueOnFailure] true, unit A failing, the empty-named unit
    depending on A and unit Z depending on the empty-named unit: the guard
    [!name] passes the empty-named unit over, so it stays [pending] instead
    of [skipped], its name does not enter the failed-set, and Z is run
    although its ancestor A failed.  With the name B in place of the empty
    name, both dependents are [skipped]. *)
Theorem C3_empty_name_passed_over :
  (exists w' tr,
     runSeedersCore DemoRun.empty_name_registry DemoRun.bare_config
       (DemoRun.quiet (Some true)) DemoRun.world0
     = Some ({| results := [failed_entry "A" 0 (ThrownError "Failed!");
                            pending_result EmptyString;
                            completed_entry "Z" 0 tt];
                success := false |}, w', tr) /\
     runs_of tr = [(0, "A", false, false); (2, "Z", false, true)]) /\
  (exists w' tr,
     runSeedersCore DemoRun.named_registry DemoRun.bare_config
       (DemoRun.quiet (Some true)) DemoRun.world0
     = Some ({| results := [failed_entry "A" 0 (ThrownError "Failed!");
                            skipped_entry "B";
                            skipped_entry "Z"];
                success := false |}, w', tr) /\
     runs_of tr = [(0, "A", false, false)]).
Proof.
  split; do 2 eexists; split; vm_compute; reflexivity.
Qed.

(* ================================================================== *)
(** ** Continue past failed branches *)

Lemma resolve_Returned_precedes {Ctx Output App : Type}
  (seeders : list (Seeder Ctx Output App)) (order : list string) :
  resolveDependencyOrder seeders = Some (Returned order) ->
  NoDup order /\
  forall s d, In s seeders -> In d (dependsOn s) -> strictly_before order d (name s).
Proof.
  intros Hres.
  destruct (resolve_Returned_inv seeders order Hres) as (_ & Hk & _ & Hu & Hperm).
  destruct (kahn_order_final seeders Hu) as (f & final & Hrun & Hinv).
  rewrite Hk in Hrun. inversion Hrun; subst final.
  split.
  - pose proof (inv_nodup _ _ _ _ Hinv) as H. now rewrite app_nil_r in H.
  - intros s d Hs Hd. apply (inv_order _ _ _ _ Hinv).
    + apply Permutation_in with (l := map name seeders);
        [now apply Permutation_sym | now apply in_map].
    + now rewrite deps_of_unique.
Qed.

Section ContinueOnFailure.
Context {Ctx Output App : Type}.
Variable seeders : list (Seeder Ctx Output App).
Variable config : InternalSeederConfig Ctx App.
Variable options : RunSeedersOptions.
Variable w : World App.
Variable order : list string.
Hypothesis Hcont : option_default false (continueOnFailure options) = true.

Lemma blocked_by_failed_set (done : list (SeederResult Output))
  (st : LoopState Output App) (s : Seeder Ctx Output App) :
  (forall x, In x (st_failedSeeders st) <->
             exists e, In e done /\ r_name e = x /\ stops_dependents e) ->
  existsb (includes (st_failedSeeders st)) (dependsOn s) = true <-> blocked_by done s.
Proof.
  intros Hf. rewrite existsb_exists. unfold blocked_by. split.
  - intros (d & Hd & Hin). apply includes_In, Hf in Hin as (e & He & Hn & Hb).
    exists d, e. auto.
  - intros (d & e & Hd & He & Hn & Hb). exists d. split; [assumption|].
    apply includes_In, Hf. eauto.
Qed.

Lemma firstn_snoc_below {A : Type} (l : list A) (x : A) (j : nat) :
  j <= length l -> firstn j (l ++ [x]) = firstn j l.
Proof.
  intros H. rewrite firstn_app.
  replace (j - length l) with 0 by lia. simpl. apply app_nil_r.
Qed.

(** Extending the ledger by the entry at the next position. *)
Lemma policy_inv_extend (done : list (SeederResult Output))
  (st st' : LoopState Output App) (e0 : SeederResult Output)
  (new_runs : list (nat * string * bool * bool)) :
  policy_inv seeders done st ->
  runs_of (st_trace st') = runs_of (st_trace st) ++ new_runs ->
  (forall r, In r new_runs -> exists a ok, r = (length done, r_name e0, a, ok)) ->
  (forall x, In x (st_failedSeeders st') <->
             (In x (st_failedSeeders st) \/ (x = r_name e0 /\ stops_dependents e0))) ->
  (r_name e0 <> EmptyString ->
   forall s, OMap.get (build_seederMap seeders) (r_name e0) = Some s ->
             follows_policy done (runs_of (st_trace st')) (length done) e0 s) ->
  policy_inv seeders (done ++ [e0]) st'.
Proof.
  intros [Hf Hr He] Hruns Hnew Hfs Hlast. split.
  - intros x. rewrite Hfs, Hf. split.
    + intros [(e & Hin & Hn & Hb) | [-> Hb]];
        [exists e | exists e0]; repeat split; auto; apply in_or_app; simpl; auto.
    + intros (e & Hin & Hn & Hb). apply in_app_iff in Hin as [Hin|[<-|[]]]; eauto.
  - intros j n a ok Hin. rewrite Hruns in Hin. rewrite length_app; simpl.
    apply in_app_iff in Hin as [Hin|Hin].
    + specialize (Hr _ _ _ _ Hin). lia.
    + destruct (Hnew _ Hin) as (a' & ok' & E). inversion E; subst. lia.
  - intros j e s Hnth Hne Hget.
    destruct (Nat.lt_ge_cases j (length done)) as [Hlt|Hge].
    + rewrite nth_error_app1 in Hnth by assumption.
      rewrite firstn_snoc_below by lia.
      destruct (He j e s Hnth Hne Hget) as [Hb Hnb]. split.
      * intros Hbl. destruct (Hb Hbl) as [Hs Hno]. split; [assumption|].
        intros a ok Hin. rewrite Hruns in Hin.
        apply in_app_iff in Hin as [Hin|Hin]; [exact (Hno a ok Hin)|].
        destruct (Hnew _ Hin) as (a' & ok' & E). inversion E; subst. lia.
      * intros Hbl. destruct (Hnb Hbl) as (a & ok & Hin & Hs).
        exists a, ok. split; [|assumption]. rewrite Hruns. apply in_or_app. auto.
    + rewrite nth_error_app2 in Hnth by assumption.
      destruct (j - length done) as [|m] eqn:Ej; simpl in Hnth.
      * inversion Hnth; subst e. assert (j = length done) by lia. subst j.
        rewrite firstn_snoc_below, firstn_all by lia. now apply Hlast.
      * destruct m; discriminate.
Qed.

Lemma loop_continue_policy :
  let st := loop_end seeders config options w order in
  policy_inv seeders (st_results st) st /\ map r_name (st_results st) = order.
Proof.
  unfold loop_end. rewrite Hcont.
  destruct (run_loop_rule config (option_default true (verbose options)) true
              (build_seederMap seeders)
              (fst (context config (call_hook (onBeforeAll config) w)))
              (length order)
              (policy_inv seeders)
              (fun done rest st => policy_inv seeders done st /\ rest = []))
    with (names := order) (done := @nil (SeederResult Output))
         (st := loop_start (Output := Output) config options w order)
    as (done' & rest' & [HQ ->] & Hr & Hn).
  - intros done nm rest st fl st' Hinv Hframe Hshape.
    inversion Hshape as [Hpass | seeder evs Hne Hget Hc Hex Hev
                        | seeder evs out w2 Hne Hget Hsk Hrun Hev
                        | seeder evs reason w2 Hne Hget Hsk Hrun Hev]; subst.
    + exists (pending_result nm). split; [assumption|]. split; [reflexivity|].
      apply policy_inv_extend with (st := st') (new_runs := []); auto.
      * now rewrite app_nil_r.
      * intros r [].
      * intros x. simpl. split; [auto|].
        intros [H|[_ [H|H]]]; [assumption | discriminate | discriminate].
      * simpl. intros Hne s Hget. destruct Hpass; congruence.
    + eexists. split; [reflexivity|]. split; [reflexivity|].
      eapply policy_inv_extend with (new_runs := []); eauto.
      * simpl. now rewrite runs_of_app, Hev.
      * intros r [].
      * intros x. simpl. rewrite set_add_In. unfold stops_dependents; simpl.
        intuition.
      * simpl. intros _ s Hget'. rewrite Hget in Hget'. inversion Hget'; subst s.
        rewrite runs_of_app, Hev, app_nil_r.
        pose proof (proj1 (blocked_by_failed_set done st seeder (pi_failed _ _ _ Hinv)) Hex)
          as Hbl.
        split; [|intros Hn; contradiction].
        intros _. split; [reflexivity|].
        intros a ok Hin. apply (pi_runs _ _ _ Hinv) in Hin. lia.
    + eexists. split; [reflexivity|]. split; [reflexivity|].
      eapply policy_inv_extend
        with (new_runs := [(length done, nm, isSeeding (entered config nm st), true)]);
        eauto.
      * simpl. now rewrite runs_of_app, Hev.
      * intros r [<-|[]]. simpl. eauto.
      * intros x. simpl. unfold stops_dependents; simpl. split; [auto|].
        intros [H|[_ [H|H]]]; [assumption | discriminate | discriminate].
      * simpl. intros _ s Hget'. rewrite Hget in Hget'. inversion Hget'; subst s.
        rewrite runs_of_app, Hev. simpl in Hsk.
        split.
        -- intros Hbl.
           apply (blocked_by_failed_set done st seeder (pi_failed _ _ _ Hinv)) in Hbl.
           congruence.
        -- intros _. exists (isSeeding (entered config nm st)), true.
           split; [apply in_or_app; simpl; auto | reflexivity].
    + eexists. split; [reflexivity|]. split; [reflexivity|].
      eapply policy_inv_extend
        with (new_runs := [(length done, nm, isSeeding (entered config nm st), false)]);
        eauto.
      * simpl. now rewrite runs_of_app, Hev.
      * intros r [<-|[]]. simpl. eauto.
      * intros x. simpl. rewrite set_add_In. unfold stops_dependents; simpl.
        intuition.
      * simpl. intros _ s Hget'. rewrite Hget in Hget'. inversion Hget'; subst s.
        rewrite runs_of_app, Hev. simpl in Hsk.
        split.
        -- intros Hbl.
           apply (blocked_by_failed_set done st seeder (pi_failed _ _ _ Hinv)) in Hbl.
           congruence.
        -- intros _. exists (isSeeding (entered config nm st)), false.
           split; [apply in_or_app; simpl; auto | reflexivity].
  - intros done st HP _. auto.
  - split; simpl.
    + intros x. split; [intros [] | intros (e & [] & _)].
    + intros j n a ok Hin. destruct (option_default true (verbose options));
        simpl in Hin; destruct Hin.
    + intros j e s Hnth. destruct j; discriminate.
  - reflexivity.
  - simpl in *. rewrite app_nil_r in Hr, Hn. rewrite Hr. auto.
Qed.

End ContinueOnFailure.

Lemma indexOf_nth_NoDup (l : list string) (j : nat) (x : string) :
  NoDup l -> nth_error l j = Some x -> indexOf l x = Some j.
Proof.
  revert j; induction l as [|y r IH]; intros j Hnd Hnth; [destruct j; discriminate|].
  inversion Hnd as [|? ? Hy Hr]; subst. destruct j as [|j]; simpl in *.
  - inversion Hnth; subst. now rewrite String.eqb_refl.
  - destruct (String.eqb_spec y x) as [->|Hne].
    + exfalso. apply Hy. eapply nth_error_In; eauto.
    + now rewrite (IH j Hr Hnth).
Qed.

Lemma count_failed_pos {Output : Type} (ledger : list (SeederResult Output)) :
  count_failed ledger <> 0 <-> exists e, In e ledger /\ status e = failed.
Proof.
  split.
  - unfold count_failed. intros H.
    destruct (filter _ ledger) as [|e r] eqn:E; [simpl in H; congruence|].
    assert (Hin : In e (filter (fun r => SeederStatus_eqb (status r) failed) ledger))
      by (rewrite E; simpl; auto).
    apply filter_In in Hin as [Hin Hs]. exists e. split; [assumption|].
    destruct (status e); simpl in Hs; congruence.
  - intros (e & Hin & Hs) Hz. apply count_failed_zero with (r := e) in Hz; auto.
Qed.

(** X12. With [continueOnFailure] true the loop never breaks, and the ledger
    follows the skip policy at every unit whose name is not empty: a unit
    one of whose declared dependencies is failed or skipped is skipped and
    its work is not called; any other unit is run and is completed or
    failed by the outcome of the call; [success] is false exactly when
    some entry is failed. *)
Lemma continue_on_failure_policy {Ctx Output App : Type}
  (seeders : list (Seeder Ctx Output App)) (config : InternalSeederConfig Ctx App)
  (options : RunSeedersOptions) (w w' : World App)
  (res : RunResult Output) (tr : list (Event Output)) (order : list string) :
  option_default false (continueOnFailure options) = true ->
  runSeedersCore seeders config options w = Some (res, w', tr) ->
  resolveDependencyOrder seeders = Some (Returned order) ->
  map r_name (results res) = order /\
  (success res = false <-> exists e, In e (results res) /\ status e = failed) /\
  forall i e s,
    nth_error (results res) i = Some e -> r_name e <> EmptyString ->
    In s seeders -> name s = r_name e ->
    follows_policy (results res) (runs_of tr) i e s.
Proof.
  intros Hcont Hrun Hres.
  rewrite (runSeedersCore_returned _ _ _ _ _ Hres) in Hrun.
  inversion Hrun; subst; clear Hrun. simpl.
  rewrite runs_of_results_event.
  destruct (loop_continue_policy seeders config options w order Hcont) as [Hinv Hnames].
  simpl in Hinv, Hnames.
  set (st := loop_end seeders config options w order) in *.
  split; [assumption|]. split.
  { rewrite Nat.eqb_neq. apply count_failed_pos. }
  intros i e s Hnth Hne Hs Hname.
  destruct (resolve_Returned_inv seeders _ Hres) as (_ & _ & _ & Hu & _).
  destruct (resolve_Returned_precedes seeders _ Hres) as [Hnd Hprec].
  assert (Hget : OMap.get (build_seederMap seeders) (r_name e) = Some s)
    by (rewrite get_build_seederMap, <- Hname; now apply seeder_named_unique).
  assert (Hbl : blocked_by (st_results st) s -> blocked_by (firstn i (st_results st)) s).
  { intros (d & e' & Hd & He' & Hn' & Hb). exists d, e'.
    repeat split; auto.
    apply In_nth_error in He' as [j Hj].
    assert (Hoj : nth_error (map r_name (st_results st)) j = Some d)
      by (rewrite <- Hn'; now apply map_nth_error).
    assert (Hoi : nth_error (map r_name (st_results st)) i = Some (name s))
      by (rewrite Hname; now apply map_nth_error).
    rewrite Hnames in Hoj, Hoi.
    apply indexOf_nth_NoDup in Hoj; [|assumption].
    apply indexOf_nth_NoDup in Hoi; [|assumption].
    destruct (Hprec s d Hs Hd) as (jd & js & Ejd & Ejs & Hlt).
    rewrite Hoj in Ejd. rewrite Hoi in Ejs.
    injection Ejd as <-. injection Ejs as <-.
    apply nth_error_In with (n := j). rewrite nth_error_firstn.
    destruct (Nat.ltb_spec j i); [assumption | lia]. }
  assert (Hbl' : blocked_by (firstn i (st_results st)) s -> blocked_by (st_results st) s).
  { intros (d & e' & Hd & He' & Hn' & Hb). exists d, e'. repeat split; auto.
    rewrite <- (firstn_skipn i (st_results st)). apply in_or_app. auto. }
  destruct (pi_entries _ _ _ Hinv i e s Hnth Hne Hget) as [H1 H2].
  split; [intros H; apply H1, Hbl, H | intros H; apply H2; intros H'; apply H, Hbl', H'].
Qed.

(** The run of [integration.test.ts] with a failing unit, a dependent of
    it and an independent unit. *)
Example skip_dependents_of_failed :
  exists w' tr,
    runSeedersCore DemoRun.skip_registry DemoRun.bare_config
      (DemoRun.quiet (Some true)) DemoRun.world0
    = Some ({| results := [failed_entry "seederA" 0 (ThrownError "Failed!");
                           completed_entry "seederC" 0 tt;
                           skipped_entry "seederB"];
               success := false |}, w', tr) /\
    runs_of tr = [(0, "seederA", false, false); (1, "seederC", false, true)].
Proof. do 2 eexists; split; vm_compute; reflexivity. Qed.

(* ================================================================== *)
(** ** Further properties of [resolveDependencyOrder] *)

Section ResolverOutcomes.
Context {Ctx Output App : Type}.
Implicit Types (seeders : list (Seeder Ctx Output App)).

(** An order in which every declared dependency stands before its
    dependent rules out a cycle. *)
Lemma precedence_acyclic seeders (order : list string) :
  (forall s d, In s seeders -> In d (dependsOn s) ->
               strictly_before order d (name s)) ->
  acyclic seeders.
Proof.
  intros Hprec.
  assert (Hreach : forall u v, clos_trans string (depends_on seeders) u v ->
                               strictly_before order v u).
  { induction 1 as [u v (s & Hs & <- & Hd) | u w v _ IH1 _ IH2]; [auto|].
    eapply strictly_before_trans; eauto. }
  intros n Hn. destruct (Hreach n n Hn) as (j & i & Hj & Hi & Hlt).
  rewrite Hj in Hi. inversion Hi. lia.
Qed.

(** When the ordering phase comes up short on a registry with unique
    names, some definition is left unresolved. *)
Lemma short_order_leaves_some seeders (final : list string) :
  unique_names seeders -> NoDup final -> incl final (map name seeders) ->
  length final <> length seeders ->
  filter (fun s => negb (includes final (name s))) seeders <> [].
Proof.
  intros Hu Hnd Hincl Hlen Hnil. apply Hlen.
  assert (Hall : incl (map name seeders) final).
  { intros x Hx. apply in_map_iff in Hx as (s & <- & Hs).
    destruct (includes final (name s)) eqn:E; [now apply includes_In|].
    assert (Hf : In s (filter (fun s => negb (includes final (name s))) seeders))
      by (apply filter_In; split; [assumption | now rewrite E]).
    rewrite Hnil in Hf. destruct Hf. }
  apply Nat.le_antisymm.
  - rewrite <- (length_map name seeders). now apply NoDup_incl_length.
  - rewrite <- (length_map name seeders). now apply NoDup_incl_length.
Qed.

(** The queue only grows at its end while the dependents of the current
    name are relaxed. *)
Lemma fold_decrement_queue (l : list string) (f : string -> Z) (q : list string) :
  exists added, snd (fold_left spec_decrement l (f, q)) = q ++ added.
Proof.
  revert f q; induction l as [|u r IH]; intros f q; simpl.
  - exists []. now rewrite app_nil_r.
  - unfold spec_decrement at 2; simpl.
    destruct (Z.eqb (f u - 1) 0).
    + destruct (IH (fun x => if String.eqb x u then (f u - 1)%Z else f x) (q ++ [u]))
        as (added & ->).
      exists (u :: added). now rewrite <- app_assoc.
    + apply IH.
Qed.

(** What is queued is emitted in queue order, right after what was
    emitted before. *)
Lemma spec_loop_prefix seeders fuel f (queue result final : list string) :
  spec_loop fuel seeders f queue result = Some final ->
  exists tail, final = result ++ queue ++ tail.
Proof.
  revert f queue result; induction fuel as [|n IH]; intros f queue result.
  - destruct queue; simpl; [|discriminate].
    intros H; inversion H. exists []. now rewrite !app_nil_r.
  - destruct queue as [|c rest]; simpl.
    + intros H; inversion H. exists []. now rewrite !app_nil_r.
    + intros H.
      destruct (fold_decrement_queue (spec_dependents seeders c) f rest)
        as (added & Hq).
      apply IH in H as (tail & ->). rewrite Hq.
      exists (added ++ tail). rewrite <- !app_assoc. reflexivity.
Qed.

Lemma returned_order_starts_ready seeders (order : list string) :
  resolveDependencyOrder seeders = Some (Returned order) ->
  exists tail, order = spec_ready seeders ++ tail.
Proof.
  intros Hres.
  destruct (resolve_Returned_inv seeders order Hres) as (_ & Hk & _ & Hu & _).
  rewrite (kahn_order_refines seeders Hu) in Hk. unfold spec_kahn in Hk.
  apply spec_loop_prefix in Hk as (tail & ->). exists tail. reflexivity.
Qed.

End ResolverOutcomes.

(** X1. [resolveDependencyOrder] comes to an end on every registry, be it
    well formed or not (duplicate names, absent dependencies and cycles
    included): the queue loop ends within [seeders.length + 1] iterations
    and the search of [findCycle] within a depth of [seederMap.size + 1],
    and the call either returns an order or raises one of its two errors. *)
Theorem resolver_always_answers {Ctx Output App : Type}
  (seeders : list (Seeder Ctx Output App)) :
  (exists order, resolveDependencyOrder seeders = Some (Returned order)) \/
  (exists u d, resolveDependencyOrder seeders =
                 Some (Raised (MissingDependencyError u d))) \/
  (exists cycle, resolveDependencyOrder seeders =
                   Some (Raised (CircularDependencyError cycle))).
Proof.
  destruct (resolveDependencyOrder_terminates seeders) as ([order|[u d|cycle]] & ->); eauto.
Qed.

(** X2. An order is returned only for a well-formed registry: whenever
    [resolveDependencyOrder] returns, the names of the registry are pairwise
    different, every declared dependency is the name of a unit, the
    dependency graph has no cycle, the order is a rearrangement of the
    registry's names and every unit stands strictly after each of its
    declared dependencies. *)
Theorem returned_order_well_formed {Ctx Output App : Type}
  (seeders : list (Seeder Ctx Output App)) (order : list string) :
  resolveDependencyOrder seeders = Some (Returned order) ->
  unique_names seeders /\ deps_present seeders /\ acyclic seeders /\
  Permutation order (map name seeders) /\
  (forall s d, In s seeders -> In d (dependsOn s) ->
               strictly_before order d (name s)).
Proof.
  intros Hres.
  destruct (resolve_Returned_inv seeders order Hres) as (Hp & _ & _ & Hu & Hperm).
  destruct (resolve_Returned_precedes seeders order Hres) as [_ Hprec].
  split; [exact Hu|]. split; [exact Hp|].
  split; [now apply (precedence_acyclic seeders order)|].
  split; assumption.
Qed.

Lemma returned_order_well_formed_witness :
  unique_names Demo.ties /\ deps_present Demo.ties /\ acyclic Demo.ties /\
  Permutation ["b"; "a"; "d"; "c"] (map name Demo.ties) /\
  (forall s d, In s Demo.ties -> In d (dependsOn s) ->
               strictly_before ["b"; "a"; "d"; "c"] d (name s)).
Proof.
  apply (returned_order_well_formed Demo.ties ["b"; "a"; "d"; "c"]).
  vm_compute. reflexivity.
Defined.

(** X3. No false alarm on a registry with unique names: when
    [resolveDependencyOrder] raises [CircularDependencyError] there, every
    declared dependency is present and the list the error carries is a
    cycle of the registry (each member declares the next, the last declares
    the first, no name twice); in particular it is not empty. *)
Theorem cycle_error_is_genuine {Ctx Output App : Type}
  (seeders : list (Seeder Ctx Output App)) (cycle : list string) :
  unique_names seeders ->
  resolveDependencyOrder seeders = Some (Raised (CircularDependencyError cycle)) ->
  deps_present seeders /\ is_cycle seeders cycle /\ cycle <> [] /\
  has_cycle seeders.
Proof.
  intros Hu Hres. unfold resolveDependencyOrder in Hres.
  destruct (validate _ seeders) as [[u d]|] eqn:Ev; [discriminate|].
  apply validate_deps_present in Ev.
  destruct (kahn_order_final seeders Hu) as (f & final & Hrun & Hinv).
  rewrite Hrun in Hres.
  destruct (Nat.eqb_spec (length final) (length seeders)) as [Hlen|Hlen];
    [discriminate|].
  assert (Hnd : NoDup final).
  { pose proof (inv_nodup _ _ _ _ Hinv) as H. now rewrite app_nil_r in H. }
  assert (Hsub : incl final (map name seeders)).
  { intros u Hin. apply (inv_ready _ _ _ _ Hinv). now rewrite app_nil_r. }
  pose proof (short_order_leaves_some seeders final Hu Hnd Hsub Hlen) as Hrem.
  set (B := fun u => In u (map name seeders) /\ ~ In u final).
  assert (HB : forall u, B u -> exists d, In d (deps_of seeders u) /\ B d).
  { intros u [Hin Hnot].
    destruct (left_out_declares seeders Hu Ev f final u Hinv Hin Hnot)
      as (d & Hd & Hdn & Hdf).
    exists d. split; [|split; assumption].
    now apply (depends_on_deps_of seeders Hu) in Hd. }
  destruct (filter (fun s => negb (includes final (name s))) seeders)
    as [|r rest] eqn:Erem; [congruence|].
  assert (Hr : B (name r)).
  { assert (Hf : In r (filter (fun s => negb (includes final (name s))) seeders))
      by (rewrite Erem; simpl; auto).
    apply filter_In in Hf as [Hrs Hrn].
    apply negb_true_iff, includes_false in Hrn.
    split; [now apply in_map | assumption]. }
  destruct (findCycle_from_closed seeders B HB r rest Hr) as (cycle' & Hfc & Hic).
  rewrite Hfc in Hres. injection Hres as <-.
  split; [exact Ev|]. split; [exact Hic|].
  destruct cycle' as [|c0 l]; [destruct Hic|].
  split; [discriminate|].
  exists c0. eapply is_cycle_member; [exact Hic | simpl; auto].
Qed.

Lemma cycle_error_is_genuine_witness :
  deps_present Demo.downstream_of_cycle /\
  is_cycle Demo.downstream_of_cycle ["A"; "B"] /\ ["A"; "B"] <> [] /\
  has_cycle Demo.downstream_of_cycle.
Proof.
  apply (cycle_error_is_genuine Demo.downstream_of_cycle ["A"; "B"]).
  - apply nodupb_NoDup. vm_compute. reflexivity.
  - vm_compute. reflexivity.
Defined.

(** X4. [MissingDependencyError] is raised only for a dependency that is
    really absent: the unit named in the error is a unit of the registry
    that lists the reported name, and no unit of the registry bears that
    name. *)
Theorem missing_error_is_genuine {Ctx Output App : Type}
  (seeders : list (Seeder Ctx Output App)) (u d : string) :
  resolveDependencyOrder seeders = Some (Raised (MissingDependencyError u d)) ->
  exists s, In s seeders /\ name s = u /\ In d (dependsOn s) /\
            ~ In d (map name seeders).
Proof.
  unfold resolveDependencyOrder.
  destruct (validate _ seeders) as [[u' d']|] eqn:Ev.
  - intros H. injection H as -> ->.
    apply validate_Some in Ev as (before & s & after & -> & Hn & Hd & Hh & _).
    exists s. repeat split; auto.
    + apply in_elt.
    + intros Hin. apply has_build_seederMap in Hin. congruence.
  - destruct (kahn_order seeders) as [result|]; [|discriminate].
    destruct (Nat.eqb (length result) (length seeders)); [discriminate|].
    destruct (findCycle _ _); discriminate.
Qed.

Lemma missing_error_is_genuine_witness :
  exists s, In s Demo.cycle_and_ghost /\ name s = "B" /\
            In "ghost" (dependsOn s) /\
            ~ In "ghost" (map name Demo.cycle_and_ghost).
Proof.
  apply (missing_error_is_genuine Demo.cycle_and_ghost "B" "ghost").
  vm_compute. reflexivity.
Defined.

(** X5. The units that declare no dependency are run first, in the order
    the registry lists them: every returned order begins with their names
    in registry order. *)
Theorem dependency_free_units_lead {Ctx Output App : Type}
  (seeders : list (Seeder Ctx Output App)) (order : list string) :
  resolveDependencyOrder seeders = Some (Returned order) ->
  exists tail,
    order = map name (filter (fun s => Nat.eqb (length (dependsOn s)) 0) seeders)
            ++ tail.
Proof. apply returned_order_starts_ready. Qed.

Lemma dependency_free_units_lead_witness :
  exists tail,
    ["seederF"; "seederA"; "seederC"; "seederB"; "seederD"; "seederE"] =
    map name (filter (fun s => Nat.eqb (length (dependsOn s)) 0) Demo.complex)
    ++ tail.
Proof.
  apply (dependency_free_units_lead Demo.complex
           ["seederF"; "seederA"; "seederC"; "seederB"; "seederD"; "seederE"]).
  vm_compute. reflexivity.
Defined.

(** X6. A registry with pairwise different names in which no unit
    declares a dependency is resolved to the registry's own order. *)
Theorem independent_units_keep_registry_order {Ctx Output App : Type}
  (seeders : list (Seeder Ctx Output App)) :
  unique_names seeders ->
  (forall s, In s seeders -> dependsOn s = []) ->
  resolveDependencyOrder seeders = Some (Returned (map name seeders)).
Proof.
  intros Hu Hnone.
  assert (Hp : deps_present seeders).
  { intros s d Hs Hd. rewrite (Hnone s Hs) in Hd. destruct Hd. }
  assert (Ha : acyclic seeders).
  { apply (precedence_acyclic seeders []).
    intros s d Hs Hd. rewrite (Hnone s Hs) in Hd. destruct Hd. }
  destruct (resolve_well_formed_acyclic seeders Hu Hp Ha)
    as (order & Hres & _ & Hperm & _).
  destruct (returned_order_starts_ready seeders order Hres) as (tail & Ho).
  assert (Hready : spec_ready seeders = map name seeders).
  { unfold spec_ready. f_equal. clear - Hnone.
    induction seeders as [|a l IH]; simpl; [reflexivity|].
    rewrite (Hnone a) by (simpl; auto). simpl. f_equal.
    apply IH. intros s Hs. apply Hnone. simpl; auto. }
  rewrite Hready in Ho. apply Permutation_length in Hperm.
  rewrite Ho, length_app in Hperm.
  assert (tail = []) by (destruct tail; [reflexivity | simpl in Hperm; lia]).
  subst tail. rewrite app_nil_r in Ho. now rewrite <- Ho.
Qed.

Lemma independent_units_keep_registry_order_witness :
  resolveDependencyOrder
    [Demo.unit_seeder "zeta" []; Demo.unit_seeder "alpha" [];
     Demo.unit_seeder "mid" []]
  = Some (Returned ["zeta"; "alpha"; "mid"]).
Proof.
  apply (independent_units_keep_registry_order
           [Demo.unit_seeder "zeta" []; Demo.unit_seeder "alpha" [];
            Demo.unit_seeder "mid" []]).
  - apply nodupb_NoDup. vm_compute. reflexivity.
  - intros s [<-|[<-|[<-|[]]]]; reflexivity.
Defined.

(* ================================================================== *)
(** ** Dependency injection *)

Section RecordedOutput.
Context {Output : Type}.
Implicit Types (l : list (SeederResult Output)).

Lemma find_app_first {A : Type} (p : A -> bool) (l1 l2 : list A) :
  find p (l1 ++ l2) =
  match find p l1 with Some x => Some x | None => find p l2 end.
Proof. induction l1 as [|a l IH]; simpl; [|destruct (p a)]; auto. Qed.

Lemma find_name_None l nm :
  ~ In nm (map r_name l) -> find (fun e => String.eqb (r_name e) nm) l = None.
Proof.
  intros Hn. destruct (find _ l) as [e|] eqn:E; [|reflexivity].
  apply find_some in E as [E1 E2]. apply String.eqb_eq in E2.
  exfalso. apply Hn. rewrite <- E2. now apply in_map.
Qed.

Lemma find_name_Some l nm :
  In nm (map r_name l) -> find (fun e => String.eqb (r_name e) nm) l <> None.
Proof.
  intros Hin E. apply in_map_iff in Hin as (e & <- & He).
  apply (find_none _ _ E) in He. simpl in He.
  rewrite String.eqb_refl in He. discriminate.
Qed.

Lemma recorded_output_app_l l1 l2 nm :
  In nm (map r_name l1) -> recorded_output (l1 ++ l2) nm = recorded_output l1 nm.
Proof.
  intros Hin. unfold recorded_output. rewrite find_app_first.
  pose proof (find_name_Some l1 nm Hin) as H.
  destruct (find _ l1); [reflexivity | congruence].
Qed.

Lemma recorded_output_absent l nm :
  ~ In nm (map r_name l) -> recorded_output l nm = None.
Proof. intros H. unfold recorded_output. now rewrite find_name_None. Qed.

Lemma recorded_output_snoc l e nm :
  ~ In (r_name e) (map r_name l) ->
  recorded_output (l ++ [e]) nm =
  if String.eqb (r_name e) nm then output e else recorded_output l nm.
Proof.
  intros Hfresh. unfold recorded_output. rewrite find_app_first. simpl.
  destruct (String.eqb_spec (r_name e) nm) as [<-|Hne].
  - now rewrite find_name_None.
  - destruct (find _ l); reflexivity.
Qed.

Lemma recorded_output_In l e :
  NoDup (map r_name l) -> In e l -> recorded_output l (r_name e) = output e.
Proof.
  induction l as [|a r IH]; simpl; intros Hnd Hin; [destruct Hin|].
  inversion Hnd as [|? ? Ha Hr]; subst. unfold recorded_output. simpl.
  destruct (String.eqb_spec (r_name a) (r_name e)) as [Heq|Hne].
  - destruct Hin as [->|Hin]; [reflexivity|].
    exfalso. apply Ha. rewrite Heq. now apply in_map.
  - destruct Hin as [->|Hin]; [congruence|]. now apply IH.
Qed.

End RecordedOutput.

(** [deps[d] = outputs[d]] for the declared names, nothing else. *)
Lemma build_deps_get {Output : Type} (outputs : OMap.t Output)
  (deps : list string) (d : string) :
  OMap.get (build_deps outputs deps) d =
  if includes deps d then Some (OMap.get outputs d) else None.
Proof.
  unfold build_deps.
  assert (H : forall acc : OMap.t (option Output),
             OMap.get (fold_left
                         (fun deps0 depName =>
                            OMap.set deps0 depName (OMap.get outputs depName))
                         deps acc) d =
             if includes deps d then Some (OMap.get outputs d) else OMap.get acc d).
  { induction deps as [|x r IH]; intros acc; simpl; [reflexivity|].
    rewrite IH. destruct (includes r d) eqn:Er.
    - now destruct (String.eqb x d).
    - destruct (String.eqb_spec x d) as [->|Hne].
      + apply OMapFacts.get_set_same.
      + now apply OMapFacts.get_set_other. }
  now rewrite H.
Qed.

Lemma strictly_before_prefix (l1 l2 : list string) (d nm : string) :
  NoDup (l1 ++ nm :: l2) -> strictly_before (l1 ++ nm :: l2) d nm -> In d l1.
Proof.
  intros Hnd (j & i & Hj & Hi & Hlt).
  assert (Hnm : indexOf (l1 ++ nm :: l2) nm = Some (length l1)).
  { apply indexOf_nth_NoDup; [assumption|].
    rewrite nth_error_app2, Nat.sub_diag by apply Nat.le_refl. reflexivity. }
  rewrite Hnm in Hi. injection Hi as <-.
  apply indexOf_Some in Hj as [Hj _].
  rewrite nth_error_app1 in Hj by assumption.
  eapply nth_error_In; eauto.
Qed.

Section Routing.
Context {Ctx Output App : Type}.
Variable seeders : list (Seeder Ctx Output App).
Variable config : InternalSeederConfig Ctx App.
Variable options : RunSeedersOptions.
Variable w : World App.
Variable order : list string.
Hypothesis Hres : resolveDependencyOrder seeders = Some (Returned order).

Lemma order_has_definition nm :
  In nm order ->
  exists s, OMap.get (build_seederMap seeders) nm = Some s.
Proof.
  intros Hin.
  destruct (resolve_Returned_inv seeders order Hres) as (_ & _ & _ & _ & Hperm).
  apply (Permutation_in _ Hperm) in Hin.
  apply has_build_seederMap in Hin. unfold OMap.has in Hin.
  destruct (OMap.get (build_seederMap seeders) nm); [eauto | discriminate].
Qed.

Lemma definition_of_name nm s :
  OMap.get (build_seederMap seeders) nm = Some s -> In s seeders /\ name s = nm.
Proof. rewrite get_build_seederMap. apply seeder_named_Some. Qed.

Lemma called_with_extend (ctx : Ctx) (done : list (SeederResult Output))
  (e0 : SeederResult Output) :
  (status e0 = completed \/ status e0 = failed ->
   called_with seeders config ctx done e0) ->
  (forall j e, nth_error done j = Some e ->
               status e = completed \/ status e = failed ->
               called_with seeders config ctx (firstn j done) e) ->
  forall j e, nth_error (done ++ [e0]) j = Some e ->
              status e = completed \/ status e = failed ->
              called_with seeders config ctx (firstn j (done ++ [e0])) e.
Proof.
  intros Hnew Hold j e Hnth Hst.
  destruct (Nat.lt_ge_cases j (length done)) as [Hlt|Hge].
  - rewrite nth_error_app1 in Hnth by assumption.
    rewrite firstn_snoc_below by lia. now apply Hold.
  - rewrite nth_error_app2 in Hnth by assumption.
    destruct (j - length done) as [|m] eqn:Ej; simpl in Hnth.
    + inversion Hnth; subst e. assert (j = length done) by lia. subst j.
      rewrite firstn_snoc_below, firstn_all by lia. now apply Hnew.
    + destruct m; discriminate.
Qed.

Lemma loop_routing :
  let st := loop_end seeders config options w order in
  let ctx := fst (context config (call_hook (onBeforeAll config) w)) in
  map r_name (st_results st) = order /\
  forall j e, nth_error (st_results st) j = Some e ->
              status e = completed \/ status e = failed ->
              called_with seeders config ctx (firstn j (st_results st)) e.
Proof.
  destruct (resolve_Returned_precedes seeders order Hres) as [Hnd Hprec].
  unfold loop_end.
  set (cof := option_default false (continueOnFailure options)).
  set (ctx := fst (context config (call_hook (onBeforeAll config) w))).
  destruct (run_loop_rule config (option_default true (verbose options)) cof
              (build_seederMap seeders) ctx (length order)
              (route_inv seeders config cof ctx order)
              (fun done rest st =>
                 map r_name (st_results st) = order /\
                 forall j e, nth_error done j = Some e ->
                             status e = completed \/ status e = failed ->
                             called_with seeders config ctx (firstn j done) e))
    with (names := order) (done := @nil (SeederResult Output))
         (st := loop_start (Output := Output) config options w order)
    as (done' & rest' & [Hnames Hcalled] & Hr & _).
  - (* one iteration *)
    intros done nm rest st fl st' [Hn Ho Hc Hran Hstop] Hframe Hshape.
    assert (Horder : map r_name done ++ nm :: rest = order).
    { rewrite <- Hn, Hframe, map_app, map_name_pending. reflexivity. }
    assert (Hfresh : ~ In nm (map r_name done)).
    { rewrite <- Horder in Hnd. apply NoDup_remove_2 in Hnd.
      intros H. apply Hnd. apply in_or_app. auto. }
    assert (Hnames' : forall e, r_name e = nm ->
              map r_name (done ++ e :: map pending_result rest) = order).
    { intros e He. rewrite map_app. simpl. now rewrite map_name_pending, He. }
    assert (Hout' : forall e outputs', r_name e = nm ->
              (forall x, OMap.get outputs' x =
                         if String.eqb nm x then output e
                         else OMap.get (st_outputs st) x) ->
              forall x, OMap.get outputs' x = recorded_output (done ++ [e]) x).
    { intros e outputs' He Hget x.
      rewrite recorded_output_snoc by now rewrite He.
      rewrite Hget, He. now rewrite Ho. }
    assert (Hcall : forall seeder e,
              nm <> EmptyString ->
              OMap.get (build_seederMap seeders) nm = Some seeder ->
              cof && existsb (includes (st_failedSeeders st)) (dependsOn seeder)
                = false ->
              r_name e = nm ->
              records_outcome e (entered config nm st)
                (run seeder ctx (build_deps (st_outputs st) (dependsOn seeder))
                   (entered config nm st)) ->
              called_with seeders config ctx done e).
    { intros seeder e Hnm Hget Hskip He Hrec.
      destruct (definition_of_name nm seeder Hget) as [Hs Hname].
      exists seeder, (build_deps (st_outputs st) (dependsOn seeder)), st.
      rewrite He. split; [exact Hs|]. split; [exact Hname|].
      split; [exact Hnm|]. split; [|exact Hrec].
      assert (Hin : forall d, In d (dependsOn seeder) -> In d (map r_name done)).
      { intros d Hd. apply (strictly_before_prefix _ rest d nm).
        - now rewrite Horder.
        - rewrite Horder, <- Hname. now apply Hprec. }
      split; [|split].
      - intros d Hd. split; [now apply Hin|].
        rewrite build_deps_get, (proj2 (includes_In _ _) Hd). now rewrite Ho.
      - intros d Hd. rewrite build_deps_get.
        destruct (includes (dependsOn seeder) d) eqn:E; [|reflexivity].
        apply includes_In in E. contradiction.
      - intros d Hd Hne.
        destruct (proj1 (in_map_iff _ _ _) (Hin d Hd)) as (ed & Hed & Hined).
        assert (Hnd' : NoDup (map r_name done)).
        { rewrite <- Horder in Hnd. now apply NoDup_app_remove_r in Hnd. }
        rewrite <- Hed, (recorded_output_In _ _ Hnd' Hined).
        destruct (Hran ed Hined) as [Hdone|Hfailed]; [congruence | assumption |].
        exfalso. rewrite Hed in Hfailed.
        destruct cof eqn:Ec.
        + simpl in Hskip.
          assert (Hex : existsb (includes (st_failedSeeders st)) (dependsOn seeder)
                        = true).
          { apply existsb_exists. exists d. split; [assumption|].
            now apply includes_In. }
          congruence.
        + rewrite (Hstop eq_refl) in Hfailed. destruct Hfailed. }
    inversion Hshape
      as [Hpass | seeder evs Hne Hget Hc' Hex Hev
          | seeder evs out w2 Hne Hget Hsk Hrun Hev
          | seeder evs reason w2 Hne Hget Hsk Hrun Hev]; subst fl st'.
    + (* passed over *)
      exists (pending_result nm). split; [exact Hframe|]. split; [reflexivity|].
      split.
      * exact Hn.
      * apply Hout'; [reflexivity|]. intros x. simpl.
        destruct (String.eqb_spec nm x) as [<-|_]; [|reflexivity].
        rewrite Ho. now apply recorded_output_absent.
      * apply called_with_extend; [|exact Hc].
        simpl. intros [H|H]; discriminate.
      * intros e Hin Hne. apply in_app_iff in Hin as [Hin|[<-|[]]]; [auto|].
        exfalso. simpl in Hne.
        destruct Hpass as [->|Hnone]; [now apply Hne|].
        destruct (order_has_definition nm) as (s & Hs); [|congruence].
        rewrite <- Horder. apply in_or_app. simpl. auto.
      * exact Hstop.
    + (* skipped *)
      eexists. split; [reflexivity|]. split; [reflexivity|].
      rewrite Hc'. split; simpl.
      * now apply Hnames'.
      * apply Hout'; [reflexivity|]. intros x. simpl.
        destruct (String.eqb_spec nm x) as [<-|_]; [|reflexivity].
        rewrite Ho. now apply recorded_output_absent.
      * apply called_with_extend; [|exact Hc].
        simpl. intros [H|H]; discriminate.
      * intros e Hin Hne'.
        apply in_app_iff in Hin as [Hin|[<-|[]]].
        -- destruct (Hran e Hin Hne') as [Ho'|Hf]; [now left|].
           right. apply set_add_In. now right.
        -- right. apply set_add_In. now left.
      * discriminate.
    + (* completed *)
      eexists. split; [reflexivity|]. split; [reflexivity|].
      split; simpl.
      * now apply Hnames'.
      * apply Hout'; [reflexivity|]. intros x. simpl.
        destruct (String.eqb_spec nm x) as [<-|Hx].
        -- apply OMapFacts.get_set_same.
        -- now apply OMapFacts.get_set_other.
      * apply called_with_extend; [|exact Hc]. intros _.
        apply (Hcall seeder); auto.
        unfold records_outcome. rewrite Hrun. simpl. auto.
      * intros e Hin Hne'.
        apply in_app_iff in Hin as [Hin|[<-|[]]]; [auto|]. left. discriminate.
      * exact Hstop.
    + (* failed *)
      eexists. split; [reflexivity|]. split; [reflexivity|].
      assert (Hc2 : forall j e,
                nth_error
                  (done ++ [failed_entry nm
                              (Date_now w2 - Date_now (entered config nm st)) reason])
                  j = Some e ->
                status e = completed \/ status e = failed ->
                called_with seeders config ctx
                  (firstn j
                     (done ++ [failed_entry nm
                                 (Date_now w2 - Date_now (entered config nm st))
                                 reason])) e).
      { apply called_with_extend; [|exact Hc]. intros _.
        apply (Hcall seeder); auto.
        unfold records_outcome. rewrite Hrun. simpl. auto. }
      destruct cof eqn:Ec.
      * split; simpl.
        -- now apply Hnames'.
        -- apply Hout'; [reflexivity|]. intros x. simpl.
           destruct (String.eqb_spec nm x) as [<-|_]; [|reflexivity].
           rewrite Ho. now apply recorded_output_absent.
        -- exact Hc2.
        -- intros e Hin Hne'.
           apply in_app_iff in Hin as [Hin|[<-|[]]].
           ++ destruct (Hran e Hin Hne') as [Ho'|Hf]; [now left|].
              right. apply set_add_In. now right.
           ++ right. apply set_add_In. now left.
        -- discriminate.
      * split; [|exact Hc2]. simpl. now apply Hnames'.
  - (* the loop ran to its end *)
    intros done st [Hn _ Hc _ _] _. auto.
  - (* the state the loop is entered in *)
    split; simpl.
    + apply map_name_pending.
    + reflexivity.
    + intros j e Hnth. destruct j; discriminate.
    + intros e [].
    + reflexivity.
  - reflexivity.
  - simpl in *. split; [exact Hnames|].
    intros j e Hnth Hst. rewrite Hr in Hnth |- *.
    destruct (Nat.lt_ge_cases j (length done')) as [Hlt|Hge].
    + rewrite nth_error_app1 in Hnth by assumption.
      rewrite firstn_app. replace (j - length done') with 0 by lia.
      simpl. rewrite app_nil_r. now apply Hcalled.
    + rewrite nth_error_app2 in Hnth by assumption.
      apply nth_error_In, in_map_iff in Hnth as (x & <- & _).
      simpl in Hst. destruct Hst; discriminate.
Qed.

End Routing.

(* ================================================================== *)
(** ** Calls of [run] and ledger entries *)

Section Calls.
Context {Ctx Output App : Type}.
Variable seeders : list (Seeder Ctx Output App).
Variable config : InternalSeederConfig Ctx App.
Variable options : RunSeedersOptions.
Variable w : World App.
Variable order : list string.

Lemma StronglySorted_snoc (l : list nat) (n : nat) :
  StronglySorted lt l -> (forall x, In x l -> x < n) -> StronglySorted lt (l ++ [n]).
Proof.
  induction 1 as [|a l Hs IH Ha]; intros Hlt; simpl.
  - constructor; constructor.
  - constructor.
    + apply IH. intros x Hx. apply Hlt. simpl; auto.
    + apply Forall_app. split; [exact Ha|].
      constructor; [|constructor]. apply Hlt. simpl; auto.
Qed.

Lemma status_of_call_not_idle (ok : bool) :
  status_of_call ok <> pending /\ status_of_call ok <> skipped.
Proof. destruct ok; split; discriminate. Qed.

(** Extending the ledger by an entry that stems from no call, or from
    one call at its position. *)
Lemma calls_inv_extend (done : list (SeederResult Output))
  (st st' : LoopState Output App) (e0 : SeederResult Output)
  (new_runs : list (nat * string * bool * bool)) :
  calls_inv done st ->
  runs_of (st_trace st') = runs_of (st_trace st) ++ new_runs ->
  (new_runs = [] /\ (status e0 = pending \/ status e0 = skipped)) \/
  (exists a ok, new_runs = [(length done, r_name e0, a, ok)] /\
                status e0 = status_of_call ok) ->
  calls_inv (done ++ [e0]) st'.
Proof.
  intros [Hs Hb He Hc] Hruns Hnew.
  assert (Hpos : forall r, In r new_runs -> position r = length done).
  { intros r Hr. destruct Hnew as [[-> _]|(a & ok & -> & _)]; [destruct Hr|].
    destruct Hr as [<-|[]]. reflexivity. }
  split.
  - rewrite Hruns, map_app.
    destruct Hnew as [[-> _]|(a & ok & -> & _)]; simpl.
    + now rewrite app_nil_r.
    + apply StronglySorted_snoc; [exact Hs|].
      intros x Hx. apply in_map_iff in Hx as (r & <- & Hr). now apply Hb.
  - intros r Hr. rewrite Hruns in Hr. rewrite length_app; simpl.
    apply in_app_iff in Hr as [Hr|Hr].
    + specialize (Hb r Hr). lia.
    + rewrite (Hpos r Hr). lia.
  - intros i nm a ok Hin. rewrite Hruns in Hin.
    apply in_app_iff in Hin as [Hin|Hin].
    + destruct (He i nm a ok Hin) as (e & Hnth & Hn & Hst).
      exists e. split; [|auto].
      rewrite nth_error_app1; [assumption|].
      apply nth_error_Some. congruence.
    + destruct Hnew as [[-> _]|(a' & ok' & -> & Hst)]; [destruct Hin|].
      destruct Hin as [E|[]]. inversion E; subst.
      exists e0. split; [|auto].
      rewrite nth_error_app2, Nat.sub_diag by apply Nat.le_refl. reflexivity.
  - intros i e ok Hnth Hst.
    destruct (Nat.lt_ge_cases i (length done)) as [Hlt|Hge].
    + rewrite nth_error_app1 in Hnth by assumption.
      destruct (Hc i e ok Hnth Hst) as (a & Hin).
      exists a. rewrite Hruns. apply in_or_app. auto.
    + rewrite nth_error_app2 in Hnth by assumption.
      destruct (i - length done) as [|m] eqn:Ei; simpl in Hnth;
        [|destruct m; discriminate].
      inversion Hnth; subst e. assert (i = length done) by lia. subst i.
      destruct (status_of_call_not_idle ok) as [H1 H2].
      destruct Hnew as [[_ [Hp|Hp]]|(a & ok' & -> & Hst')]; [congruence..|].
      assert (ok' = ok) by (destruct ok, ok'; simpl in *; congruence). subst ok'.
      exists a. rewrite Hruns. apply in_or_app. simpl. auto.
Qed.

Lemma loop_calls :
  let st := loop_end seeders config options w order in
  calls_inv (st_results st) st /\ map r_name (st_results st) = order.
Proof.
  unfold loop_end.
  destruct (run_loop_rule config (option_default true (verbose options))
              (option_default false (continueOnFailure options))
              (build_seederMap seeders)
              (fst (context config (call_hook (onBeforeAll config) w)))
              (length order)
              calls_inv (fun done rest st => calls_inv done st))
    with (names := order) (done := @nil (SeederResult Output))
         (st := loop_start (Output := Output) config options w order)
    as (done' & rest' & HQ & Hr & Hn).
  - intros done nm rest st fl st' HP Hframe Hshape.
    inversion Hshape
      as [Hpass | seeder evs Hne Hget Hc' Hex Hev
          | seeder evs out w2 Hne Hget Hsk Hrun Hev
          | seeder evs reason w2 Hne Hget Hsk Hrun Hev]; subst fl st'.
    + exists (pending_result nm). split; [exact Hframe|]. split; [reflexivity|].
      apply (calls_inv_extend done st st (pending_result nm) []); auto.
      now rewrite app_nil_r.
    + eexists. split; [reflexivity|]. split; [reflexivity|].
      eapply (calls_inv_extend done st _ (skipped_entry nm) []); auto.
      simpl. now rewrite runs_of_app, Hev.
    + eexists. split; [reflexivity|]. split; [reflexivity|].
      eapply calls_inv_extend; [exact HP | simpl; rewrite runs_of_app, Hev; reflexivity |].
      right. exists (isSeeding (entered config nm st)), true. auto.
    + eexists. split; [reflexivity|]. split; [reflexivity|].
      assert (H : calls_inv
                    (done ++ [failed_entry nm
                                (Date_now w2 - Date_now (entered config nm st)) reason])
                    {| st_results :=
                         done ++ failed_entry nm
                                   (Date_now w2 - Date_now (entered config nm st)) reason
                              :: map pending_result rest;
                       st_outputs := st_outputs st;
                       st_failedSeeders := set_add (st_failedSeeders st) nm;
                       st_world := w2;
                       st_trace := st_trace st ++ evs |}).
      { eapply calls_inv_extend;
          [exact HP | simpl; rewrite runs_of_app, Hev; reflexivity |].
        right. exists (isSeeding (entered config nm st)), false. auto. }
      destruct (option_default false (continueOnFailure options)); exact H.
  - auto.
  - assert (Hnone : runs_of (st_trace (loop_start (Output := Output)
                                           config options w order)) = [])
      by (simpl; destruct (option_default true (verbose options)); reflexivity).
    split; rewrite ?Hnone; simpl.
    + constructor.
    + intros r [].
    + intros i nm a ok [].
    + intros i e ok Hnth. destruct i; discriminate.
  - reflexivity.
  - simpl in *. split.
    + destruct HQ as [Hs Hb He Hc]. rewrite Hr. split; auto.
      * intros r Hin. specialize (Hb r Hin). rewrite length_app. lia.
      * intros i nm a ok Hin. destruct (He i nm a ok Hin) as (e & Hnth & H).
        exists e. split; [|exact H]. rewrite nth_error_app1; [assumption|].
        apply nth_error_Some. congruence.
      * intros i e ok Hnth Hst.
        destruct (Nat.lt_ge_cases i (length done')) as [Hlt|Hge].
        -- rewrite nth_error_app1 in Hnth by assumption. eauto.
        -- rewrite nth_error_app2 in Hnth by assumption.
           apply nth_error_In, in_map_iff in Hnth as (x & <- & _).
           simpl in Hst. destruct ok; discriminate.
    + rewrite Hr, map_app, map_name_pending. exact Hn.
Qed.

End Calls.

Lemma sorted_calls_distinct_names (order : list string)
  (runs : list (nat * string * bool * bool)) :
  NoDup order ->
  StronglySorted lt (map position runs) ->
  (forall r, In r runs -> nth_error order (position r) = Some (snd (fst (fst r)))) ->
  NoDup (map (fun r => snd (fst (fst r))) runs).
Proof.
  intros Hnd Hs Hn. induction runs as [|r l IH]; simpl; [constructor|].
  simpl in Hs. apply StronglySorted_inv in Hs as [Hs Hall].
  constructor.
  - intros Hin. apply in_map_iff in Hin as (r' & Heq & Hr').
    assert (Hlt : position r < position r').
    { rewrite Forall_forall in Hall. apply Hall. now apply in_map. }
    assert (E : nth_error order (position r) = nth_error order (position r')).
    { rewrite (Hn r) by (simpl; auto). rewrite (Hn r') by (simpl; auto).
      now rewrite Heq. }
    apply (proj1 (NoDup_nth_error order) Hnd) in E; [lia|].
    apply nth_error_Some. rewrite (Hn r) by (simpl; auto). discriminate.
  - apply IH; [assumption|]. intros r' Hr'. apply Hn. simpl; auto.
Qed.

(* ================================================================== *)
(** ** Runs in which no work is rejected *)

Section AllFulfilled.
Context {Ctx Output App : Type}.
Variable seeders : list (Seeder Ctx Output App).
Variable config : InternalSeederConfig Ctx App.
Variable options : RunSeedersOptions.
Variable w : World App.
Variable order : list string.
Hypothesis Hres : resolveDependencyOrder seeders = Some (Returned order).
Hypothesis Hwork :
  forall s, In s seeders ->
  forall c d w0, exists out, fst (run s c d w0) = Fulfilled out.
Hypothesis Hnamed : ~ In EmptyString (map name seeders).

Lemma existsb_includes_nil (l : list string) : existsb (includes []) l = false.
Proof. induction l; simpl; auto. Qed.


End AllFulfilled.

(* ================================================================== *)
(** ** The console options *)

Section ConsoleOptions.
Context {Ctx Output App : Type}.
Variable config : InternalSeederConfig Ctx App.
Variable continueOnFailure : bool.
Variable seederMap : OMap.t (Seeder Ctx Output App).
Variable ctx : Ctx.
Variable total : nat.

Lemma run_one_same_outcome (v1 v2 : bool) (i : nat) (nm : string)
  (st1 st2 : LoopState Output App) :
  same_outcome st1 st2 ->
  fst (run_one config v1 continueOnFailure seederMap ctx total i nm st1) =
  fst (run_one config v2 continueOnFailure seederMap ctx total i nm st2) /\
  same_outcome
    (snd (run_one config v1 continueOnFailure seederMap ctx total i nm st1))
    (snd (run_one config v2 continueOnFailure seederMap ctx total i nm st2)).
Proof.
  destruct st1 as [r1 o1 f1 w1 t1], st2 as [r2 o2 f2 w2 t2].
  unfold same_outcome. simpl. intros (<- & <- & <- & <- & Hruns).
  unfold run_one. simpl.
  destruct (nth_error r1 i) as [result|]; [|simpl; auto 6].
  destruct (String.eqb nm EmptyString); [simpl; auto 6|].
  destruct (OMap.get seederMap nm) as [seeder|]; [|simpl; auto 6].
  destruct (continueOnFailure && existsb (includes f1) (dependsOn seeder)).
  - simpl. repeat split; auto.
    rewrite !runs_of_app, Hruns. destruct v1, v2; reflexivity.
  - destruct (run seeder ctx (build_deps o1 (dependsOn seeder))
                (match setSeederName config with
                 | Some f => f nm w1
                 | None => w1
                 end)) as [[out|reason] w'].
    + simpl. repeat split; auto.
      rewrite !runs_of_app, Hruns. destruct v1, v2; reflexivity.
    + simpl. repeat split; auto.
      rewrite !runs_of_app, Hruns. destruct v1, v2; reflexivity.
Qed.

Lemma run_loop_same_outcome (v1 v2 : bool) (names : list string) (i : nat)
  (st1 st2 : LoopState Output App) :
  same_outcome st1 st2 ->
  same_outcome
    (run_loop config v1 continueOnFailure seederMap ctx total i names st1)
    (run_loop config v2 continueOnFailure seederMap ctx total i names st2).
Proof.
  revert i st1 st2. induction names as [|nm rest IH]; intros i st1 st2 Hs; simpl.
  - exact Hs.
  - destruct (run_one_same_outcome v1 v2 i nm st1 st2 Hs) as [Hfl Hst].
    destruct (run_one config v1 continueOnFailure seederMap ctx total i nm st1)
      as [fl1 st1'].
    destruct (run_one config v2 continueOnFailure seederMap ctx total i nm st2)
      as [fl2 st2'].
    simpl in Hfl, Hst. subst fl2. destruct fl1; [now apply IH | exact Hst].
Qed.

End ConsoleOptions.

(* ================================================================== *)
(** ** Failed and skipped entries *)

Section SkippedNeedsFailed.
Context {Ctx Output App : Type}.
Variable seeders : list (Seeder Ctx Output App).
Variable config : InternalSeederConfig Ctx App.
Variable options : RunSeedersOptions.
Variable w : World App.
Variable order : list string.

Lemma existsb_includes_nonempty (f l : list string) :
  existsb (includes f) l = true -> f <> [].
Proof. intros H ->. rewrite existsb_includes_nil in H. discriminate. Qed.

(** Nothing is skipped before something has failed. *)
Lemma loop_skipped_needs_failed :
  let st := loop_end seeders config options w order in
  forall e, In e (st_results st) -> status e = skipped ->
  exists e', In e' (st_results st) /\ status e' = failed.
Proof.
  unfold loop_end.
  set (P := fun (done : list (SeederResult Output)) (st : LoopState Output App) =>
              (st_failedSeeders st <> [] ->
               exists e', In e' done /\ status e' = failed) /\
              (forall e, In e done -> status e = skipped ->
                         exists e', In e' done /\ status e' = failed)).
  destruct (run_loop_rule config (option_default true (verbose options))
              (option_default false (continueOnFailure options))
              (build_seederMap seeders)
              (fst (context config (call_hook (onBeforeAll config) w)))
              (length order)
              P (fun done rest st => P done st))
    with (names := order) (done := @nil (SeederResult Output))
         (st := loop_start (Output := Output) config options w order)
    as (done' & rest' & [_ Hsk] & Hr & _).
  - intros done nm rest st fl st' [Hf Hs] Hframe Hshape.
    assert (Hmono : forall e0, (exists e', In e' done /\ status e' = failed) ->
                               exists e', In e' (done ++ [e0]) /\ status e' = failed).
    { intros e0 (e' & H1 & H2). exists e'. split; [|exact H2].
      apply in_or_app. auto. }
    assert (Hkeep : forall e0, status e0 <> skipped ->
              forall e, In e (done ++ [e0]) -> status e = skipped ->
                        exists e', In e' (done ++ [e0]) /\ status e' = failed).
    { intros e0 Hns e Hin Hst. apply in_app_iff in Hin as [Hin|[<-|[]]].
      - apply Hmono; eauto.
      - contradiction. }
    inversion Hshape
      as [Hpass | seeder evs Hne Hget Hc' Hex Hev
          | seeder evs out w2 Hne Hget Hskip Hrun Hev
          | seeder evs reason w2 Hne Hget Hskip Hrun Hev]; subst fl st'.
    + exists (pending_result nm). split; [exact Hframe|]. split; [reflexivity|].
      split; [intros H; apply Hmono; auto|]. apply Hkeep. discriminate.
    + eexists. split; [reflexivity|]. split; [reflexivity|].
      assert (Hsome : exists e', In e' done /\ status e' = failed)
        by (apply Hf; eapply existsb_includes_nonempty; eauto).
      split; simpl.
      * intros _. now apply Hmono.
      * intros e _ _. now apply Hmono.
    + eexists. split; [reflexivity|]. split; [reflexivity|].
      split; simpl; [intros H; apply Hmono; auto|]. apply Hkeep. discriminate.
    + eexists. split; [reflexivity|]. split; [reflexivity|].
      assert (Hnew : exists e' : SeederResult Output,
                In e' (done ++ [failed_entry nm
                                  (Date_now w2 - Date_now (entered config nm st))
                                  reason]) /\ status e' = failed).
      { eexists. split; [apply in_or_app; right; simpl; left; reflexivity|].
        reflexivity. }
      destruct (option_default false (continueOnFailure options));
        (split; simpl; [intros _; exact Hnew | intros e _ _; exact Hnew]).
  - auto.
  - split; simpl; [intros H; now destruct H | intros e []].
  - reflexivity.
  - simpl in *. intros e Hin Hst. rewrite Hr in Hin |- *.
    apply in_app_iff in Hin as [Hin|Hin].
    + destruct (Hsk e Hin Hst) as (e' & H1 & H2). exists e'.
      split; [apply in_or_app; auto | exact H2].
    + apply in_map_iff in Hin as (x & <- & _). discriminate.
Qed.

End SkippedNeedsFailed.

(* ================================================================== *)
(** ** Further properties of the engine *)

(** X7. Dependency injection.  In every run on a resolved registry in
    which no unit is named [__proto__] (a key the plain objects [outputs]
    and [deps] treat specially), each ledger entry that is [completed] or
    [failed] bears a name that is not empty and records one call of the
    work of the registry's unit of that name: with the context built once
    for the run, in a world prepared by [setSeederName], and with a
    dependency object whose keys are exactly the declared dependency
    names, each bound to the output the ledger holds for it.  Every
    declared dependency whose name is not empty has completed by then.
    The entry holds the duration of the call and its output or error. *)
Theorem dependency_outputs_are_injected {Ctx Output App : Type}
  (seeders : list (Seeder Ctx Output App)) (config : InternalSeederConfig Ctx App)
  (options : RunSeedersOptions) (w w' : World App)
  (res : RunResult Output) (tr : list (Event Output)) (order : list string)
  (j : nat) (e : SeederResult Output) :
  ~ In "__proto__" (map name seeders) ->
  runSeedersCore seeders config options w = Some (res, w', tr) ->
  resolveDependencyOrder seeders = Some (Returned order) ->
  nth_error (results res) j = Some e ->
  status e = completed \/ status e = failed ->
  called_with seeders config
    (fst (context config (call_hook (onBeforeAll config) w))) (results res) e.
Proof.
  intros _ Hrun Hres Hnth Hst.
  rewrite (runSeedersCore_returned _ _ _ _ _ Hres) in Hrun.
  inversion Hrun; subst; clear Hrun. simpl in *.
  destruct (loop_routing seeders config options w order Hres) as [Hnames Hcalled].
  simpl in Hnames, Hcalled.
  set (st := loop_end seeders config options w order) in *.
  destruct (Hcalled j e Hnth Hst)
    as (s & deps & st0 & Hs & Hname & Hne & (Hd1 & Hd2 & Hd3) & Hrec).
  exists s, deps, st0.
  split; [exact Hs|]. split; [exact Hname|]. split; [exact Hne|].
  split; [|exact Hrec].
  assert (Hsame : forall d, In d (dependsOn s) ->
            In d (map r_name (st_results st)) /\
            recorded_output (st_results st) d =
            recorded_output (firstn j (st_results st)) d).
  { intros d Hd. destruct (Hd1 d Hd) as [Hin _].
    rewrite <- (firstn_skipn j (st_results st)) at 1 2.
    rewrite map_app. split; [apply in_or_app; auto|].
    now apply recorded_output_app_l. }
  split; [|split].
  - intros d Hd. destruct (Hsame d Hd) as [Hin ->].
    split; [exact Hin | now apply Hd1].
  - exact Hd2.
  - intros d Hd Hnd. destruct (Hsame d Hd) as [_ ->]. now apply Hd3.
Qed.

Lemma dependency_outputs_are_injected_witness :
  called_with DemoRoute.registry DemoRun.bare_config tt DemoRoute.ledger
    (completed_entry "total" 0 42%Z).
Proof.
  apply (dependency_outputs_are_injected DemoRoute.registry DemoRun.bare_config
           (DemoRun.quiet None) DemoRun.world0 DemoRun.world0
           {| results := DemoRoute.ledger; success := true |} DemoRoute.trace
           ["left"; "right"; "total"] 2 (completed_entry "total" 0 42%Z)).
  - simpl. intros [H|[H|[H|[]]]]; discriminate.
  - vm_compute. reflexivity.
  - vm_compute. reflexivity.
  - reflexivity.
  - left. reflexivity.
Defined.

(** X8. Calls and ledger entries correspond one to one.  In every run on
    a resolved registry the work is called at strictly increasing positions
    of the order, so no unit's work is called twice; a call at position [i]
    is a call of the unit named at position [i] and leaves [completed] or
    [failed] in the entry at [i] according to its outcome; and every
    [completed] or [failed] entry stems from such a call. *)
Theorem work_is_called_once_in_order {Ctx Output App : Type}
  (seeders : list (Seeder Ctx Output App)) (config : InternalSeederConfig Ctx App)
  (options : RunSeedersOptions) (w w' : World App)
  (res : RunResult Output) (tr : list (Event Output)) (order : list string) :
  runSeedersCore seeders config options w = Some (res, w', tr) ->
  resolveDependencyOrder seeders = Some (Returned order) ->
  StronglySorted lt (map position (runs_of tr)) /\
  NoDup (map (fun r => snd (fst (fst r))) (runs_of tr)) /\
  (forall i nm a ok, In (i, nm, a, ok) (runs_of tr) ->
     nth_error order i = Some nm /\
     exists e, nth_error (results res) i = Some e /\ r_name e = nm /\
               status e = status_of_call ok) /\
  (forall i e ok, nth_error (results res) i = Some e ->
                  status e = status_of_call ok ->
                  exists a, In (i, r_name e, a, ok) (runs_of tr)).
Proof.
  intros Hrun Hres.
  rewrite (runSeedersCore_returned _ _ _ _ _ Hres) in Hrun.
  inversion Hrun; subst; clear Hrun. simpl.
  rewrite runs_of_results_event.
  destruct (loop_calls seeders config options w order) as [[Hs Hb He Hc] Hnames].
  simpl in Hs, Hb, He, Hc, Hnames.
  set (st := loop_end seeders config options w order) in *.
  destruct (resolve_Returned_precedes seeders order Hres) as [Hnd _].
  assert (Hat : forall i nm a ok, In (i, nm, a, ok) (runs_of (st_trace st)) ->
                                  nth_error order i = Some nm).
  { intros i nm a ok Hin. destruct (He i nm a ok Hin) as (e & Hnth & Hn & _).
    rewrite <- Hnames, <- Hn. now apply map_nth_error. }
  split; [exact Hs|]. split; [|split].
  - apply (sorted_calls_distinct_names order); auto.
    intros [[[i nm] a] ok] Hin. simpl. unfold position. simpl. eauto.
  - intros i nm a ok Hin. split; eauto.
  - exact Hc.
Qed.

Lemma work_is_called_once_in_order_witness :
  StronglySorted lt (map position (runs_of DemoRun.stop_trace)) /\
  NoDup (map (fun r => snd (fst (fst r))) (runs_of DemoRun.stop_trace)) /\
  (forall i nm a ok, In (i, nm, a, ok) (runs_of DemoRun.stop_trace) ->
     nth_error ["seederA"; "seederB"] i = Some nm /\
     exists e, nth_error DemoRun.stop_ledger i = Some e /\ r_name e = nm /\
               status e = status_of_call ok) /\
  (forall i e ok, nth_error DemoRun.stop_ledger i = Some e ->
                  status e = status_of_call ok ->
                  exists a, In (i, r_name e, a, ok) (runs_of DemoRun.stop_trace)).
Proof.
  apply (work_is_called_once_in_order DemoRun.stop_registry DemoRun.bare_config
           (DemoRun.quiet None) DemoRun.world0 DemoRun.world0
           {| results := DemoRun.stop_ledger; success := false |}
           DemoRun.stop_trace ["seederA"; "seederB"]).
  - vm_compute. reflexivity.
  - vm_compute. reflexivity.
Defined.



(** X10. The console options change nothing but the console: two runs
    that agree on [continueOnFailure] hand back the same ledger, the same
    [success] and the same world, and call the same work at the same
    positions with the same outcomes, whatever [verbose] and
    [printResults] are. *)
Theorem console_options_do_not_change_outcome {Ctx Output App : Type}
  (seeders : list (Seeder Ctx Output App)) (config : InternalSeederConfig Ctx App)
  (options options' : RunSeedersOptions) (w w' : World App)
  (res : RunResult Output) (tr : list (Event Output)) :
  option_default false (continueOnFailure options)
  = option_default false (continueOnFailure options') ->
  runSeedersCore seeders config options w = Some (res, w', tr) ->
  exists tr',
    runSeedersCore seeders config options' w = Some (res, w', tr') /\
    runs_of tr' = runs_of tr.
Proof.
  intros Hc Hrun.
  destruct (resolveDependencyOrder_terminates seeders) as ([order|err] & Hres).
  - rewrite (runSeedersCore_returned _ _ _ _ _ Hres) in Hrun.
    rewrite (runSeedersCore_returned _ _ _ _ _ Hres).
    inversion Hrun; subst; clear Hrun.
    assert (Hsame : same_outcome (loop_end seeders config options' w order)
                                 (loop_end seeders config options w order)).
    { unfold loop_end. rewrite Hc. apply run_loop_same_outcome.
      unfold same_outcome, loop_start. simpl. repeat split.
      destruct (option_default true (verbose options')),
               (option_default true (verbose options)); reflexivity. }
    destruct Hsame as (Hr & _ & _ & Hw & Ht).
    eexists. split.
    + rewrite Hr, Hw. reflexivity.
    + now rewrite !runs_of_results_event.
  - rewrite (runSeedersCore_raised _ _ _ _ _ Hres) in Hrun.
    rewrite (runSeedersCore_raised _ _ _ _ _ Hres).
    inversion Hrun; subst; clear Hrun.
    eexists. split; [reflexivity|].
    rewrite !runs_of_app.
    destruct (option_default true (verbose options')),
             (option_default true (verbose options)); reflexivity.
Qed.

Lemma console_options_do_not_change_outcome_witness :
  exists tr',
    runSeedersCore DemoRun.skip_registry DemoRun.bare_config DemoSkip.loud
      DemoRun.world0
    = Some ({| results := DemoSkip.ledger; success := false |},
            DemoRun.world0, tr') /\
    runs_of tr' = runs_of DemoSkip.trace.
Proof.
  apply (console_options_do_not_change_outcome DemoRun.skip_registry
           DemoRun.bare_config (DemoRun.quiet (Some true)) DemoSkip.loud
           DemoRun.world0 DemoRun.world0).
  - reflexivity.
  - vm_compute. reflexivity.
Defined.

Section StatusCounts.
Context {Output : Type}.
Implicit Types (l : list (SeederResult Output)).

Lemma SeederStatus_eqb_eq (a b : SeederStatus) :
  SeederStatus_eqb a b = true <-> a = b.
Proof. destruct a, b; simpl; split; congruence. Qed.

Lemma count_status_zero l (s : SeederStatus) :
  count_status s l = 0 <-> forall e, In e l -> status e <> s.
Proof.
  unfold count_status. induction l as [|a r IH]; simpl.
  - split; [intros _ e [] | reflexivity].
  - destruct (SeederStatus_eqb (status a) s) eqn:E; simpl.
    + apply SeederStatus_eqb_eq in E. split; [discriminate|].
      intros H. exfalso. apply (H a); auto.
    + rewrite IH. split.
      * intros H e [<-|He]; [|auto]. intros Hs.
        apply SeederStatus_eqb_eq in Hs. congruence.
      * intros H e He. apply H. auto.
Qed.

(** Without an entry left [running], the four counts of [printSummary]
    cover the ledger. *)
Lemma count_status_cover l :
  (forall e, In e l -> status e <> running) ->
  count_status completed l + count_status failed l
  + count_status skipped l + count_status pending l = length l.
Proof.
  unfold count_status. induction l as [|a r IH]; simpl; intros H; [reflexivity|].
  assert (Hr : forall e, In e r -> status e <> running) by (intros e He; auto).
  specialize (IH Hr).
  destruct (status a) eqn:E; simpl; try lia.
  exfalso. apply (H a); auto.
Qed.

End StatusCounts.

(** X11. The summary line agrees with the result.  For the ledger of a
    run on a resolved registry, [printSummary] writes the green
    ["Seeding complete"] line with the number of completed units exactly
    when [success] is true, and the red ["Seeding failed"] line otherwise;
    and the counts of completed, failed, skipped and pending entries it
    draws on add up to the number of units of the order. *)
Theorem summary_agrees_with_success {Ctx Output App : Type}
  (seeders : list (Seeder Ctx Output App)) (config : InternalSeederConfig Ctx App)
  (options : RunSeedersOptions) (w w' : World App)
  (res : RunResult Output) (tr : list (Event Output)) (order : list string) :
  runSeedersCore seeders config options w = Some (res, w', tr) ->
  resolveDependencyOrder seeders = Some (Returned order) ->
  printSummary (results res) =
    (if success res
     then (colorize "✓ Seeding complete:" green None ++ " "
           ++ show_nat (count_status completed (results res))
           ++ " seeders executed successfully" ++ newline)%string
     else colorize ("Seeding failed: "
                    ++ String.concat ", " (summary_parts (results res)))%string
            red None) /\
  count_status completed (results res) + count_status failed (results res)
  + count_status skipped (results res) + count_status pending (results res)
  = length order.
Proof.
  intros Hrun Hres.
  rewrite (runSeedersCore_returned _ _ _ _ _ Hres) in Hrun.
  inversion Hrun; subst; clear Hrun. simpl.
  set (st := loop_end seeders config options w order).
  split.
  - unfold printSummary. change (count_failed (st_results st))
      with (count_status failed (st_results st)).
    destruct (count_status failed (st_results st)) as [|n] eqn:Ef; simpl; [|reflexivity].
    destruct (count_status skipped (st_results st)) as [|m] eqn:Es; [reflexivity|].
    exfalso.
    assert (Hsome : count_status skipped (st_results st) <> 0) by lia.
    rewrite count_status_zero in Hsome, Ef.
    apply Hsome. intros e He Hst.
    destruct (loop_skipped_needs_failed seeders config options w order e He Hst)
      as (e' & He' & Hf).
    exact (Ef e' He' Hf).
  - destruct (loop_calls seeders config options w order) as [_ Hnames].
    simpl in Hnames. fold st in Hnames.
    rewrite <- Hnames, length_map. apply count_status_cover.
    intros e He.
    pose proof (loop_entries_ok seeders config options w order) as Hall.
    rewrite Forall_forall in Hall. apply (Hall e He).
Qed.

Lemma summary_agrees_with_success_witness :
  printSummary DemoRun.stop_ledger =
    (if success {| results := DemoRun.stop_ledger; success := false |}
     then (colorize "✓ Seeding complete:" green None ++ " "
           ++ show_nat (count_status completed DemoRun.stop_ledger)
           ++ " seeders executed successfully" ++ newline)%string
     else colorize ("Seeding failed: "
                    ++ String.concat ", " (summary_parts DemoRun.stop_ledger))%string
            red None) /\
  count_status completed DemoRun.stop_ledger + count_status failed DemoRun.stop_ledger
  + count_status skipped DemoRun.stop_ledger + count_status pending DemoRun.stop_ledger
  = length ["seederA"; "seederB"].
Proof.
  apply (summary_agrees_with_success DemoRun.stop_registry DemoRun.bare_config
           (DemoRun.quiet None) DemoRun.world0 DemoRun.world0
           {| results := DemoRun.stop_ledger; success := false |}
           DemoRun.stop_trace ["seederA"; "seederB"]).
  - vm_compute. reflexivity.
  - vm_compute. reflexivity.
Defined.

(** The failure line of the default run with a failing first unit. *)
Example summary_of_stopped_run :
  printSummary DemoRun.stop_ledger =
  (esc ++ "[31mSeeding failed: 0 completed, 1 failed, 1 pending" ++ esc ++ "[0m")%string.
Proof. vm_compute. reflexivity. Qed.

Lemma continue_on_failure_policy_witness :
  map r_name DemoSkip.ledger = ["seederA"; "seederC"; "seederB"] /\
  (success {| results := DemoSkip.ledger; success := false |} = false <->
   exists e, In e DemoSkip.ledger /\ status e = failed) /\
  forall i e s,
    nth_error DemoSkip.ledger i = Some e -> r_name e <> EmptyString ->
    In s DemoRun.skip_registry -> name s = r_name e ->
    follows_policy DemoSkip.ledger (runs_of DemoSkip.trace) i e s.
Proof.
  apply (continue_on_failure_policy DemoRun.skip_registry DemoRun.bare_config
           (DemoRun.quiet (Some true)) DemoRun.world0 DemoRun.world0
           {| results := DemoSkip.ledger; success := false |} DemoSkip.trace
           ["seederA"; "seederC"; "seederB"]).
  - reflexivity.
  - vm_compute. reflexivity.
  - vm_compute. reflexivity.
Defined.

(* ================================================================== *)
(** ** The step runner: slugs and cache keys *)

Section Slugs.

Lemma slug_char_not_hyphen (c : ascii) :
  is_slug_char c = true -> Ascii.eqb c hyphen = false.
Proof.
  destruct c as [[] [] [] [] [] [] [] []]; vm_compute; congruence.
Qed.

Lemma slug_or_hyphen_not_colon (c : ascii) :
  is_slug_char c || Ascii.eqb c hyphen = true -> negb (Ascii.eqb c colon) = true.
Proof.
  destruct c as [[] [] [] [] [] [] [] []]; vm_compute; congruence.
Qed.

Lemma all_chars_impl (p q : ascii -> bool) (s : string) :
  (forall c, p c = true -> q c = true) ->
  all_chars p s = true -> all_chars q s = true.
Proof.
  intros Hpq. induction s as [|c r IH]; simpl; [auto|].
  intros H. apply andb_true_iff in H as [H1 H2].
  apply andb_true_iff. auto.
Qed.

Lemma all_chars_append (p : ascii -> bool) (a b : string) :
  all_chars p (a ++ b)%string = all_chars p a && all_chars p b.
Proof.
  induction a as [|c r IH]; simpl; [reflexivity|].
  now rewrite IH, andb_assoc.
Qed.

Lemma replace_runs_chars (s : string) (in_run : bool) :
  all_chars (fun c => is_slug_char c || Ascii.eqb c hyphen) (replace_runs s in_run)
  = true.
Proof.
  revert in_run. induction s as [|c r IH]; intros in_run; simpl; [reflexivity|].
  destruct (is_slug_char c) eqn:E; simpl.
  - now rewrite E, IH.
  - destruct in_run; simpl; [apply IH|]. rewrite IH. reflexivity.
Qed.

(** No two hyphens in a row, and none at the start when a run is being
    continued. *)
Lemma replace_runs_hyphens (s : string) (in_run : bool) :
  has_double_hyphen (replace_runs s in_run) = false /\
  (in_run = true -> starts_with_hyphen (replace_runs s in_run) = false).
Proof.
  revert in_run. induction s as [|c r IH]; intros in_run; simpl; [auto|].
  destruct (is_slug_char c) eqn:E.
  - simpl. rewrite (slug_char_not_hyphen c E). simpl.
    split; [apply IH | reflexivity].
  - destruct in_run.
    + apply IH.
    + destruct (IH true) as [H1 H2]. simpl.
      rewrite (H2 eq_refl), H1. split; [reflexivity | discriminate].
Qed.

Lemma strip_leading_chars (p : ascii -> bool) (s : string) :
  all_chars p s = true -> all_chars p (strip_leading s) = true.
Proof.
  destruct s as [|c r]; simpl; [auto|].
  intros H. destruct (Ascii.eqb c hyphen); [|exact H].
  now apply andb_true_iff in H as [_ H].
Qed.

Lemma strip_trailing_chars (p : ascii -> bool) (s : string) :
  all_chars p s = true -> all_chars p (strip_trailing s) = true.
Proof.
  induction s as [|c r IH]; [auto|].
  intros H. simpl in H. apply andb_true_iff in H as [H1 H2].
  destruct r as [|d r'].
  - simpl. destruct (Ascii.eqb c hyphen); simpl; [reflexivity|].
    now rewrite H1.
  - change (strip_trailing (String c (String d r')))
      with (String c (strip_trailing (String d r'))).
    simpl all_chars at 1. rewrite H1. now apply IH.
Qed.

Lemma strip_leading_hyphens (s : string) :
  has_double_hyphen s = false ->
  has_double_hyphen (strip_leading s) = false /\
  starts_with_hyphen (strip_leading s) = false.
Proof.
  destruct s as [|c r]; simpl; [auto|].
  intros H. apply orb_false_iff in H as [H1 H2].
  destruct (Ascii.eqb c hyphen) eqn:E; simpl.
  - simpl in H1. auto.
  - rewrite E. simpl. rewrite H2. auto.
Qed.

Lemma strip_trailing_cons (c d : ascii) (r : string) :
  strip_trailing (String c (String d r)) = String c (strip_trailing (String d r)).
Proof. reflexivity. Qed.

Lemma strip_trailing_starts (s : string) :
  starts_with_hyphen s = false -> starts_with_hyphen (strip_trailing s) = false.
Proof.
  destruct s as [|c [|d r]]; simpl; auto.
  intros H. rewrite H. simpl. exact H.
Qed.

Lemma strip_trailing_hyphens (s : string) :
  has_double_hyphen s = false ->
  has_double_hyphen (strip_trailing s) = false /\
  ends_with_hyphen (strip_trailing s) = false.
Proof.
  induction s as [|c r IH]; [auto|].
  destruct r as [|d r'].
  - intros _. simpl. destruct (Ascii.eqb c hyphen) eqn:E; simpl; [auto|].
    rewrite E. auto.
  - intros H. rewrite strip_trailing_cons.
    change (has_double_hyphen (String c (String d r')))
      with ((Ascii.eqb c hyphen && Ascii.eqb d hyphen)
            || has_double_hyphen (String d r')) in H.
    apply orb_false_iff in H as [H1 H2].
    destruct (IH H2) as [IH1 IH2].
    destruct (strip_trailing (String d r')) as [|d' t] eqn:Et.
    + (* the rest was a single hyphen *)
      destruct r' as [|x r''].
      * simpl in Et. destruct (Ascii.eqb d hyphen) eqn:Ed; [|discriminate].
        rewrite andb_true_r in H1. simpl. rewrite H1. auto.
      * rewrite strip_trailing_cons in Et. discriminate.
    + assert (Hd : d' = d).
      { destruct r' as [|x r''].
        - simpl in Et. destruct (Ascii.eqb d hyphen); [discriminate|].
          now inversion Et.
        - rewrite strip_trailing_cons in Et. now inversion Et. }
      subst d'. split.
      * change (has_double_hyphen (String c (String d t)))
          with ((Ascii.eqb c hyphen && Ascii.eqb d hyphen)
                || has_double_hyphen (String d t)).
        now rewrite H1, IH1.
      * exact IH2.
Qed.

Variable toLowerCase : string -> string.

Lemma slugify_shape (description : string) :
  all_chars (fun c => is_slug_char c || Ascii.eqb c hyphen)
    (slugify toLowerCase description) = true /\
  starts_with_hyphen (slugify toLowerCase description) = false /\
  ends_with_hyphen (slugify toLowerCase description) = false /\
  has_double_hyphen (slugify toLowerCase description) = false.
Proof.
  unfold slugify.
  set (r := replace_runs (toLowerCase description) false).
  pose proof (replace_runs_chars (toLowerCase description) false) as Hc.
  destruct (replace_runs_hyphens (toLowerCase description) false) as [Hd _].
  fold r in Hc, Hd.
  destruct (strip_leading_hyphens r Hd) as [Hd' Hs].
  destruct (strip_trailing_hyphens (strip_leading r) Hd') as [Hd'' He].
  split; [now apply strip_trailing_chars, strip_leading_chars|].
  split; [now apply strip_trailing_starts|]. auto.
Qed.

Lemma slugify_no_colon (description : string) :
  all_chars (fun c => negb (Ascii.eqb c colon)) (slugify toLowerCase description)
  = true.
Proof.
  eapply all_chars_impl; [apply slug_or_hyphen_not_colon|].
  apply slugify_shape.
Qed.

Lemma colon_free_not_scoped (s n s' : string) :
  all_chars (fun c => negb (Ascii.eqb c colon)) s = true ->
  s <> (n ++ ":" ++ s')%string.
Proof.
  intros H E. rewrite E, all_chars_append in H.
  apply andb_true_iff in H as [_ H]. simpl in H. discriminate.
Qed.

Lemma scoped_key_inj (n1 n2 s1 s2 : string) :
  all_chars (fun c => negb (Ascii.eqb c colon)) s1 = true ->
  all_chars (fun c => negb (Ascii.eqb c colon)) s2 = true ->
  (n1 ++ ":" ++ s1 = n2 ++ ":" ++ s2)%string -> n1 = n2 /\ s1 = s2.
Proof.
  intros H1 H2. revert n2. induction n1 as [|c r IH]; intros [|c' r'] E; simpl in E.
  - inversion E. auto.
  - inversion E as [[Hc Hs]]. exfalso.
    exact (colon_free_not_scoped s1 r' s2 H1 Hs).
  - inversion E as [[Hc Hs]]. exfalso.
    exact (colon_free_not_scoped s2 r s1 H2 (eq_sym Hs)).
  - inversion E as [[Hc Hs]]. destruct (IH r' Hs) as [-> ->]. auto.
Qed.

End Slugs.

(** X13. The slug a step's description is turned into consists of the
    characters [a-z], [0-9] and the hyphen only, neither starts nor ends
    with a hyphen and has no two hyphens in a row -- whatever the
    description and whatever lower-casing does to it. *)
Theorem slug_is_well_formed (toLowerCase : string -> string) (description : string) :
  all_chars (fun c => is_slug_char c || Ascii.eqb c hyphen)
    (slugify toLowerCase description) = true /\
  starts_with_hyphen (slugify toLowerCase description) = false /\
  ends_with_hyphen (slugify toLowerCase description) = false /\
  has_double_hyphen (slugify toLowerCase description) = false.
Proof. apply slugify_shape. Qed.

(** X14. Cache keys are scoped by the seeder name without collisions:
    two steps get the same cache key only if they run under the same
    seeder name and their descriptions have the same slug.  A name may
    itself hold colons; a key without a seeder name never equals one with
    a seeder name. *)
Theorem cache_keys_do_not_collide (toLowerCase : string -> string)
  (name1 name2 description1 description2 : string) :
  cacheKey toLowerCase name1 description1 = cacheKey toLowerCase name2 description2 ->
  name1 = name2 /\
  slugify toLowerCase description1 = slugify toLowerCase description2.
Proof.
  pose proof (slugify_no_colon toLowerCase description1) as H1.
  pose proof (slugify_no_colon toLowerCase description2) as H2.
  unfold cacheKey. destruct name1 as [|a1 r1], name2 as [|a2 r2]; intros E.
  - auto.
  - exfalso. exact (colon_free_not_scoped _ _ _ H1 E).
  - exfalso. exact (colon_free_not_scoped _ _ _ H2 (eq_sym E)).
  - now apply scoped_key_inj.
Qed.

Lemma cache_keys_do_not_collide_witness :
  "seeder:A" = "seeder:A" /\
  slugify DemoStep.ascii_lower "Create user" =
  slugify DemoStep.ascii_lower "  create -- USER!".
Proof.
  apply (cache_keys_do_not_collide DemoStep.ascii_lower
           "seeder:A" "seeder:A" "Create user" "  create -- USER!").
  vm_compute. reflexivity.
Defined.

(** The keys of [step.test.ts]. *)
Example scoped_keys :
  cacheKey DemoStep.ascii_lower "mySeeder" "Create item" = "mySeeder:create-item" /\
  cacheKey DemoStep.ascii_lower EmptyString "Create item" = "create-item" /\
  cacheKey DemoStep.ascii_lower "seederA" "Create user"
  <> cacheKey DemoStep.ascii_lower "seederB" "Create user".
Proof.
  split; [vm_compute; reflexivity|]. split; [vm_compute; reflexivity|].
  vm_compute. discriminate.
Qed.

(* ================================================================== *)
(** ** The step runner: caching *)

Section Caching.
Context {T App : Type}.
Variable toLowerCase : string -> string.
Variable c : SeederCache T App.
Variable description : string.

Let on : option StepOptions := Some {| useCache := Some true |}.


(** What a fulfilled cached step went through: a hit, or a miss followed
    by the work and a write of its result. *)
Lemma step_fulfilled_cases (fn : World App -> Settled (option T) * World App)
  (w w' : World App) (r : option T) (tr : list (StepEvent T)) :
  step toLowerCase (Some c) description fn on w = (Fulfilled r, w', tr) ->
  let key := cacheKey toLowerCase (currentSeederName w) description in
  (exists v, r = Some v /\ cache_get c key w = (Fulfilled (Some v), w')) \/
  (exists w1 w2,
     cache_get c key w = (Fulfilled None, w1) /\
     fn w1 = (Fulfilled r, w2) /\
     cache_set c key r w2 = (Fulfilled tt, w')).
Proof.
  unfold step, attempt, on. simpl.
  destruct (cache_get c _ w) as [[[v|]|e] w1] eqn:Eg.
  - intros H. inversion H; subst. left. eauto.
  - destruct (fn w1) as [[r'|e] w2] eqn:Ef.
    + destruct (cache_set c _ r' w2) as [[[]|e] w3] eqn:Es.
      * intros H. inversion H; subst. right. eauto.
      * intros H. inversion H.
    + intros H. inversion H.
  - intros H. inversion H.
Qed.

Lemma step_miss_calls_once (fn : World App -> Settled (option T) * World App)
  (w w1 : World App) :
  cache_get c (cacheKey toLowerCase (currentSeederName w) description) w
  = (Fulfilled None, w1) ->
  calls_in (snd (step toLowerCase (Some c) description fn on w)) = 1.
Proof.
  intros H. unfold step, attempt, on. simpl. rewrite H.
  destruct (fn w1) as [[r'|e] w2].
  - destruct (cache_set c _ r' w2) as [[[]|e] w3]; [reflexivity|].
    destruct e; reflexivity.
  - destruct e; reflexivity.
Qed.

End Caching.


(** X16. A result of [undefined] is not replayed.  With a cache that
    hands back [undefined] for a key under which [undefined] was stored:
    after a step with [useCache] that was fulfilled with [undefined], a
    later step with the same description under the same seeder name finds
    no cached value and calls its work, once. *)
Theorem undefined_result_is_recomputed {T App : Type} (toLowerCase : string -> string)
  (c : SeederCache T App) (description : string)
  (fn fn' : World App -> Settled (option T) * World App)
  (w w' : World App) (tr : list (StepEvent T)) :
  (forall k w0 w1, cache_set c k None w0 = (Fulfilled tt, w1) ->
                   exists w2, cache_get c k w1 = (Fulfilled None, w2)) ->
  step toLowerCase (Some c) description fn (Some {| useCache := Some true |}) w
  = (Fulfilled None, w', tr) ->
  currentSeederName w' = currentSeederName w ->
  calls_in (snd (step toLowerCase (Some c) description fn'
                   (Some {| useCache := Some true |}) w')) = 1.
Proof.
  intros Hset Hstep Hname.
  destruct (step_fulfilled_cases toLowerCase c description fn w w' _ tr Hstep)
    as [(x & Hx & _) | (w1 & w2 & _ & _ & Hs)]; [discriminate|].
  destruct (Hset _ _ _ Hs) as (w3 & Hmiss).
  rewrite <- Hname in Hmiss.
  exact (step_miss_calls_once toLowerCase c description fn' w' w3 Hmiss).
Qed.

Section MapCache.

Lemma map_cache_set_get (k : string) (x : option nat)
  (w0 w1 : World (OMap.t (option nat))) :
  cache_set DemoStep.map_cache k x w0 = (Fulfilled tt, w1) ->
  cache_get DemoStep.map_cache k w1 = (Fulfilled x, w1).
Proof.
  simpl. intros H. inversion H; subst. simpl.
  now rewrite OMapFacts.get_set_same.
Qed.


End MapCache.


Lemma undefined_result_is_recomputed_witness :
  calls_in
    (snd (step DemoStep.ascii_lower (Some DemoStep.map_cache) "Void step"
            (DemoStep.computes (Some 1)) DemoStep.cached
            (DemoStep.store_world [("s:void-step", None)] "s"))) = 1.
Proof.
  apply (undefined_result_is_recomputed DemoStep.ascii_lower DemoStep.map_cache
           "Void step" (DemoStep.computes None) (DemoStep.computes (Some 1))
           (DemoStep.store_world [] "s")
           (DemoStep.store_world [("s:void-step", None)] "s")
           [StepCacheGet "s:void-step"; StepCall;
            StepCacheSet "s:void-step" None;
            StepLog (done_line "Void step" false)]).
  - intros k w0 w1 H. exists w1. now apply map_cache_set_get in H.
  - vm_compute. reflexivity.
  - reflexivity.
Defined.

(* ================================================================== *)
(** ** Seeder names and cache keys under [runSeeders] *)

(** X17. Steps are cached under the name of the unit that runs them.
    In a run started through [runSeeders] of a seeder instance, every
    [completed] or [failed] entry records a call of its unit's work that
    was entered with the step runner's current seeder name set to the
    unit's name; so a step called by that work with a description [d]
    uses the cache key [<unit name>:<slug of d>]. *)
Theorem steps_are_keyed_by_unit_name {Ctx Output App : Type}
  (toLowerCase : string -> string)
  (icfg : SeederInstanceConfig Ctx App) (seeders : list (Seeder Ctx Output App))
  (options : RunSeedersOptions) (w w' : World App)
  (res : RunResult Output) (tr : list (Event Output)) (e : SeederResult Output) :
  runSeeders icfg seeders options w = Some (res, w', tr) ->
  In e (results res) ->
  status e = completed \/ status e = failed ->
  exists s ctx deps w_in,
    In s seeders /\ name s = r_name e /\
    records_outcome e w_in (run s ctx deps w_in) /\
    currentSeederName w_in = name s /\
    forall d, cacheKey toLowerCase (currentSeederName w_in) d
              = (name s ++ ":" ++ slugify toLowerCase d)%string.
Proof.
  unfold runSeeders.
  destruct (i_context icfg (step_setSeederName EmptyString w)) as [ctx w1].
  set (cfg := {| context := fun w0 => (ctx, w0);
                 setSeederName := Some step_setSeederName;
                 onBeforeAll := _; onAfterAll := _ |}).
  intros Hrun Hin Hst.
  destruct (resolveDependencyOrder_terminates seeders) as ([order|err] & Hres).
  - rewrite (runSeedersCore_returned _ _ _ _ _ Hres) in Hrun.
    inversion Hrun; subst; clear Hrun. simpl in Hin.
    destruct (loop_routing seeders cfg options w1 order Hres) as [_ Hcalled].
    simpl in Hcalled.
    apply In_nth_error in Hin as [j Hj].
    destruct (Hcalled j e Hj Hst)
      as (s & deps & st0 & Hs & Hname & Hne & _ & Hrec).
    exists s, ctx, deps, (entered cfg (r_name e) st0).
    split; [exact Hs|]. split; [exact Hname|]. split; [exact Hrec|].
    assert (Hcur : currentSeederName (entered cfg (r_name e) st0) = name s)
      by (rewrite Hname; reflexivity).
    split; [exact Hcur|].
    intros d. rewrite Hcur. unfold cacheKey.
    destruct (name s) as [|a r] eqn:En; [congruence | reflexivity].
  - rewrite (runSeedersCore_raised _ _ _ _ _ Hres) in Hrun.
    inversion Hrun; subst. destruct Hin.
Qed.

Lemma steps_are_keyed_by_unit_name_witness :
  exists s ctx deps w_in,
    In s DemoRun.stop_registry /\
    name s = r_name (failed_entry (Output := unit) "seederA" 0 (ThrownError "Failed!")) /\
    records_outcome (failed_entry "seederA" 0 (ThrownError "Failed!")) w_in
      (run s ctx deps w_in) /\
    currentSeederName w_in = name s /\
    forall d, cacheKey DemoStep.ascii_lower (currentSeederName w_in) d
              = (name s ++ ":" ++ slugify DemoStep.ascii_lower d)%string.
Proof.
  apply (steps_are_keyed_by_unit_name DemoStep.ascii_lower DemoRun.instance_config
           DemoRun.stop_registry (DemoRun.quiet None) DemoRun.world0
           (step_setSeederName "seederA" DemoRun.world0)
           {| results := DemoRun.stop_ledger; success := false |}
           [EvRun 0 "seederA" true false]).
  - vm_compute. reflexivity.
  - simpl. left. reflexivity.
  - right. reflexivity.
Defined.

(* ================================================================== *)
(** ** The command line *)

Section CommandLine.
Context {Ctx Output App : Type}.
Implicit Types (seeders : list (Seeder Ctx Output App))
               (icfg : SeederInstanceConfig Ctx App) (w : World App).


Lemma engine_events_dry_run (seederMap : OMap.t (Seeder Ctx Output App))
  (i : nat) (order : list string) :
  engine_events (Output := Output) (dry_run_lines seederMap i order) = [].
Proof.
  revert i; induction order as [|nm rest IH]; intros i; simpl; [reflexivity|].
  destruct (String.eqb nm EmptyString); simpl; apply IH.
Qed.

Lemma listed_app (a b : list (CliEvent Output)) :
  listed (a ++ b) = listed a ++ listed b.
Proof. unfold listed. apply flat_map_app. Qed.

Lemma listed_dry_run seeders (i : nat) (order : list string) :
  listed (Output := Output) (dry_run_lines (build_seederMap seeders) i order) =
  map (fun pn => (fst pn + 1, snd pn, deps_of seeders (snd pn)))
    (filter (fun pn => negb (String.eqb (snd pn) EmptyString))
       (combine (seq i (length order)) order)).
Proof.
  revert i; induction order as [|nm rest IH]; intros i; simpl; [reflexivity|].
  destruct (String.eqb nm EmptyString); simpl; [apply IH|].
  rewrite IH. unfold deps_of. now rewrite get_build_seederMap.
Qed.


End CommandLine.



(** The command on the registry whose first unit fails exits with 1. *)
Example cli_run_with_failure :
  exists w' tr,
    runSeedersCli DemoRun.instance_config [] DemoRun.stop_registry None
      DemoRun.world0 = Some (1%Z, w', tr).
Proof. do 2 eexists. vm_compute. reflexivity. Qed.

(** X19. [--help], [-h] and [--dry-run] run nothing.  With one of these
    flags the command leaves the world as it found it -- no hook, no
    context factory and no unit's work is called -- and exits with 0 or 1:
    with 1 exactly on a dry run of a registry that cannot be resolved.  A
    dry run of a resolved registry lists the names of the order that are
    not empty, each numbered by its position (from 1) and with the
    dependencies its unit declares. *)
Theorem cli_flags_run_nothing {Ctx Output App : Type}
  (icfg : SeederInstanceConfig Ctx App) (args : list string)
  (seeders : list (Seeder Ctx Output App)) (label : option string) (w : World App) :
  includes args "--help" || includes args "-h" || includes args "--dry-run" = true ->
  exists code tr,
    runSeedersCli icfg args seeders label w = Some (code, w, tr) /\
    engine_events tr = [] /\
    (code = 0%Z \/ code = 1%Z) /\
    (code = 1%Z <->
     includes args "--help" || includes args "-h" = false /\
     exists error, resolveDependencyOrder seeders = Some (Raised error)) /\
    (includes args "--help" || includes args "-h" = false ->
     forall order,
       resolveDependencyOrder seeders = Some (Returned order) ->
       listed tr =
       map (fun pn => (fst pn + 1, snd pn, deps_of seeders (snd pn)))
         (filter (fun pn => negb (String.eqb (snd pn) EmptyString))
            (combine (seq 0 (length order)) order))).
Proof.
  intros Hflag. unfold runSeedersCli.
  destruct (includes args "--help" || includes args "-h") eqn:Eh.
  - do 2 eexists. split; [reflexivity|]. split; [reflexivity|].
    split; [auto|]. split; [|discriminate].
    split; [discriminate | intros [H _]; discriminate].
  - simpl in Hflag. rewrite Hflag.
    destruct (resolveDependencyOrder_terminates seeders) as ([order|err] & Hres);
      rewrite Hres.
    + do 2 eexists. split; [reflexivity|]. split.
      { simpl. unfold engine_events. rewrite flat_map_app. simpl.
        rewrite app_nil_r. apply engine_events_dry_run. }
      split; [auto|]. split.
      { split; [discriminate|]. intros [_ (e & He)]. congruence. }
      intros _ order' Ho. injection Ho as <-.
      simpl. rewrite listed_app. simpl. rewrite app_nil_r.
      apply listed_dry_run.
    + do 2 eexists. split; [reflexivity|]. split; [reflexivity|].
      split; [auto|]. split.
      { split; [eauto | reflexivity]. }
      intros _ order' Ho. congruence.
Qed.

Lemma cli_flags_run_nothing_witness :
  exists code tr,
    runSeedersCli DemoRun.instance_config ["--dry-run"] Demo.ties None
      DemoRun.world0 = Some (code, DemoRun.world0, tr) /\
    engine_events tr = [] /\
    (code = 0%Z \/ code = 1%Z) /\
    (code = 1%Z <->
     includes ["--dry-run"] "--help" || includes ["--dry-run"] "-h" = false /\
     exists error, resolveDependencyOrder Demo.ties = Some (Raised error)) /\
    (includes ["--dry-run"] "--help" || includes ["--dry-run"] "-h" = false ->
     forall order,
       resolveDependencyOrder Demo.ties = Some (Returned order) ->
       listed tr =
       map (fun pn => (fst pn + 1, snd pn, deps_of Demo.ties (snd pn)))
         (filter (fun pn => negb (String.eqb (snd pn) EmptyString))
            (combine (seq 0 (length order)) order))).
Proof.
  apply (cli_flags_run_nothing DemoRun.instance_config ["--dry-run"] Demo.ties
           None DemoRun.world0).
  reflexivity.
Defined.

(** The dry run of [Demo.ties], and [--help] on a registry with a cycle. *)
Example cli_dry_run_listing :
  runSeedersCli DemoRun.instance_config ["--dry-run"] Demo.ties None DemoRun.world0
  = Some (0%Z, DemoRun.world0,
          [CliDryRunBanner 4; CliOrderHeader;
           CliOrderLine 1 "b" []; CliOrderLine 2 "a" [];
           CliOrderLine 3 "d" ["b"]; CliOrderLine 4 "c" ["b"]; CliBlank]) /\
  runSeedersCli DemoRun.instance_config ["-h"; "--dry-run"]
    Demo.downstream_of_cycle None DemoRun.world0
  = Some (0%Z, DemoRun.world0, [CliHelp 3]).
Proof. split; vm_compute; reflexivity. Qed.

(* ================================================================== *)
(** ** Registries built with [defineSeeder] *)

Section Defined.
Context {Ctx Output App : Type}.
Implicit Types (configs : list (SeederConfig Ctx Output App)).

Lemma defined_names configs :
  map name (map defineSeeder configs) = map c_name configs.
Proof. rewrite map_map. reflexivity. Qed.

Lemma nth_error_firstn_In {A : Type} (l : list A) (i : nat) (x : A) :
  In x (firstn i l) -> exists j, j < i /\ nth_error l j = Some x.
Proof.
  intros Hin. apply In_nth_error in Hin as [j Hj].
  assert (Hlt : j < i).
  { assert (H : j < length (firstn i l)) by (apply nth_error_Some; congruence).
    rewrite length_firstn in H. lia. }
  exists j. split; [exact Hlt|].
  rewrite nth_error_firstn in Hj.
  destruct (Nat.ltb_spec j i); [exact Hj | lia].
Qed.

(** In a sequence of definitions, each from seeders defined before it,
    every dependency stands before its dependent. *)
Lemma defined_sequence_precedes configs :
  NoDup (map c_name configs) ->
  (forall i cfg dep, nth_error configs i = Some cfg -> In dep (config_deps cfg) ->
                     In dep (map defineSeeder (firstn i configs))) ->
  forall s d, In s (map defineSeeder configs) -> In d (dependsOn s) ->
              In d (map c_name configs) /\
              strictly_before (map c_name configs) d (name s).
Proof.
  intros Hnd Hseq s d Hs Hd.
  apply In_nth_error in Hs as [i Hi].
  destruct (nth_error configs i) as [cfg|] eqn:Ec.
  2: { rewrite nth_error_map, Ec in Hi. discriminate. }
  rewrite nth_error_map, Ec in Hi. simpl in Hi. injection Hi as <-.
  simpl in Hd. apply in_map_iff in Hd as (dep & <- & Hdep).
  specialize (Hseq i cfg dep Ec Hdep).
  rewrite <- firstn_map in Hseq.
  apply nth_error_firstn_In in Hseq as (j & Hlt & Hj).
  assert (Hjn : nth_error (map c_name configs) j = Some (name dep)).
  { rewrite <- defined_names. now apply map_nth_error. }
  assert (Hin : nth_error (map c_name configs) i = Some (c_name cfg))
    by now apply map_nth_error.
  split; [eapply nth_error_In; eauto|].
  exists j, i. split; [now apply indexOf_nth_NoDup|].
  split; [now apply indexOf_nth_NoDup | exact Hlt].
Qed.

End Defined.

(** X20. A registry that consists of seeders made by [defineSeeder] under
    pairwise different names, each from seeders made before it that are
    in the registry too, is always resolved, in whatever order the
    registry lists them: no cycle and no absent dependency can arise, and
    every seeder stands after the seeders it was defined from. *)
Theorem defined_registry_resolves {Ctx Output App : Type}
  (configs : list (SeederConfig Ctx Output App))
  (registry : list (Seeder Ctx Output App)) :
  Permutation registry (map defineSeeder configs) ->
  NoDup (map c_name configs) ->
  (forall i cfg dep, nth_error configs i = Some cfg -> In dep (config_deps cfg) ->
                     In dep (map defineSeeder (firstn i configs))) ->
  exists order,
    resolveDependencyOrder registry = Some (Returned order) /\
    Permutation order (map c_name configs) /\
    forall cfg dep, In cfg configs -> In dep (config_deps cfg) ->
                    strictly_before order (name dep) (c_name cfg).
Proof.
  intros Hperm Hnd Hseq.
  pose proof (defined_sequence_precedes configs Hnd Hseq) as Hbuilt.
  assert (Hnames : Permutation (map name registry) (map c_name configs)).
  { rewrite <- defined_names. now apply Permutation_map. }
  assert (Hu : unique_names registry).
  { unfold unique_names. eapply Permutation_NoDup; [|exact Hnd].
    now apply Permutation_sym. }
  assert (Hp : deps_present registry).
  { intros s d Hs Hd. apply (Permutation_in _ Hperm) in Hs.
    destruct (Hbuilt s d Hs Hd) as [Hin _].
    eapply Permutation_in; [apply Permutation_sym; exact Hnames | exact Hin]. }
  assert (Ha : acyclic registry).
  { apply (precedence_acyclic registry (map c_name configs)).
    intros s d Hs Hd. apply (Permutation_in _ Hperm) in Hs.
    now apply Hbuilt. }
  destruct (resolve_well_formed_acyclic registry Hu Hp Ha)
    as (order & Hres & _ & Hpo & Hprec).
  exists order. split; [exact Hres|]. split.
  - eapply Permutation_trans; eauto.
  - intros cfg dep Hc Hdep.
    apply (Hprec (defineSeeder cfg) (name dep)).
    + eapply Permutation_in; [apply Permutation_sym; exact Hperm|].
      now apply in_map.
    + simpl. now apply in_map.
Qed.

Lemma defined_registry_resolves_witness :
  exists order,
    resolveDependencyOrder DemoDefine.registry = Some (Returned order) /\
    Permutation order (map c_name [DemoDefine.organization; DemoDefine.users]) /\
    forall cfg dep,
      In cfg [DemoDefine.organization; DemoDefine.users] ->
      In dep (config_deps cfg) ->
      strictly_before order (name dep) (c_name cfg).
Proof.
  apply (defined_registry_resolves
           [DemoDefine.organization; DemoDefine.users] DemoDefine.registry).
  - apply perm_swap.
  - apply nodupb_NoDup. vm_compute. reflexivity.
  - intros [|[|i]] cfg dep Hnth Hdep; simpl in Hnth.
    + injection Hnth as <-. destruct Hdep.
    + injection Hnth as <-. simpl in Hdep. destruct Hdep as [<-|[]].
      simpl. left. reflexivity.
    + destruct i; discriminate.
Defined.

(* ================================================================== *)
(** ** The default mode *)

Section DefaultMode.
Context {Ctx Output App : Type}.
Variable seeders : list (Seeder Ctx Output App).
Variable config : InternalSeederConfig Ctx App.
Variable options : RunSeedersOptions.
Variable w : World App.
Variable order : list string.
Hypothesis Hstop : option_default false (continueOnFailure options) = false.

Lemma count_failed_app (a b : list (SeederResult Output)) :
  count_failed (a ++ b) = count_failed a + count_failed b.
Proof. unfold count_failed. now rewrite filter_app, length_app. Qed.

Lemma count_failed_pending (names : list string) :
  count_failed (map (pending_result (Output := Output)) names) = 0.
Proof. induction names; simpl; auto. Qed.

Lemma loop_never_skips :
  let st := loop_end seeders config options w order in
  (forall e, In e (st_results st) -> status e <> skipped) /\
  count_failed (st_results st) <= 1.
Proof.
  unfold loop_end. rewrite Hstop.
  set (P := fun (done : list (SeederResult Output)) (st : LoopState Output App) =>
              forall e, In e done -> status e <> skipped /\ status e <> failed).
  destruct (run_loop_rule config (option_default true (verbose options)) false
              (build_seederMap seeders)
              (fst (context config (call_hook (onBeforeAll config) w)))
              (length order)
              P (fun done rest st =>
                   (forall e, In e done -> status e <> skipped) /\
                   count_failed done <= 1))
    with (names := order) (done := @nil (SeederResult Output))
         (st := loop_start (Output := Output) config options w order)
    as (done' & rest' & [Hns Hcount] & Hr & _).
  - intros done nm rest st fl st' HP Hframe Hshape.
    assert (Hadd : forall e0, status e0 <> skipped -> status e0 <> failed ->
                              P (done ++ [e0]) st').
    { intros e0 H1 H2 e Hin. apply in_app_iff in Hin as [Hin|[<-|[]]]; auto. }
    inversion Hshape
      as [Hpass | seeder evs Hne Hget Hc' Hex Hev
          | seeder evs out w2 Hne Hget Hsk Hrun Hev
          | seeder evs reason w2 Hne Hget Hsk Hrun Hev]; subst fl st'.
    + exists (pending_result nm). split; [exact Hframe|]. split; [reflexivity|].
      apply Hadd; discriminate.
    + discriminate.
    + eexists. split; [reflexivity|]. split; [reflexivity|].
      apply Hadd; discriminate.
    + eexists. split; [reflexivity|]. split; [reflexivity|]. split.
      * intros e Hin. apply in_app_iff in Hin as [Hin|[<-|[]]];
          [now apply HP | discriminate].
      * rewrite count_failed_app.
        assert (Hz : count_failed done = 0).
        { apply count_failed_zero. intros r Hin. now apply HP. }
        rewrite Hz. unfold count_failed. simpl. lia.
  - intros done st HP _. split; [intros e Hin; now apply HP|].
    assert (Hz : count_failed done = 0).
    { apply count_failed_zero. intros r Hin. now apply HP. }
    lia.
  - intros e [].
  - reflexivity.
  - simpl in *. rewrite Hr. split.
    + intros e Hin. apply in_app_iff in Hin as [Hin|Hin]; [auto|].
      apply in_map_iff in Hin as (x & <- & _). discriminate.
    + rewrite count_failed_app, count_failed_pending. lia.
Qed.

End DefaultMode.

(** X21. Without [continueOnFailure] nothing is ever marked [skipped],
    and at most one entry is [failed]: the status [skipped] belongs to
    runs that continue past failures. *)
Theorem default_mode_never_skips {Ctx Output App : Type}
  (seeders : list (Seeder Ctx Output App)) (config : InternalSeederConfig Ctx App)
  (options : RunSeedersOptions) (w w' : World App)
  (res : RunResult Output) (tr : list (Event Output)) :
  option_default false (continueOnFailure options) = false ->
  runSeedersCore seeders config options w = Some (res, w', tr) ->
  (forall e, In e (results res) -> status e <> skipped) /\
  count_status failed (results res) <= 1.
Proof.
  intros Hstop Hrun.
  destruct (resolveDependencyOrder_terminates seeders) as ([order|err] & Hres).
  - rewrite (runSeedersCore_returned _ _ _ _ _ Hres) in Hrun.
    inversion Hrun; subst; clear Hrun. simpl.
    exact (loop_never_skips seeders config options w order Hstop).
  - rewrite (runSeedersCore_raised _ _ _ _ _ Hres) in Hrun.
    inversion Hrun; subst; clear Hrun. simpl.
    split; [intros e [] | unfold count_status; simpl; lia].
Qed.

Lemma default_mode_never_skips_witness :
  (forall e, In e DemoRun.stop_ledger -> status e <> skipped) /\
  count_status failed DemoRun.stop_ledger <= 1.
Proof.
  apply (default_mode_never_skips DemoRun.stop_registry DemoRun.bare_config
           (DemoRun.quiet None) DemoRun.world0 DemoRun.world0
           {| results := DemoRun.stop_ledger; success := false |}
           DemoRun.stop_trace).
  - reflexivity.
  - vm_compute. reflexivity.
Defined.

(* ================================================================== *)
(** ** What resolution reads of a registry *)

Section ShapeOnly.
Context {Ctx Output App Ctx' Output' App' : Type}.
Implicit Types (l : list (Seeder Ctx Output App))
               (p : list (Seeder Ctx' Output' App'))
               (m : OMap.t (Seeder Ctx Output App))
               (q : OMap.t (Seeder Ctx' Output' App')).

(** Two registries whose definitions agree, one by one, on name and
    dependency list. *)
Lemma same_shape_inv l p :
  same_shape l p ->
  (l = [] /\ p = []) \/
  exists s r s' r',
    l = s :: r /\ p = s' :: r' /\ name s = name s' /\
    dependsOn s = dependsOn s' /\ same_shape r r'.
Proof.
  unfold same_shape. destruct l as [|s r], p as [|s' r']; simpl; intros H;
    try discriminate; [left; auto|].
  right. inversion H. exists s, r, s', r'. auto.
Qed.

Lemma same_shape_ind (P : list (Seeder Ctx Output App) ->
                          list (Seeder Ctx' Output' App') -> Prop) :
  P [] [] ->
  (forall s r s' r', name s = name s' -> dependsOn s = dependsOn s' ->
                     same_shape r r' -> P r r' -> P (s :: r) (s' :: r')) ->
  forall l p, same_shape l p -> P l p.
Proof.
  intros Hnil Hcons l. induction l as [|s r IH]; intros p H;
    destruct (same_shape_inv _ _ H)
      as [[H1 H2] | (s0 & r0 & s' & r' & H1 & H2 & Hn & Hd & Hr)];
    try discriminate.
  - subst. exact Hnil.
  - inversion H1; subst. apply Hcons; auto.
Qed.

Lemma same_shape_names l p : same_shape l p -> map name l = map name p.
Proof.
  intros H. pattern l, p. apply same_shape_ind; [reflexivity | | exact H].
  intros s r s' r' Hn _ _ IH. simpl. now rewrite Hn, IH.
Qed.

Lemma same_shape_length l p : same_shape l p -> length l = length p.
Proof.
  intros H. apply same_shape_names in H.
  now rewrite <- (length_map name l), H, length_map.
Qed.

Lemma same_shape_filter (keep : string -> bool) l p :
  same_shape l p ->
  same_shape (filter (fun s => keep (name s)) l) (filter (fun s => keep (name s)) p).
Proof.
  intros H. pattern l, p. apply same_shape_ind; [reflexivity | | exact H].
  intros s r s' r' Hn Hd _ IH. simpl. rewrite <- Hn.
  destruct (keep (name s)); [|exact IH].
  unfold same_shape in *. simpl. now rewrite Hn, Hd, IH.
Qed.

(** Maps with the same keys in the same order whose values agree on the
    dependency list. *)
Lemma same_entries_set m q (s : Seeder Ctx Output App)
  (s' : Seeder Ctx' Output' App') (k : string) :
  same_entries m q -> dependsOn s = dependsOn s' ->
  same_entries (OMap.set m k s) (OMap.set q k s').
Proof.
  unfold same_entries. revert q.
  induction m as [|[k1 v1] r IH]; intros [|[k2 v2] r'] H Hd; simpl in *;
    try discriminate.
  - now rewrite Hd.
  - inversion H as [[Hk Hv Hr]]. subst k2.
    destruct (String.eqb k1 k); simpl.
    + now rewrite Hd, Hr.
    + rewrite Hv. f_equal. now apply IH.
Qed.

Lemma same_entries_build l p :
  same_shape l p -> same_entries (build_seederMap l) (build_seederMap p).
Proof.
  unfold build_seederMap.
  assert (H : forall m q, same_entries m q -> same_shape l p ->
            same_entries (fold_left (fun acc s => OMap.set acc (name s) s) l m)
                         (fold_left (fun acc s => OMap.set acc (name s) s) p q)).
  { intros m q Hm Hs. revert m q Hm. pattern l, p.
    apply same_shape_ind; [auto | | exact Hs].
    intros s r s' r' Hn Hd _ IH m q Hm. simpl. apply IH.
    rewrite <- Hn. now apply same_entries_set. }
  apply H. reflexivity.
Qed.

Lemma same_entries_get m q (k : string) :
  same_entries m q ->
  option_map (@dependsOn _ _ _) (OMap.get m k)
  = option_map (@dependsOn _ _ _) (OMap.get q k).
Proof.
  unfold same_entries. revert q.
  induction m as [|[k1 v1] r IH]; intros [|[k2 v2] r'] H; simpl in *;
    try discriminate; [reflexivity|].
  inversion H as [[Hk Hv Hr]]. subst k2.
  destruct (String.eqb k1 k); simpl; [now rewrite Hv | now apply IH].
Qed.

Lemma same_entries_has m q (k : string) :
  same_entries m q -> OMap.has m k = OMap.has q k.
Proof.
  intros H. apply (same_entries_get m q k) in H. unfold OMap.has.
  destruct (OMap.get m k), (OMap.get q k); simpl in H; congruence.
Qed.

Lemma same_entries_length m q : same_entries m q -> length m = length q.
Proof.
  unfold same_entries. intros H.
  apply (f_equal (@length _)) in H. now rewrite !length_map in H.
Qed.

Lemma first_absent_same m q (deps : list string) :
  same_entries m q -> first_absent m deps = first_absent q deps.
Proof.
  intros H. induction deps as [|d r IH]; simpl; [reflexivity|].
  rewrite (same_entries_has m q d H). now rewrite IH.
Qed.

Lemma validate_same m q l p :
  same_entries m q -> same_shape l p -> validate m l = validate q p.
Proof.
  intros Hm Hs. pattern l, p. apply same_shape_ind; [reflexivity | | exact Hs].
  intros s r s' r' Hn Hd _ IH. simpl.
  rewrite <- Hd, <- Hn, (first_absent_same m q _ Hm). now rewrite IH.
Qed.

Lemma fold_set_names {V : Type} (v : V) l p (a : OMap.t V) :
  same_shape l p ->
  fold_left (fun acc (s : Seeder Ctx Output App) => OMap.set acc (name s) v) l a =
  fold_left (fun acc (s : Seeder Ctx' Output' App') => OMap.set acc (name s) v) p a.
Proof.
  intros Hs. revert a. pattern l, p. apply same_shape_ind; [auto | | exact Hs].
  intros s r s' r' Hn _ _ IH a. simpl. now rewrite Hn, IH.
Qed.

Lemma build_graph_same l p : same_shape l p -> build_graph l = build_graph p.
Proof.
  intros Hs. unfold build_graph, init_inDegree, init_dependents.
  rewrite (fold_set_names 0%Z l p _ Hs), (fold_set_names [] l p _ Hs).
  generalize (fold_left (fun acc (s : Seeder Ctx' Output' App') =>
                           OMap.set acc (name s) 0%Z) p OMap.empty,
              fold_left (fun acc (s : Seeder Ctx' Output' App') =>
                           OMap.set acc (name s) (@nil string)) p OMap.empty).
  pattern l, p. apply same_shape_ind; [auto | | exact Hs].
  intros s r s' r' Hn Hd _ IH g. simpl. rewrite <- IH.
  unfold add_to_graph. now rewrite Hn, Hd.
Qed.

Lemma kahn_order_same l p : same_shape l p -> kahn_order l = kahn_order p.
Proof.
  intros Hs. unfold kahn_order.
  now rewrite (build_graph_same l p Hs), (same_shape_length l p Hs).
Qed.

Lemma dfs_each_ext (rec rec' : string -> DfsState -> option (bool * DfsState))
  (deps : list string) (st : DfsState) :
  (forall d st0, rec d st0 = rec' d st0) ->
  dfs_each rec deps st = dfs_each rec' deps st.
Proof.
  intros H. revert st. induction deps as [|d r IH]; intros st; simpl; [reflexivity|].
  rewrite H. destruct (rec' d st) as [[[] st']|]; auto.
Qed.

Lemma dfs_same m q (fuel : nat) (nm : string) (st : DfsState) :
  same_entries m q -> dfs fuel m nm st = dfs fuel q nm st.
Proof.
  intros Hm. revert nm st. induction fuel as [|n IH]; intros nm st; simpl;
    [reflexivity|].
  destruct (indexOf (path st) nm); [reflexivity|].
  destruct (includes (visited st) nm); [reflexivity|].
  pose proof (same_entries_get m q nm Hm) as Hg.
  destruct (OMap.get m nm) as [s|], (OMap.get q nm) as [s'|]; simpl in Hg;
    try discriminate; [|reflexivity].
  injection Hg as Hd. rewrite <- Hd.
  now rewrite (dfs_each_ext (dfs n m) (dfs n q) _ _ IH).
Qed.

Lemma find_from_same m q (fuel : nat) l p (seen : list string) :
  same_entries m q -> same_shape l p ->
  find_from fuel m l seen = find_from fuel q p seen.
Proof.
  intros Hm Hs. revert seen. pattern l, p.
  apply same_shape_ind; [reflexivity | | exact Hs].
  intros s r s' r' Hn _ _ IH seen. simpl.
  rewrite <- Hn, (dfs_same m q fuel (name s) _ Hm).
  destruct (dfs fuel q (name s) _) as [[[] st]|]; auto.
Qed.

Lemma findCycle_same m q l p :
  same_entries m q -> same_shape l p -> findCycle l m = findCycle p q.
Proof.
  intros Hm Hs. unfold findCycle.
  rewrite (same_entries_length m q Hm), (find_from_same m q _ l p [] Hm Hs).
  now rewrite (same_shape_names l p Hs).
Qed.

Lemma resolve_same l p :
  same_shape l p -> resolveDependencyOrder l = resolveDependencyOrder p.
Proof.
  intros Hs. unfold resolveDependencyOrder.
  pose proof (same_entries_build l p Hs) as Hm.
  rewrite (validate_same _ _ l p Hm Hs), (kahn_order_same l p Hs),
    (same_shape_length l p Hs).
  destruct (validate (build_seederMap p) p) as [[u d]|]; [reflexivity|].
  destruct (kahn_order p) as [result|]; [|reflexivity].
  destruct (Nat.eqb (length result) (length p)); [reflexivity|].
  rewrite (findCycle_same _ _ _ _ Hm
             (same_shape_filter (fun n => negb (includes result n)) l p Hs)).
  reflexivity.
Qed.

End ShapeOnly.

(** X22. Resolution reads names and dependency lists only.  Two
    registries whose definitions agree one by one on [name] and
    [dependsOn] -- whatever their work, their descriptions and the kind of
    context and output they use -- are resolved alike: the same order is
    returned or the same error is raised. *)
Theorem resolution_reads_names_and_dependencies_only
  {Ctx Output App Ctx' Output' App' : Type}
  (seeders : list (Seeder Ctx Output App))
  (seeders' : list (Seeder Ctx' Output' App')) :
  map (fun s => (name s, dependsOn s)) seeders
  = map (fun s => (name s, dependsOn s)) seeders' ->
  resolveDependencyOrder seeders = resolveDependencyOrder seeders'.
Proof. apply resolve_same. Qed.

Lemma resolution_reads_names_and_dependencies_only_witness :
  resolveDependencyOrder DemoRun.stop_registry
  = resolveDependencyOrder
      [DemoRoute.constant "seederA" 1%Z; DemoRoute.constant "seederB" 2%Z].
Proof.
  apply (resolution_reads_names_and_dependencies_only DemoRun.stop_registry
           [DemoRoute.constant "seederA" 1%Z; DemoRoute.constant "seederB" 2%Z]).
  reflexivity.
Defined.
(* ================================================================== *)
(** ** The order in which a unit lists its dependencies *)

Section ListedOrder.
Context {Ctx Output App : Type}.
Implicit Types (l r : list (Seeder Ctx Output App)).

Lemma set_set_present {V : Type} (m : OMap.t V) (k1 k2 : string) (v1 v2 : V) :
  k1 <> k2 -> In k1 (OMap.keys m) -> In k2 (OMap.keys m) ->
  OMap.set (OMap.set m k1 v1) k2 v2 = OMap.set (OMap.set m k2 v2) k1 v1.
Proof.
  intros Hne. induction m as [|[k v] t IH]; simpl; [tauto|].
  intros H1 H2.
  destruct (String.eqb_spec k k1) as [->|Hk1]; simpl.
  - destruct (String.eqb_spec k1 k2) as [->|_]; [contradiction|].
    simpl. now rewrite String.eqb_refl.
  - destruct (String.eqb_spec k k2) as [->|Hk2]; simpl.
    + destruct (String.eqb_spec k2 k1) as [E|_]; [congruence|]. reflexivity.
    + destruct (String.eqb_spec k k1) as [E|_]; [contradiction|].
      f_equal. apply IH.
      * destruct H1 as [H1|H1]; [contradiction | exact H1].
      * destruct H2 as [H2|H2]; [contradiction | exact H2].
Qed.

Lemma register_twice (who : string) (m : OMap.t (list string)) (d1 d2 : string) :
  register_dependent who (register_dependent who m d1) d2 =
  register_dependent who (register_dependent who m d2) d1.
Proof.
  destruct (String.eqb_spec d1 d2) as [->|Hne]; [reflexivity|].
  unfold register_dependent.
  destruct (OMap.get m d1) as [l1|] eqn:E1, (OMap.get m d2) as [l2|] eqn:E2.
  - rewrite OMapFacts.get_set_other, E2 by auto.
    rewrite OMapFacts.get_set_other, E1 by auto.
    apply set_set_present; [exact Hne | |];
      eapply OMapFacts.get_Some_In; eauto.
  - rewrite OMapFacts.get_set_other, E2 by auto. now rewrite E1.
  - rewrite OMapFacts.get_set_other, E1 by auto. reflexivity.
  - now rewrite E1.
Qed.

Lemma fold_register_Permutation (who : string) (deps deps' : list string) :
  Permutation deps deps' ->
  forall m : OMap.t (list string),
    fold_left (register_dependent who) deps m
    = fold_left (register_dependent who) deps' m.
Proof.
  induction 1 as [|d a b _ IH|d1 d2 a|a b c _ IH1 _ IH2]; intros m; simpl.
  - reflexivity.
  - apply IH.
  - now rewrite register_twice.
  - now rewrite IH1.
Qed.

(** The same names in the same places, each unit with the same
    dependencies listed in some order. *)
Lemma relisted_names l r :
  Forall2 (fun s s' => name s = name s' /\
                       Permutation (dependsOn s) (dependsOn s')) l r ->
  map name l = map name r.
Proof. induction 1 as [|s s' a b [Hn _] _ IH]; simpl; congruence. Qed.

Lemma relisted_fold_set {V : Type} (v : V) l r :
  Forall2 (fun s s' => name s = name s' /\
                       Permutation (dependsOn s) (dependsOn s')) l r ->
  forall acc : OMap.t V,
    fold_left (fun m s => OMap.set m (name s) v) l acc
    = fold_left (fun m s => OMap.set m (name s) v) r acc.
Proof.
  induction 1 as [|s s' a b [Hn _] _ IH]; intros acc; simpl; [reflexivity|].
  now rewrite Hn, IH.
Qed.

Lemma relisted_build_graph l r :
  Forall2 (fun s s' => name s = name s' /\
                       Permutation (dependsOn s) (dependsOn s')) l r ->
  build_graph l = build_graph r.
Proof.
  intros H. unfold build_graph, init_inDegree, init_dependents.
  rewrite (relisted_fold_set 0%Z l r H), (relisted_fold_set [] l r H).
  generalize (fold_left (fun m (s : Seeder Ctx Output App) =>
                           OMap.set m (name s) 0%Z) r OMap.empty,
              fold_left (fun m (s : Seeder Ctx Output App) =>
                           OMap.set m (name s) (@nil string)) r OMap.empty).
  induction H as [|s s' a b [Hn Hp] _ IH]; intros g; simpl; [reflexivity|].
  rewrite <- IH. f_equal. unfold add_to_graph.
  now rewrite Hn, (Permutation_length Hp), (fold_register_Permutation _ _ _ Hp).
Qed.

Lemma relisted_deps_present l r :
  Forall2 (fun s s' => name s = name s' /\
                       Permutation (dependsOn s) (dependsOn s')) l r ->
  deps_present l -> deps_present r.
Proof.
  intros H Hp s' d Hs' Hd. rewrite <- (relisted_names l r H).
  assert (Hex : exists s, In s l /\ Permutation (dependsOn s) (dependsOn s')).
  { clear Hp Hd. induction H as [|s0 s0' a b [_ Hperm] _ IH]; [destruct Hs'|].
    destruct Hs' as [<-|Hs'].
    - exists s0. simpl. auto.
    - destruct (IH Hs') as (s & Hs & Hq). exists s. simpl. auto. }
  destruct Hex as (s & Hs & Hq).
  apply (Hp s d Hs). eapply Permutation_in; [apply Permutation_sym; exact Hq | exact Hd].
Qed.

End ListedOrder.

(** X23. The returned order does not depend on the order in which a unit
    lists its dependencies: if a registry is resolved, the registry with
    the same units in the same places, each listing the same dependencies
    in any other order, is resolved to the same order. *)
Theorem order_ignores_how_dependencies_are_listed {Ctx Output App : Type}
  (seeders seeders' : list (Seeder Ctx Output App)) (order : list string) :
  Forall2 (fun s s' => name s = name s' /\
                       Permutation (dependsOn s) (dependsOn s'))
    seeders seeders' ->
  resolveDependencyOrder seeders = Some (Returned order) ->
  resolveDependencyOrder seeders' = Some (Returned order).
Proof.
  intros Hrel Hres.
  destruct (resolve_Returned_inv seeders order Hres) as (Hp & Hk & Hlen & _).
  assert (Hk' : kahn_order seeders' = Some order).
  { unfold kahn_order in *.
    rewrite <- (relisted_build_graph seeders seeders' Hrel).
    now rewrite <- (Forall2_length Hrel). }
  unfold resolveDependencyOrder.
  rewrite (proj2 (validate_deps_present seeders')
             (relisted_deps_present seeders seeders' Hrel Hp)), Hk'.
  rewrite <- (Forall2_length Hrel), Hlen, Nat.eqb_refl. reflexivity.
Qed.

Lemma order_ignores_how_dependencies_are_listed_witness :
  resolveDependencyOrder
    [Demo.unit_seeder "seederF" [];
     Demo.unit_seeder "seederE" ["seederD"];
     Demo.unit_seeder "seederD" ["seederC"; "seederB"];
     Demo.unit_seeder "seederC" ["seederA"];
     Demo.unit_seeder "seederB" ["seederA"];
     Demo.unit_seeder "seederA" []]
  = Some (Returned ["seederF"; "seederA"; "seederC"; "seederB"; "seederD"; "seederE"]).
Proof.
  apply (order_ignores_how_dependencies_are_listed Demo.complex).
  - repeat constructor.
  - vm_compute. reflexivity.
Defined.
